(** * contextify: a shallow embedding of [main.go] and its specification

    The tool walks a directory tree, prunes excluded directories, keeps the
    files whose extension is requested and copies them, framed by a header
    and a fence, into one output file.

    Go strings are byte sequences: they are modelled by [string] (a list of
    8-bit [ascii]).  Go maps used as sets ([map[string]bool]) are modelled by
    [gmap string bool]; reading a missing key yields [false] as in Go.
    The operating system is modelled by an explicit [World]; the functions of
    Go's standard library that the program calls ([strings.Split],
    [filepath.Ext], [filepath.WalkDir], [bufio.Scanner], [bufio.Writer], ...)
    are modelled from their documented behaviour on a Unix build
    ([filepath.Separator] is the slash).

    The world of a run is fixed while it runs: the tree and the contents of
    the files do not change, so the output file is taken not to be one of
    the files the walk reads.  Log records are kept in a list; a handler
    level drops the records below it. *)

From Stdlib Require Import String Ascii List Bool Arith Lia Permutation Sorted Finite.
From stdpp Require Import base gmap strings list fin_maps sorting.

Import ListNotations.
Local Open Scope list_scope.

(** ** Strings *)

Module Str.

(** [strings.Split(s, sep)] for a one-byte separator: the pieces of [s]
    between the occurrences of [sep]; a string without separator (the empty
    string too) gives one piece. *)
Fixpoint Split (s : string) (sep : ascii) : list string :=
  match s with
  | EmptyString => [EmptyString]
  | String c rest =>
      if Ascii.eqb c sep then EmptyString :: Split rest sep
      else match Split rest sep with
           | [] => [String c EmptyString]
           | piece :: pieces => String c piece :: pieces
           end
  end.

(** [strings.Join(elems, sep)]. *)
Fixpoint Join (elems : list string) (sep : string) : string :=
  match elems with
  | [] => EmptyString
  | [e] => e
  | e :: rest => e +:+ sep +:+ Join rest sep
  end.

(** [strings.HasPrefix]. *)
Definition HasPrefix (s pre : string) : bool := String.prefix pre s.

(** [s[n:]]. *)
Definition drop (n : nat) (s : string) : string :=
  String.substring n (String.length s - n) s.

(** Does the byte [c] occur in [s]? *)
Fixpoint contains (c : ascii) (s : string) : bool :=
  match s with
  | EmptyString => false
  | String d rest => Ascii.eqb d c || contains c rest
  end.

End Str.

(** ** Lookup maps *)

(** [m[k]] on a [map[string]bool]: [false] when the key is absent. *)
Definition mapGet (m : gmap string bool) (k : string) : bool :=
  default false (m !! k).

(** [len(m) == 0]. *)
Definition mapIsEmpty (m : gmap string bool) : bool := Nat.eqb (size m) 0.

(** [createLookupMap]: every item of the list is mapped to [true]. *)
Definition createLookupMap (items : list string) : gmap string bool :=
  foldl (fun lookup item => <[item := true]> lookup) ∅ items.

(** ** PathMatcher *)

Definition Separator : ascii := "/"%char.

(** [os.IsPathSeparator]. *)
Definition IsPathSeparator (c : ascii) : bool := Ascii.eqb c Separator.

(** The loop of [filepath.Ext]: [i] bytes remain to be scanned, from the end
    of the path towards its start;
    [for i := len(path)-1; i >= 0 && !IsPathSeparator(path[i]); i--]. *)
Fixpoint ExtLoop (i : nat) (path : string) : string :=
  match i with
  | 0 => EmptyString
  | S j =>
      match String.get j path with
      | None => EmptyString
      | Some c =>
          if IsPathSeparator c then EmptyString
          else if Ascii.eqb c "."%char then Str.drop j path
          else ExtLoop j path
      end
  end.

(** [filepath.Ext]: the suffix of the last path element that starts at its
    last dot; empty when that element has no dot. *)
Definition Ext (path : string) : string := ExtLoop (String.length path) path.

(** [shouldExcludeDir]. *)
Definition shouldExcludeDir (relPath : string) (excludeMap : gmap string bool) : bool :=
  if mapIsEmpty excludeMap then false
  else
    let parts := Str.Split relPath Separator in
    if existsb (fun part => mapGet excludeMap part) parts then true
    else mapGet excludeMap relPath.

(** [shouldIncludeFile]. *)
Definition shouldIncludeFile (filePath : string) (includeMap : gmap string bool) : bool :=
  if mapIsEmpty includeMap then true
  else
    let ext := Ext filePath in
    mapGet includeMap ext.

(** [ensureGitExcluded]: the loop returns the list unchanged at the first
    [".git"]; otherwise [".git"] is appended. *)
Fixpoint hasGit (excludeDirs : list string) : bool :=
  match excludeDirs with
  | [] => false
  | dir :: rest => if String.eqb dir ".git" then true else hasGit rest
  end.

Definition ensureGitExcluded (excludeDirs : list string) : list string :=
  if hasGit excludeDirs then excludeDirs else excludeDirs ++ [".git"].

(** ** Flags and configuration *)

(** A model of [strings.TrimSpace] for ASCII input: the six ASCII white-space
    bytes are removed at both ends.  (On other input Go also removes Unicode
    white space; [parseCommaSeparated] below takes the trimming function as a
    parameter.) *)
Fixpoint trimLeft (s : string) : string :=
  match s with
  | EmptyString => EmptyString
  | String c rest => if Ascii.is_space c then trimLeft rest else s
  end.

Definition TrimSpaceASCII (s : string) : string :=
  String.rev (trimLeft (String.rev (trimLeft s))).

Section Flags.
Variable TrimSpace : string -> string.

(** [parseCommaSeparated]: the loop appends every non-empty trimmed part. *)
Definition parseCommaSeparated (input : string) : list string :=
  if String.eqb input "" then []
  else
    let parts := Str.Split input ","%char in
    foldl (fun result part =>
             let trimmed := TrimSpace part in
             if negb (String.eqb trimmed "") then result ++ [trimmed]
             else result)
          [] parts.
End Flags.

(** [slog] levels. *)
Inductive Level := LevelDebug | LevelInfo | LevelWarn | LevelError.

Definition levelNum (l : Level) : nat :=
  match l with LevelDebug => 0 | LevelInfo => 1 | LevelWarn => 2 | LevelError => 3 end.

(** The logger is a text handler with a minimum level. *)
Record Logger := { handlerLevel : Level }.

Record Config := {
  inputPath : string;
  outputPath : string;
  excludeDirs : list string;
  includeExts : list string;
  excludeMap : gmap string bool;
  includeMap : gmap string bool;
  logger : Logger
}.

(** ** Errors and log records *)

(** Error numbers of the operating system. *)
Inductive syserr := EACCES | ENOENT | EISDIR | EIO | ENOSPC | ENOTDIR.

(** Go [error] values that occur in the program. *)
Inductive error :=
| SkipDir                                   (* filepath.SkipDir *)
| SkipAll                                   (* filepath.SkipAll *)
| ErrTooLong                                (* bufio.ErrTooLong *)
| ErrorString (msg : string)                (* errors.New *)
| PathError (op path : string) (e : syserr) (* fs.PathError *)
| Errorf (prefix : string) (cause : error). (* fmt.Errorf("...: %w", err) *)

Definition isSkipDir (e : error) : bool :=
  match e with SkipDir => true | _ => false end.

Definition isSkipAll (e : error) : bool :=
  match e with SkipAll => true | _ => false end.

Inductive Value :=
| VString (s : string)
| VStrings (l : list string)
| VInt (n : nat)
| VError (e : error).

Record LogRecord := {
  level : Level;
  msg : string;
  attrs : list (string * Value)
}.

(** ** The output file and its buffered writer *)

(** The file created by [os.Create]: its bytes on disk, the number of bytes
    the device accepts before writes fail ([None]: no limit) and the error
    of [Close], if any. *)
Record OutFile := {
  name : string;
  data : string;
  capacity : option nat;
  closeErr : option syserr
}.

(** [os.File.Write]: all of [p] is written, or as much as fits and an
    error is returned. *)
Definition fileWrite (f : OutFile) (p : string) : OutFile * nat * option error :=
  let full :=
    ({| name := name f; data := data f +:+ p;
        capacity := capacity f; closeErr := closeErr f |},
     String.length p, None) in
  match capacity f with
  | None => full
  | Some cap =>
      let room := cap - String.length (data f) in
      if String.length p <=? room then full
      else ({| name := name f;
               data := data f +:+ String.substring 0 room p;
               capacity := capacity f; closeErr := closeErr f |},
            room, Some (PathError "write" (name f) ENOSPC))
  end.

(** [bufio.Writer]: the file, the buffered bytes and the sticky error. *)
Record Writer := {
  wr : OutFile;
  buf : string;
  werr : option error
}.

Definition defaultBufSize : nat := 4096.

Definition NewWriter (f : OutFile) : Writer :=
  {| wr := f; buf := ""; werr := None |}.

Definition Available (b : Writer) : nat := defaultBufSize - String.length (buf b).
Definition Buffered (b : Writer) : nat := String.length (buf b).

(** [bufio.Writer.Flush]. *)
Definition Flush (b : Writer) : Writer * option error :=
  match werr b with
  | Some e => (b, Some e)
  | None =>
      if Nat.eqb (Buffered b) 0 then (b, None)
      else
        let '(f, n, err) := fileWrite (wr b) (buf b) in
        match err with
        | Some e => ({| wr := f; buf := Str.drop n (buf b); werr := Some e |}, Some e)
        | None => ({| wr := f; buf := ""; werr := None |}, None)
        end
  end.

(** The loop of [bufio.Writer.Write]:
    [for len(p) > b.Available() && b.err == nil]; a large write on an empty
    buffer goes to the file directly, otherwise the buffer is filled and
    flushed.  It returns the writer and the part of [p] not yet consumed. *)
Fixpoint writeLoop (fuel : nat) (b : Writer) (p : string) : Writer * string :=
  match fuel with
  | 0 => (b, p)
  | S fuel' =>
      match werr b with
      | Some _ => (b, p)
      | None =>
          if Available b <? String.length p then
            if Nat.eqb (Buffered b) 0 then
              let '(f, n, err) := fileWrite (wr b) p in
              writeLoop fuel' {| wr := f; buf := buf b; werr := err |} (Str.drop n p)
            else
              let n := Available b in
              let filled :=
                {| wr := wr b; buf := buf b +:+ String.substring 0 n p;
                   werr := werr b |} in
              writeLoop fuel' (fst (Flush filled)) (Str.drop n p)
          else (b, p)
      end
  end.

(** The loop of [Write] runs at most twice (see [writeLoop_exits]). *)
Definition writeFuel : nat := 2.

(** [bufio.Writer.Write]. *)
Definition Write (b : Writer) (p : string) : Writer * option error :=
  let '(b1, rest) := writeLoop writeFuel b p in
  match werr b1 with
  | Some e => (b1, Some e)
  | None => ({| wr := wr b1; buf := buf b1 +:+ rest; werr := None |}, None)
  end.

(** ** The scanner *)

Definition MaxScanTokenSize : nat := 64 * 1024.
Global Opaque MaxScanTokenSize.

Definition LF : ascii := "010"%char.
Definition CR : ascii := "013"%char.

(** [dropCR]: a trailing carriage return is removed. *)
Fixpoint dropCR (data : string) : string :=
  match data with
  | EmptyString => EmptyString
  | String c EmptyString => if Ascii.eqb c CR then EmptyString else data
  | String c rest => String c (dropCR rest)
  end.

(** The raw lines of [bufio.ScanLines]: the pieces between newlines; what
    follows the last newline is a line only when it is not empty. *)
Definition rawLines (content : string) : list string :=
  let pieces := Str.Split content LF in
  match List.last pieces EmptyString with
  | EmptyString => removelast pieces
  | _ => pieces
  end.

(** The tokens a [bufio.Scanner] with the default buffer delivers: the
    lines, each without its terminator, up to the first line that does not
    fit the buffer ([MaxScanTokenSize] bytes), which ends the scan with
    [ErrTooLong]. *)
Fixpoint scanTokens (raw : list string) : list string * option error :=
  match raw with
  | [] => ([], None)
  | line :: rest =>
      if MaxScanTokenSize <=? String.length line then ([], Some ErrTooLong)
      else let '(tokens, err) := scanTokens rest in (dropCR line :: tokens, err)
  end.

(** ** The world of one run *)

(** What [os.Open], [Stat], the reads and [Close] yield for an input file:
    reading delivers [content] and then ends, at the end of the file or with
    [readErr]. *)
Record FileData := {
  openErr : option syserr;
  statErr : option syserr;
  content : string;
  readErr : option syserr;
  fcloseErr : option syserr
}.

(** A node of the directory tree as [Lstat] and [ReadDir] show it: a
    non-directory, or a directory with its entries (in the order of the
    operating system) and the error of listing it, if any. *)
#[warnings="-register-all"]
Inductive Node :=
| File
| Dir (entries : list (string * Node)) (listErr : option syserr).

(** The answers of the operating system during one run: [filepath.Abs] of
    the input path, [os.Create] of the output path, the behaviour of the
    output device, [Lstat] of the absolute input path with the tree below
    it, and the content of every file by path. *)
Record World := {
  wAbs : syserr + string;
  wCreateErr : option syserr;
  wCapacity : option nat;
  wCloseErr : option syserr;
  wRoot : syserr + Node;
  wOpen : string -> FileData
}.

(** ** Logging *)

Definition enabled (lg : Logger) (lvl : Level) : bool :=
  Nat.leb (levelNum (handlerLevel lg)) (levelNum lvl).

(** A record reaches the log when its level is enabled. *)
Definition logTo (lg : Logger) (lvl : Level) (m : string)
    (a : list (string * Value)) (l : list LogRecord) : list LogRecord :=
  if enabled lg lvl then l ++ [{| level := lvl; msg := m; attrs := a |}] else l.

(** ** Program state *)

(** The state the walk threads: the buffered writer, the log and the
    counter [fileCount] of [processDirectory]. *)
Record State := {
  writer : Writer;
  logs : list LogRecord;
  fileCount : nat
}.

Definition setWriter (st : State) (b : Writer) : State :=
  {| writer := b; logs := logs st; fileCount := fileCount st |}.

Definition logSt (lg : Logger) (lvl : Level) (m : string)
    (a : list (string * Value)) (st : State) : State :=
  {| writer := writer st; logs := logTo lg lvl m a (logs st);
     fileCount := fileCount st |}.

(** [fmt.Fprint(writer, s)] and [fmt.Fprintf(writer, ...)] once the text is
    formatted: one call of [Write]. *)
Definition Fprint (s : string) (st : State) : State * option error :=
  let '(b, err) := Write (writer st) s in (setWriter st b, err).

Definition nl : string := String LF EmptyString.
Definition fence : string := "```".

(** ** OutputAssembler: the run header *)

(** The slice [headers] of [writeHeader]. *)
Definition headerLines (absPath : string) (config : Config) : list string :=
  [ "# Contextify Output" +:+ nl;
    "# Generated from: " +:+ absPath +:+ nl;
    "# Excluded directories: " +:+ Str.Join (excludeDirs config) ", " +:+ nl ]
  ++ (if Nat.ltb 0 (length (includeExts config))
      then ["# Included extensions: " +:+ Str.Join (includeExts config) ", " +:+ nl]
      else [])
  ++ [nl].

(** The loop of [writeHeader]: the first failing write ends it. *)
Fixpoint writeAll (lines : list string) (st : State) : State * option error :=
  match lines with
  | [] => (st, None)
  | line :: rest =>
      let '(st1, err) := Fprint line st in
      match err with
      | Some e => (st1, Some e)
      | None => writeAll rest st1
      end
  end.

Definition writeHeader (absPath : string) (config : Config) (st : State)
    : State * option error :=
  writeAll (headerLines absPath config) st.

(** ** FileTranscriber *)

(** The loop [for scanner.Scan()] of [processFile] over the tokens of the
    scanner. *)
Fixpoint copyLines (tokens : list string) (lineCount : nat) (st : State)
    : State * nat * option error :=
  match tokens with
  | [] => (st, lineCount, None)
  | line :: rest =>
      let '(st1, err) := Fprint (line +:+ nl) st in
      match err with
      | Some e => (st1, lineCount, Some (Errorf "failed to write file content: " e))
      | None => copyLines rest (S lineCount) st1
      end
  end.

(** [scanner.Err()] after the loop: the scanner's own error, else the error
    of the read that ended the input. *)
Definition scannerErr (fullPath : string) (f : FileData) (tooLong : option error)
    : option error :=
  match tooLong with
  | Some e => Some e
  | None => option_map (PathError "read" fullPath) (readErr f)
  end.

(** [processFile] after the file is open, up to its [return]. *)
Definition processFileBody (lg : Logger) (f : FileData) (fullPath relPath : string)
    (st : State) : State * option error :=
  let st :=
    match statErr f with
    | Some e =>
        logSt lg LevelWarn "Could not get file stats"
          [("path", VString relPath); ("error", VError (PathError "stat" fullPath e))] st
    | None =>
        logSt lg LevelDebug "File info"
          [("path", VString relPath); ("size", VInt (String.length (content f)))] st
    end in
  let '(st, err) := Fprint ("## File: " +:+ relPath +:+ nl) st in
  match err with
  | Some e => (st, Some (Errorf "failed to write file header: " e))
  | None =>
  let '(st, err) := Fprint (fence +:+ nl) st in
  match err with
  | Some e => (st, Some (Errorf "failed to write code block start: " e))
  | None =>
  let '(tokens, tooLong) := scanTokens (rawLines (content f)) in
  let '(st, lineCount, err) := copyLines tokens 0 st in
  match err with
  | Some e => (st, Some e)
  | None =>
  match scannerErr fullPath f tooLong with
  | Some e => (st, Some (Errorf ("error reading file " +:+ fullPath +:+ ": ") e))
  | None =>
  let st :=
    logSt lg LevelDebug "File processed"
      [("path", VString relPath); ("lines", VInt lineCount)] st in
  let '(st, err) := Fprint (fence +:+ nl +:+ nl) st in
  match err with
  | Some e => (st, Some (Errorf "failed to write code block end: " e))
  | None => (st, None)
  end end end end end.

(** [processFile]: the deferred [Close] of the input file runs on every
    return that follows a successful [Open]. *)
Definition processFile (w : World) (lg : Logger) (fullPath relPath : string)
    (st : State) : State * option error :=
  let f := wOpen w fullPath in
  match openErr f with
  | Some e =>
      (st, Some (Errorf ("failed to open file " +:+ fullPath +:+ ": ")
                        (PathError "open" fullPath e)))
  | None =>
      let '(st1, ret) := processFileBody lg f fullPath relPath st in
      let st2 :=
        match fcloseErr f with
        | Some e =>
            logSt lg LevelWarn "Failed to close input file"
              [("path", VString relPath); ("error", VError (PathError "close" fullPath e))] st1
        | None => st1
        end in
      (st2, ret)
  end.

(** ** Paths *)

(** [filepath.Join(path, name)] for a clean directory path and the name of
    one of its entries. *)
Definition Join (path name : string) : string :=
  if String.eqb path "/" then path +:+ name else path +:+ "/" +:+ name.

(** [filepath.Rel(basepath, targpath)] for a clean [basepath] and a
    [targpath] that is [basepath] or lies below it, the only arguments the
    walk produces; other arguments are not modelled and give the error. *)
Definition Rel (basepath targpath : string) : error + string :=
  if String.eqb targpath basepath then inr "."
  else
    let pre := if String.eqb basepath "/" then basepath else basepath +:+ "/" in
    if Str.HasPrefix targpath pre then inr (Str.drop (String.length pre) targpath)
    else inl (ErrorString ("Rel: can't make " +:+ targpath +:+ " relative to " +:+ basepath)).

(** ** [filepath.WalkDir] *)

(** [fs.DirEntry]: the callback only asks [IsDir]. *)
Record DirEntry := { IsDir : bool }.

Definition entryOf (n : Node) : DirEntry :=
  match n with File => {| IsDir := false |} | Dir _ _ => {| IsDir := true |} end.

(** [os.ReadDir] returns the entries sorted by file name (bytewise). *)
Fixpoint insertByName {A : Type} (x : string * A) (l : list (string * A))
    : list (string * A) :=
  match l with
  | [] => [x]
  | y :: rest =>
      if String.leb (fst x) (fst y) then x :: l else y :: insertByName x rest
  end.

Definition sortByName {A : Type} (l : list (string * A)) : list (string * A) :=
  fold_right insertByName [] l.

Definition listError (path : string) (e : syserr) : error := PathError "open" path e.

Section WalkDir.
Context {S : Type}.

(** [fs.WalkDirFunc], in state-passing style. *)
Definition WalkDirFunc : Type :=
  string -> DirEntry -> option error -> S -> S * option error.

Variable walkDirFn : WalkDirFunc.

(** The loop [for _, d1 := range dirs] of [walkDir]; every entry comes
    with the walk of its subtree.  [SkipDir] from an entry leaves the
    loop, another error is returned. *)
Fixpoint walkEntries (dirs : list (string * (S -> S * option error))) (s : S)
    : S * option error :=
  match dirs with
  | [] => (s, None)
  | (_, walk1) :: rest =>
      let '(s1, err) := walk1 s in
      match err with
      | None => walkEntries rest s1
      | Some e => if isSkipDir e then (s1, None) else (s1, Some e)
      end
  end.

(** What [walkDir] returns when the callback returned [err] on a
    directory: [SkipDir] means the directory was skipped successfully. *)
Definition afterSkip (e : error) : option error :=
  if isSkipDir e then None else Some e.

(** [walkDir]. *)
Fixpoint walkDir (path : string) (n : Node) (s : S) {struct n} : S * option error :=
  let d := entryOf n in
  let '(s1, err) := walkDirFn path d None s in
  match n with
  | File => (s1, err)
  | Dir entries listErr =>
      match err with
      | Some e => (s1, afterSkip e)
      | None =>
          let dirs :=
            sortByName
              (map (fun '(name1, child) => (name1, walkDir (Join path name1) child))
                   entries) in
          match listErr with
          | Some le =>
              (* second call, to report the ReadDir error *)
              let '(s2, err2) := walkDirFn path d (Some (listError path le)) s1 in
              match err2 with
              | Some e => (s2, afterSkip e)
              | None => walkEntries dirs s2
              end
          | None => walkEntries dirs s1
          end
      end
  end.

(** [filepath.WalkDir]: when [Lstat] of the root fails the callback is
    called once with that error. *)
Definition WalkDir (root : string) (lstat : syserr + Node) (s : S) : S * option error :=
  let '(s1, err) :=
    match lstat with
    | inl e => walkDirFn root {| IsDir := false |} (Some (PathError "lstat" root e)) s
    | inr n => walkDir root n s
    end in
  match err with
  | Some e => if isSkipDir e || isSkipAll e then (s1, None) else (s1, Some e)
  | None => (s1, None)
  end.
End WalkDir.

(** A call of the callback as an observer sees it: the arguments and the
    returned error. *)
Record Call := {
  callPath : string;
  callIsDir : bool;
  callErr : option error;
  callRet : option error
}.

(** The callback [fn], recording each of its calls next to the state. *)
Definition traced {S : Type} (fn : @WalkDirFunc S) : @WalkDirFunc (S * list Call) :=
  fun path d err st =>
    let '(s1, ret) := fn path d err (fst st) in
    ((s1, snd st ++ [{| callPath := path; callIsDir := IsDir d;
                        callErr := err; callRet := ret |}]), ret).

(** ** TreeWalker and OutputAssembler: [processDirectory] *)

Definition incrFileCount (st : State) : State :=
  {| writer := writer st; logs := logs st; fileCount := S (fileCount st) |}.

(** The function literal passed to [filepath.WalkDir]. *)
Definition walkFn (w : World) (config : Config) (absPath : string)
    : @WalkDirFunc State :=
  fun path d err st =>
    let lg := logger config in
    match err with
    | Some e =>
        (logSt lg LevelWarn "Error accessing path"
           [("path", VString path); ("error", VError e)] st, Some e)
    | None =>
        (* Get relative path from the input directory *)
        match Rel absPath path with
        | inl e => (st, Some e)
        | inr relPath =>
            (* Check if we should exclude this directory *)
            if IsDir d then
              if shouldExcludeDir relPath (excludeMap config) then
                (logSt lg LevelDebug "Excluding directory"
                   [("path", VString relPath)] st, Some SkipDir)
              else (st, None)
            (* Check if we should include this file *)
            else if negb (shouldIncludeFile path (includeMap config)) then
              (logSt lg LevelDebug "Skipping file (extension not included)"
                 [("path", VString relPath)] st, None)
            else
              (* Process the file *)
              let st1 :=
                logSt lg LevelDebug "Processing file" [("path", VString relPath)] st in
              let '(st2, perr) := processFile w lg path relPath st1 in
              match perr with
              | Some e =>
                  (logSt lg LevelError "Failed to process file"
                     [("path", VString relPath); ("error", VError e)] st2, Some e)
              | None => (incrFileCount st2, None)
              end
        end
    end.

(** What a run of [processDirectory] leaves behind: the returned error, the
    log, the output file after [Close] (when it was created), and, for the
    statements about the walk, the final value of [fileCount] and the calls
    of the callback. *)
Record Outcome := {
  result : option error;
  finalLogs : list LogRecord;
  output : option OutFile;
  processed : nat;
  calls : list Call
}.

(** [processDirectory] from the header to its [return]. *)
Definition processDirectoryBody (w : World) (config : Config) (absPath : string)
    (st : State) : State * list Call * option error :=
  (* Write header *)
  let '(st1, herr) := writeHeader absPath config st in
  match herr with
  | Some e => (st1, [], Some (Errorf "failed to write header: " e))
  | None =>
      (* Walk the directory tree *)
      let '(st2, cs, err) :=
        WalkDir (traced (walkFn w config absPath)) absPath (wRoot w) (st1, []) in
      match err with
      | Some e => (st2, cs, Some e)
      | None =>
          (logSt (logger config) LevelInfo "Processing completed"
             [("filesProcessed", VInt (fileCount st2))] st2, cs, None)
      end
  end.

(** [processDirectory]: the two deferred functions run after the body, the
    flush of the writer first and the close of the output file second; both
    only log their error. *)
Definition processDirectory (w : World) (config : Config) (log0 : list LogRecord)
    : Outcome :=
  let lg := logger config in
  match wAbs w with
  | inl e =>
      {| result := Some (Errorf "failed to get absolute path: "
                           (PathError "getwd" "" e));
         finalLogs := log0; output := None; processed := 0; calls := [] |}
  | inr absPath =>
      let log1 :=
        logTo lg LevelDebug "Processing directory"
          [("absolutePath", VString absPath)] log0 in
      match wCreateErr w with
      | Some e =>
          {| result := Some (Errorf "failed to create output file: "
                               (PathError "open" (outputPath config) e));
             finalLogs := log1; output := None; processed := 0; calls := [] |}
      | None =>
          let outputFile :=
            {| name := outputPath config; data := "";
               capacity := wCapacity w; closeErr := wCloseErr w |} in
          let st0 :=
            {| writer := NewWriter outputFile; logs := log1; fileCount := 0 |} in
          let '(st, cs, ret) := processDirectoryBody w config absPath st0 in
          let '(b, flushErr) := Flush (writer st) in
          let log2 :=
            match flushErr with
            | Some e =>
                logTo lg LevelError "Failed to flush writer" [("error", VError e)] (logs st)
            | None => logs st
            end in
          let log3 :=
            match closeErr (wr b) with
            | Some e =>
                logTo lg LevelError "Failed to close output file"
                  [("error", VError (PathError "close" (name (wr b)) e))] log2
            | None => log2
            end in
          {| result := ret; finalLogs := log3; output := Some (wr b);
             processed := fileCount st; calls := cs |}
      end
  end.

(** ** [main] *)

Record Flags := {
  flagInput : string;
  flagOutput : string;
  flagExclude : string;
  flagExtensions : string;
  flagVerbose : bool
}.

Definition defaultFlags : Flags :=
  {| flagInput := "."; flagOutput := "context.txt"; flagExclude := "";
     flagExtensions := ""; flagVerbose := false |}.

Section Main.
Variable TrimSpace : string -> string.

(** The configuration [main] builds from the flags. *)
Definition mkConfig (flags : Flags) : Config :=
  let logLevel := if flagVerbose flags then LevelDebug else LevelInfo in
  (* Always exclude .git directory *)
  let excludeList := parseCommaSeparated TrimSpace (flagExclude flags) in
  let excludeList := ensureGitExcluded excludeList in
  let includeList := parseCommaSeparated TrimSpace (flagExtensions flags) in
  {| inputPath := flagInput flags;
     outputPath := flagOutput flags;
     excludeDirs := excludeList;
     includeExts := includeList;
     excludeMap := createLookupMap excludeList;
     includeMap := createLookupMap includeList;
     logger := {| handlerLevel := logLevel |} |}.

(** [main]: the exit status with the outcome of [processDirectory]. *)
Definition main (w : World) (flags : Flags) : nat * Outcome :=
  let config := mkConfig flags in
  let lg := logger config in
  let log0 :=
    logTo lg LevelInfo "Starting contextify"
      [("input", VString (inputPath config));
       ("output", VString (outputPath config));
       ("excludeDirs", VStrings (excludeDirs config));
       ("includeExts", VStrings (includeExts config))] [] in
  let o := processDirectory w config log0 in
  match result o with
  | Some e =>
      (1, {| result := result o;
             finalLogs := logTo lg LevelError "Failed to process directory"
                            [("error", VError e)] (finalLogs o);
             output := output o; processed := processed o; calls := calls o |})
  | None =>
      (0, {| result := result o;
             finalLogs := logTo lg LevelInfo "Successfully created context file"
                            [("output", VString (outputPath config))] (finalLogs o);
             output := output o; processed := processed o; calls := calls o |})
  end.
End Main.

(** ** Notions used to state the properties *)

(** The last element of a path: what follows its last separator. *)
Definition lastElement (path : string) : string :=
  List.last (Str.Split path Separator) EmptyString.

(** [strings.Contains], as a proposition. *)
Definition Contains (s sub : string) : Prop :=
  exists before after, s = before +:+ sub +:+ after.

(** The bytes a writer has accepted: those on disk and those buffered. *)
Definition stream (b : Writer) : string := data (wr b) +:+ buf b.

(** The state in which the loop of [Write] stops. *)
Definition stops (b : Writer) (p : string) : Prop :=
  werr b <> None \/ String.length p <= Available b.

(** The bytes the output has accepted in a state. *)
Definition accepted (st : State) : string := stream (writer st).

(** Every line followed by one newline. *)
Fixpoint joinLines (lines : list string) : string :=
  match lines with
  | [] => EmptyString
  | line :: rest => line +:+ nl +:+ joinLines rest
  end.

(** The lines of a file as the scanner delivers them. *)
Definition fileLines (content : string) : list string :=
  map dropCR (rawLines content).

(** The section of the output that transcribes one file. *)
Definition fileSection (relPath content : string) : string :=
  "## File: " +:+ relPath +:+ nl +:+ fence +:+ nl
  +:+ joinLines (fileLines content) +:+ fence +:+ nl +:+ nl.

(** A text file written line by line: every line with its terminator, a
    newline alone or after a carriage return, and possibly a last line
    without terminator. *)
Definition terminator (crlf : bool) : string :=
  if crlf then String CR nl else nl.

Fixpoint textOf (lines : list (string * bool)) (unterminated : string) : string :=
  match lines with
  | [] => unterminated
  | (line, crlf) :: rest => line +:+ terminator crlf +:+ textOf rest unterminated
  end.

(** A line of such a text: no newline inside and no carriage return at its
    end. *)
Definition plainLine (line : string) : Prop :=
  Str.contains LF line = false /\ dropCR line = line.

(** A file that can be transcribed: it opens, every line fits the buffer of
    the scanner and no read fails. *)
Definition readable (f : FileData) : Prop :=
  openErr f = None /\ readErr f = None
  /\ Forall (fun line => String.length line < MaxScanTokenSize) (rawLines (content f)).

(** An output device that never fails and a writer without error. *)
Definition unlimited (st : State) : Prop :=
  capacity (wr (writer st)) = None /\ werr (writer st) = None.

(** The bytes of a line of [textOf] before its newline. *)
Definition rawOf (l : string * bool) : string :=
  if snd l then fst l +:+ String CR EmptyString else fst l.

(** A file whose content is [c] and whose operations all succeed. *)
Definition plainFile (c : string) : FileData :=
  {| openErr := None; statErr := None; content := c; readErr := None;
     fcloseErr := None |}.

(** The state in which the walk starts on a device without limit. *)
Definition freshState (out : string) : State :=
  {| writer := NewWriter {| name := out; data := ""; capacity := None;
                            closeErr := None |};
     logs := []; fileCount := 0 |}.

(** ** A concrete run

    The tree [root/{a.go, b.txt, sub/c.go, node_modules/ignored.go}] of the
    specification, listed by the operating system in some other order, run
    with [--exclude node_modules --extensions .go].  [a.go] has a line
    ended by a carriage return and a newline and ends without newline. *)
Module Scenario.

Definition tree : Node :=
  Dir [("sub", Dir [("c.go", File)] None);
       ("b.txt", File);
       ("node_modules", Dir [("ignored.go", File)] None);
       ("a.go", File)] None.

Definition files (path : string) : FileData :=
  if String.eqb path "/root/a.go"
  then plainFile ("package a" +:+ String CR nl +:+ "func A()")
  else if String.eqb path "/root/sub/c.go"
  then plainFile ("package c" +:+ nl)
  else plainFile ("text" +:+ nl).

Definition world : World :=
  {| wAbs := inr "/root"; wCreateErr := None; wCapacity := None;
     wCloseErr := None; wRoot := inr tree; wOpen := files |}.

Definition flags : Flags :=
  {| flagInput := "."; flagOutput := "context.txt";
     flagExclude := "node_modules"; flagExtensions := ".go";
     flagVerbose := false |}.

Definition config : Config := mkConfig TrimSpaceASCII flags.

(** The same run asking for [.md] files: there is none. *)
Definition configMd : Config :=
  mkConfig TrimSpaceASCII
    {| flagInput := "."; flagOutput := "context.txt";
       flagExclude := "node_modules"; flagExtensions := ".md";
       flagVerbose := false |}.

(** The same tree as another listing order shows it. *)
Definition treeListedOtherwise : Node :=
  Dir [("a.go", File);
       ("node_modules", Dir [("ignored.go", File)] None);
       ("sub", Dir [("c.go", File)] None);
       ("b.txt", File)] None.

(** The world in which [sub/c.go] cannot be opened. *)
Definition lockedWorld : World :=
  {| wAbs := inr "/root"; wCreateErr := None; wCapacity := None;
     wCloseErr := None; wRoot := inr tree;
     wOpen := fun path =>
       if String.eqb path "/root/sub/c.go"
       then {| openErr := Some EACCES; statErr := None; content := "";
               readErr := None; fcloseErr := None |}
       else files path |}.

(** The world in which the device of the output file is full. *)
Definition fullDiskWorld : World :=
  {| wAbs := inr "/root"; wCreateErr := None; wCapacity := Some 0;
     wCloseErr := None; wRoot := inr tree; wOpen := files |}.


(** The world whose input directory is empty. *)
Definition emptyWorld : World :=
  {| wAbs := inr "/root"; wCreateErr := None; wCapacity := None;
     wCloseErr := None; wRoot := inr (Dir [] None); wOpen := files |}.

(** A line of [n] bytes. *)
Definition longLine (n : nat) : string :=
  string_of_list_ascii (repeat "a"%char n).

End Scenario.

(** ** The walk as a sequence of calls *)

(** Induction on a tree with the hypothesis for every entry of a
    directory. *)
Section NodeInduction.
Variable P : Node -> Prop.
Hypothesis HFile : P File.
Hypothesis HDir :
  forall entries listErr,
    Forall (fun e => P (snd e)) entries -> P (Dir entries listErr).

Fixpoint Node_induction (n : Node) : P n :=
  match n with
  | File => HFile
  | Dir entries listErr =>
      HDir entries listErr
        ((fix go (l : list (string * Node)) : Forall (fun e => P (snd e)) l :=
            match l with
            | [] => List.Forall_nil _
            | e :: rest => List.Forall_cons _ e rest (Node_induction (snd e)) (go rest)
            end) entries)
  end.
End NodeInduction.

(** The arguments of one call of the callback: the path, the kind of the
    entry, and for the report of a failed system call its name and error
    number. *)
Record Step := {
  stepPath : string;
  stepIsDir : bool;
  stepErr : option (string * syserr)
}.

(** The error argument of the call. *)
Definition errOf (step : Step) : option error :=
  option_map (fun oe => PathError (fst oe) (stepPath step) (snd oe)) (stepErr step).

(** The call of a step that returned [ret]. *)
Definition callOf (step : Step) (ret : option error) : Call :=
  {| callPath := stepPath step; callIsDir := stepIsDir step;
     callErr := errOf step; callRet := ret |}.

(** A returned error that ends the walk. *)
Definition isFatal (ret : option error) : bool :=
  match ret with Some e => negb (isSkipDir e) | None => false end.

(** Does the callback's answer ask to skip? *)
Definition isSkip (ret : option error) : bool :=
  match ret with Some e => isSkipDir e | None => false end.

Section Plan.
Context {S : Type}.
Variable walkDirFn : @WalkDirFunc S.

(** [prune path]: the callback skips the directory [path]. *)
Variable prune : string -> bool.

(** The calls the walk of a tree makes when no call fails, in order: every
    node before its entries, the entries sorted by name, nothing below a
    pruned directory, and a second call on a directory that cannot be
    listed. *)
Fixpoint plan (path : string) (n : Node) {struct n} : list Step :=
  match n with
  | File => [{| stepPath := path; stepIsDir := false; stepErr := None |}]
  | Dir entries listErr =>
      {| stepPath := path; stepIsDir := true; stepErr := None |}
      :: (if prune path then []
          else match listErr with
               | Some le =>
                   [{| stepPath := path; stepIsDir := true;
                       stepErr := Some ("open", le) |}]
               | None =>
                   concat
                     (map snd
                        (sortByName
                           (map (fun '(name1, child) =>
                                   (name1, plan (Join path name1) child))
                                entries)))
               end)
  end.

Definition topPlan (root : string) (lstat : syserr + Node) : list Step :=
  match lstat with
  | inl e => [{| stepPath := root; stepIsDir := false;
                 stepErr := Some ("lstat", e) |}]
  | inr n => plan root n
  end.

(** Making the calls of a list in order, up to the first that returns an
    error other than [SkipDir]. *)
Fixpoint runSteps (steps : list Step) (s : S) : S * option error :=
  match steps with
  | [] => (s, None)
  | step :: rest =>
      let '(s1, ret) :=
        walkDirFn (stepPath step) {| IsDir := stepIsDir step |} (errOf step) s in
      match ret with
      | None => runSteps rest s1
      | Some e => if isSkipDir e then runSteps rest s1 else (s1, Some e)
      end
  end.
End Plan.

(** The run of a list of steps as a relation between the state before, the
    calls made, the state after and the returned error: a call that returns
    no error or [SkipDir] is followed by the next step, another error ends
    the run. *)
Inductive Run {S : Type} (fn : @WalkDirFunc S)
    : list Step -> S -> list Call -> S -> option error -> Prop :=
| RunDone (s : S) : Run fn [] s [] s None
| RunNext (step : Step) (rest : list Step) (s s1 s' : S) (ret r : option error)
    (cs : list Call) :
    fn (stepPath step) {| IsDir := stepIsDir step |} (errOf step) s = (s1, ret) ->
    isFatal ret = false ->
    Run fn rest s1 cs s' r ->
    Run fn (step :: rest) s (callOf step ret :: cs) s' r
| RunStop (step : Step) (rest : list Step) (s s1 : S) (e : error) :
    fn (stepPath step) {| IsDir := stepIsDir step |} (errOf step) s = (s1, Some e) ->
    isSkipDir e = false ->
    Run fn (step :: rest) s [callOf step (Some e)] s1 (Some e).

(** The directories the callback of [processDirectory] skips. *)
Definition prunePath (config : Config) (absPath path : string) : bool :=
  match Rel absPath path with
  | inr relPath => shouldExcludeDir relPath (excludeMap config)
  | inl _ => false
  end.

(** The calls [processDirectory] makes when none fails. *)
Definition walkPlan (w : World) (config : Config) (absPath : string) : list Step :=
  topPlan (prunePath config absPath) absPath (wRoot w).

Definition isNone {A : Type} (o : option A) : bool :=
  match o with None => true | Some _ => false end.

(** A call that transcribed a file: on a non-directory with the wanted
    extension, without error passed in or returned. *)
Definition transcribes (config : Config) (c : Call) : bool :=
  negb (callIsDir c) && isNone (callErr c) && isNone (callRet c)
  && shouldIncludeFile (callPath c) (includeMap config).

(** The section a transcribing call wrote. *)
Definition sectionOf (w : World) (absPath : string) (c : Call) : string :=
  match Rel absPath (callPath c) with
  | inr relPath => fileSection relPath (content (wOpen w (callPath c)))
  | inl _ => EmptyString
  end.

Definition sectionsOf (w : World) (config : Config) (absPath : string)
    (cs : list Call) : string :=
  String.concat "" (map (sectionOf w absPath) (List.filter (transcribes config) cs)).

(** The step a call was made for. *)
Definition stepOfCall (c : Call) : Step :=
  {| stepPath := callPath c; stepIsDir := callIsDir c;
     stepErr := match callErr c with
                | Some (PathError op _ se) => Some (op, se)
                | _ => None
                end |}.

(** The state of [processDirectory] when the header is written: the output
    file was created empty and nothing is buffered. *)
Definition initState (w : World) (config : Config) (log0 : list LogRecord)
    (absPath : string) : State :=
  {| writer :=
       NewWriter {| name := outputPath config; data := "";
                    capacity := wCapacity w; closeErr := wCloseErr w |};
     logs := logTo (logger config) LevelDebug "Processing directory"
               [("absolutePath", VString absPath)] log0;
     fileCount := 0 |}.

(** The records the two deferred functions of [processDirectory] add to the
    log when the function returns with the writer [b]. *)
Definition flushRecord (e : error) : LogRecord :=
  {| level := LevelError; msg := "Failed to flush writer";
     attrs := [("error", VError e)] |}.

Definition closeRecord (f : OutFile) (e : syserr) : LogRecord :=
  {| level := LevelError; msg := "Failed to close output file";
     attrs := [("error", VError (PathError "close" (name f) e))] |}.

Definition deferredRecords (b : Writer) : list LogRecord :=
  match snd (Flush b) with Some e => [flushRecord e] | None => [] end
  ++ match closeErr (wr (fst (Flush b))) with
     | Some e => [closeRecord (wr (fst (Flush b))) e]
     | None => []
     end.

(** A step at which the walk fails: the report of a directory that cannot
    be listed or of a root that cannot be examined, or a file with a wanted
    extension that cannot be opened or read. *)
Definition failingStep (w : World) (config : Config) (step : Step) : Prop :=
  stepErr step <> None
  \/ (stepIsDir step = false
      /\ shouldIncludeFile (stepPath step) (includeMap config) = true
      /\ ~ readable (wOpen w (stepPath step))).

(** ** Positions in the tree *)

(** A node is located by the names on the way from the root.  Its path
    relative to the root is ["."] for the root and the names joined by the
    separator below it; its full path is the root path joined with the
    names one by one. *)
Definition relOf (pos : list string) : string :=
  match pos with
  | [] => "."
  | _ => Str.Join pos "/"
  end.

Definition pathOf (absPath : string) (pos : list string) : string :=
  fold_left Join pos absPath.

(** The names after the first, each behind a separator. *)
Fixpoint joinTail (names : list string) : string :=
  match names with
  | [] => ""
  | name1 :: rest => "/" +:+ name1 +:+ joinTail rest
  end.

(** The prefix [filepath.Rel] removes from the paths below the root. *)
Definition rootPrefix (absPath : string) : string :=
  if String.eqb absPath "/" then absPath else absPath +:+ "/".

(** The directory at [pos] is excluded. *)
Definition excludedDir (config : Config) (pos : list string) : bool :=
  shouldExcludeDir (relOf pos) (excludeMap config).

(** Some directory on the way from [pre] down to [pre ++ rest], the node
    itself apart, is excluded. *)
Fixpoint underExcludedFrom (config : Config) (pre rest : list string) : bool :=
  match rest with
  | [] => false
  | name1 :: rest' =>
      excludedDir config pre || underExcludedFrom config (pre ++ [name1]) rest'
  end.

(** The node at [pos] lies under an excluded directory. *)
Definition underExcluded (config : Config) (pos : list string) : bool :=
  underExcludedFrom config [] pos.

(** The positions of the nodes of a tree, in pre-order with the entries of
    every directory sorted by name. *)
Fixpoint nodesOf (n : Node) : list (list string) :=
  match n with
  | File => [[]]
  | Dir entries _ =>
      [] :: concat
              (map snd
                 (sortByName
                    (map (fun '(name1, child) =>
                            (name1, map (cons name1) (nodesOf child)))
                         entries)))
  end.

(** The positions of the files of a tree, in the same order. *)
Fixpoint filesOf (n : Node) : list (list string) :=
  match n with
  | File => [[]]
  | Dir entries _ =>
      concat
        (map snd
           (sortByName
              (map (fun '(name1, child) =>
                      (name1, map (cons name1) (filesOf child)))
                   entries)))
  end.

(** No entry of the tree has the empty name. *)
Fixpoint nonEmptyNames (n : Node) : bool :=
  match n with
  | File => true
  | Dir entries _ =>
      forallb (fun e => negb (String.eqb (fst e) "") && nonEmptyNames (snd e))
              entries
  end.

(** The plan of the walk in terms of positions: the node, whether it is a
    directory, and the error of listing it when that is reported. *)
Fixpoint planPos (config : Config) (pos : list string) (n : Node) {struct n}
    : list (list string * bool * option syserr) :=
  match n with
  | File => [(pos, false, None)]
  | Dir entries listErr =>
      (pos, true, None)
      :: (if excludedDir config pos then []
          else match listErr with
               | Some le => [(pos, true, Some le)]
               | None =>
                   concat
                     (map snd
                        (sortByName
                           (map (fun '(name1, child) =>
                                   (name1, planPos config (pos ++ [name1]) child))
                                entries)))
               end)
  end.

Definition toStep (absPath : string) (x : list string * bool * option syserr) : Step :=
  {| stepPath := pathOf absPath (fst (fst x));
     stepIsDir := snd (fst x);
     stepErr := option_map (fun le => ("open", le)) (snd x) |}.

(** The files a successful run transcribes: those of the tree, in
    pre-order, that do not lie under an excluded directory and have a
    wanted extension. *)
Definition selectedFiles (config : Config) (absPath : string) (tree : Node)
    : list (list string) :=
  List.filter
    (fun pos => negb (underExcluded config pos)
                && shouldIncludeFile (pathOf absPath pos) (includeMap config))
    (filesOf tree).

(** The output file of a successful run. *)
Definition expectedOutput (w : World) (config : Config) (absPath : string)
    (tree : Node) : string :=
  String.concat "" (headerLines absPath config)
  +:+ String.concat ""
        (map (fun pos => fileSection (relOf pos)
                           (content (wOpen w (pathOf absPath pos))))
             (selectedFiles config absPath tree)).

(** The names of a list are pairwise different. *)
Fixpoint distinct (names : list string) : bool :=
  match names with
  | [] => true
  | name1 :: rest => negb (existsb (String.eqb name1) rest) && distinct rest
  end.

(** The tree is one of a file system: in every directory the names are
    different from each other, not empty and without separator. *)
Fixpoint wellNamed (n : Node) : bool :=
  match n with
  | File => true
  | Dir entries _ =>
      distinct (map fst entries)
      && forallb (fun e => negb (String.eqb (fst e) "")
                           && negb (Str.contains Separator (fst e))
                           && wellNamed (snd e))
                 entries
  end.

(** ** Trees that differ in the order of their listings *)

(** [permuted t1 t2]: [t2] is the tree [t1] with the entries of its
    directories listed in another order. *)
Fixpoint permuted (t1 t2 : Node) {struct t1} : Prop :=
  match t1, t2 with
  | File, File => True
  | Dir entries1 listErr1, Dir entries2 listErr2 =>
      listErr1 = listErr2
      /\ exists entries2',
           Permutation entries2' entries2
           /\ (fix go (l1 l2 : list (string * Node)) {struct l1} : Prop :=
                 match l1, l2 with
                 | [], [] => True
                 | e1 :: r1, e2 :: r2 =>
                     fst e1 = fst e2 /\ permuted (snd e1) (snd e2) /\ go r1 r2
                 | _, _ => False
                 end) entries1 entries2'
  | _, _ => False
  end.

(** In every directory of the tree the names are different. *)
Fixpoint distinctNames (n : Node) : bool :=
  match n with
  | File => true
  | Dir entries _ =>
      distinct (map fst entries) && forallb (fun e => distinctNames (snd e)) entries
  end.

(** The world with another tree below the input path. *)
Definition withRoot (w : World) (tree : Node) : World :=
  {| wAbs := wAbs w; wCreateErr := wCreateErr w; wCapacity := wCapacity w;
     wCloseErr := wCloseErr w; wRoot := inr tree; wOpen := wOpen w |}.

(** The order on entries that [os.ReadDir] sorts by. *)
Definition nameLe {A : Type} (x y : string * A) : Prop :=
  String.leb (fst x) (fst y) = true.

(** A step at which the walk goes on when the output device does not fail:
    no error is reported, and the node is a directory, a file without a
    wanted extension or a readable file. *)
Definition safeStep (w : World) (config : Config) (absPath : string)
    (step : Step) : Prop :=
  stepErr step = None
  /\ (exists relPath, Rel absPath (stepPath step) = inr relPath)
  /\ (stepIsDir step = true
      \/ shouldIncludeFile (stepPath step) (includeMap config) = false
      \/ readable (wOpen w (stepPath step))).

(** An entry of a list flag as [parseCommaSeparated] leaves it: not empty,
    without comma and unchanged by the trimming. *)
Definition cleanEntry (TrimSpace : string -> string) (e : string) : Prop :=
  e <> "" /\ Str.contains ","%char e = false /\ TrimSpace e = e.

(** The parts of a list flag that remain after the trimming. *)
Definition keptParts (TrimSpace : string -> string) (input : string) : list string :=
  List.filter (fun trimmed => negb (String.eqb trimmed ""))
              (map TrimSpace (Str.Split input ","%char)).

(** A string that does not start with white space. *)
Definition headOk (s : string) : Prop :=
  match s with
  | EmptyString => True
  | String c _ => Ascii.is_space c = false
  end.

(** An extension as [filepath.Ext] returns it when it is not empty: a dot
    followed by bytes that are neither a dot nor a separator. *)
Definition isDotted (e : string) : bool :=
  match e with
  | EmptyString => false
  | String c suf =>
      Ascii.eqb c "."%char && negb (Str.contains "."%char suf)
      && negb (Str.contains Separator suf)
  end.

(** The entries of an inclusion list that can be the extension of a path. *)
Definition usableExtension (e : string) : bool := String.eqb e "" || isDotted e.

(** An entry of an exclusion list with a separator and an empty segment:
    it starts or ends with a separator, or has two in a row. *)
Definition hasEmptySegment (e : string) : bool :=
  Str.contains Separator e && existsb (String.eqb "") (Str.Split e Separator).

(** The names of a position are those of entries of a file system. *)
Definition validNames (pos : list string) : Prop :=
  Forall (fun name1 => name1 <> "" /\ Str.contains Separator name1 = false) pos.

(** Every directory of the tree at [pos] that the walk lists, those that
    are not excluded and do not lie under an excluded directory, can be
    listed. *)
Fixpoint listable (config : Config) (pos : list string) (n : Node) : bool :=
  match n with
  | File => true
  | Dir entries listErr =>
      excludedDir config pos
      || (isNone listErr
          && forallb (fun e => listable config (pos ++ [fst e]) (snd e)) entries)
  end.

Module Rough.
(** A tree with an excluded directory that cannot be listed and a file
    without wanted extension that cannot be opened. *)
Definition tree : Node :=
  Dir [("a.go", File);
       ("node_modules", Dir [("x.go", File)] (Some EACCES));
       ("b.txt", File)] None.

Definition world : World :=
  {| wAbs := inr "/root"; wCreateErr := None; wCapacity := None;
     wCloseErr := None; wRoot := inr tree;
     wOpen := fun path =>
       if String.eqb path "/root/b.txt"
       then {| openErr := Some EACCES; statErr := None; content := "";
               readErr := None; fcloseErr := None |}
       else Scenario.files path |}.
End Rough.

Module Situations.
(** The world in which the input path names the file [a.go]. *)
Definition fileWorld : World :=
  {| wAbs := inr "/root/a.go"; wCreateErr := None; wCapacity := None;
     wCloseErr := None; wRoot := inr File; wOpen := Scenario.files |}.

(** The world of a tree with one file, [big.txt], whose second line has
    [MaxScanTokenSize] bytes. *)
Definition longLineWorld : World :=
  {| wAbs := inr "/root"; wCreateErr := None; wCapacity := None;
     wCloseErr := None; wRoot := inr (Dir [("big.txt", File)] None);
     wOpen := fun _ =>
       plainFile ("first" +:+ nl +:+ Scenario.longLine MaxScanTokenSize +:+ nl
                  +:+ "third" +:+ nl) |}.

(** The run that excludes the input directory itself. *)
Definition configNoRoot : Config :=
  mkConfig TrimSpaceASCII
    {| flagInput := "."; flagOutput := "context.txt";
       flagExclude := "."; flagExtensions := "";
       flagVerbose := false |}.
End Situations.

(** Two states with the same writer and the same counter, whose logs are
    related by [L]. *)
Definition sameOutput (L : list LogRecord -> list LogRecord -> Prop)
    (st1 st2 : State) : Prop :=
  writer st1 = writer st2 /\ fileCount st1 = fileCount st2
  /\ L (logs st1) (logs st2).

(** The flags with another value of [-verbose]. *)
Definition withVerbose (v : bool) (flags : Flags) : Flags :=
  {| flagInput := flagInput flags; flagOutput := flagOutput flags;
     flagExclude := flagExclude flags; flagExtensions := flagExtensions flags;
     flagVerbose := v |}.

Definition isDebug (r : LogRecord) : bool :=
  match level r with LevelDebug => true | _ => false end.

(** The records of a log that are not of level debug. *)
Definition withoutDebug (l : list LogRecord) : list LogRecord :=
  List.filter (fun r => negb (isDebug r)) l.

(** The world in which [Stat] and [Close] of the input files succeed. *)
Definition calm (w : World) : World :=
  {| wAbs := wAbs w; wCreateErr := wCreateErr w; wCapacity := wCapacity w;
     wCloseErr := wCloseErr w; wRoot := wRoot w;
     wOpen := fun path =>
       {| openErr := openErr (wOpen w path); statErr := None;
          content := content (wOpen w path); readErr := readErr (wOpen w path);
          fcloseErr := None |} |}.

(** The output file of [st'] is the one of [st], with more bytes. *)
Definition sameFile (st st' : State) : Prop :=
  name (wr (writer st')) = name (wr (writer st))
  /\ capacity (wr (writer st')) = capacity (wr (writer st))
  /\ closeErr (wr (writer st')) = closeErr (wr (writer st)).

(** The world whose output device never fails. *)
Definition unlimitedDevice (w : World) : World :=
  {| wAbs := wAbs w; wCreateErr := wCreateErr w; wCapacity := None;
     wCloseErr := wCloseErr w; wRoot := wRoot w; wOpen := wOpen w |}.

(** A state of the run on the device that never fails in which no byte
    has left the buffer. *)
Definition allBuffered (st : State) : Prop :=
  capacity (wr (writer st)) = None /\ werr (writer st) = None
  /\ data (wr (writer st)) = "".

(** [st] is the state [st0] with the file [f] in place of its file: the
    same bytes are buffered, no write has failed. *)
Definition onFile (f : OutFile) (st0 st : State) : Prop :=
  writer st = {| wr := f; buf := buf (writer st0); werr := None |}
  /\ logs st = logs st0 /\ fileCount st = fileCount st0.

(** On a device that never fails: the state [st'] has accepted at least
    the bytes of [st]. *)
Definition grows (st st' : State) : Prop :=
  unlimited st' /\ String.length (accepted st) <= String.length (accepted st').

(** What a device of capacity [cap] keeps of the bytes [s] written to it
    when it was empty. *)
Definition truncated (cap : option nat) (s : string) : string :=
  match cap with
  | None => s
  | Some c => String.substring 0 c s
  end.

Module Failures.
(** The world of a tree with one file, [torn.txt], whose reading fails
    after two lines and the start of a third. *)
Definition tornWorld : World :=
  {| wAbs := inr "/root"; wCreateErr := None; wCapacity := None;
     wCloseErr := None; wRoot := inr (Dir [("torn.txt", File)] None);
     wOpen := fun _ =>
       {| openErr := None; statErr := None;
          content := "one" +:+ nl +:+ "two" +:+ nl +:+ "thr";
          readErr := Some EIO; fcloseErr := None |} |}.
End Failures.

(** A writer on a device of capacity [cap]: the file holds at most [cap]
    bytes and the buffer at most its size. *)
Definition withinDevice (cap : nat) (b : Writer) : Prop :=
  capacity (wr b) = Some cap /\ String.length (data (wr b)) <= cap
  /\ String.length (buf b) <= defaultBufSize.

(** The start of the section of a file: its header, the fence and some
    of its lines. *)
Definition partialSection (relPath : string) (lines : list string) : string :=
  "## File: " +:+ relPath +:+ nl +:+ fence +:+ nl +:+ joinLines lines.

(** What a failed call has left in the output after the sections of the
    files transcribed before: nothing, or the start of the section of the
    file at [path]. *)
Definition unfinished (w : World) (absPath path : string) (tail : string) : Prop :=
  tail = ""
  \/ exists relPath lines rest,
       Rel absPath path = inr relPath
       /\ fileLines (content (wOpen w path)) = lines ++ rest
       /\ tail = partialSection relPath lines.

(** * Properties of the model *)

Example split_rel : Str.Split "a/b/c" Separator = ["a"; "b"; "c"].
Proof. reflexivity. Qed.

Example split_empty : Str.Split "" Separator = [""].
Proof. reflexivity. Qed.

Example ext_go : Ext "/root/sub.d/c.tar.go" = ".go".
Proof. reflexivity. Qed.

Example ext_none : Ext "/root/sub.d/Makefile" = "".
Proof. reflexivity. Qed.

Example exclude_segment :
  shouldExcludeDir "a/node_modules/b" (createLookupMap ["node_modules"]) = true.
Proof. vm_compute. reflexivity. Qed.

Example include_go :
  shouldIncludeFile "/root/a.go" (createLookupMap [".go"; ".ts"]) = true.
Proof. vm_compute. reflexivity. Qed.

(** ** Facts about strings *)

Module StrFacts.
Import Str.

Lemma app_nil_l (b : string) : "" +:+ b = b.
Proof. reflexivity. Qed.

Lemma app_cons c (a b : string) : String c a +:+ b = String c (a +:+ b).
Proof. reflexivity. Qed.

Ltac sapp := rewrite ?app_cons, ?app_nil_l.

Lemma Split_nonempty s sep : Split s sep <> [].
Proof.
  destruct s as [|c s]; simpl; [discriminate|].
  destruct (Ascii.eqb c sep); [discriminate|].
  destruct (Split s sep); discriminate.
Qed.

(** No piece of a split contains the separator. *)
Lemma Split_pieces s sep piece :
  In piece (Split s sep) -> contains sep piece = false.
Proof.
  revert piece; induction s as [|c s IH]; simpl; intros piece Hin.
  - destruct Hin as [<-|[]]. reflexivity.
  - destruct (Ascii.eqb c sep) eqn:Hc.
    + destruct Hin as [<-|Hin]; [reflexivity|auto].
    + pose proof (Split_nonempty s sep) as Hne.
      destruct (Split s sep) as [|p ps]; [congruence|].
      destruct Hin as [<-|Hin].
      * simpl. rewrite Hc. simpl. apply IH. now left.
      * apply IH. now right.
Qed.

(** Joining the pieces with the separator gives the string back. *)
Lemma Join_Split s sep : Join (Split s sep) (String sep EmptyString) = s.
Proof.
  induction s as [|c s IH]; simpl; [reflexivity|].
  destruct (Ascii.eqb c sep) eqn:Hc.
  - apply Ascii.eqb_eq in Hc; subst c.
    pose proof (Split_nonempty s sep) as Hne.
    destruct (Split s sep) as [|p ps]; [congruence|].
    destruct ps; sapp; simpl in *; sapp; now rewrite <- IH.
  - pose proof (Split_nonempty s sep) as Hne.
    destruct (Split s sep) as [|p ps]; [congruence|].
    destruct ps as [|q qs]; simpl in *; sapp; now rewrite <- IH.
Qed.

(** A string without separator is its own single piece. *)
Lemma Split_no_sep s sep : contains sep s = false -> Split s sep = [s].
Proof.
  induction s as [|c s IH]; simpl; intros H; [reflexivity|].
  apply orb_false_iff in H as [Hc Hs].
  rewrite Hc, (IH Hs). reflexivity.
Qed.

Lemma length_append (a b : string) :
  String.length (a +:+ b) = String.length a + String.length b.
Proof. induction a; sapp; simpl; auto. Qed.

Lemma append_nil_r (a : string) : a +:+ "" = a.
Proof. induction a; sapp; congruence. Qed.

Lemma append_assoc (a b c : string) : (a +:+ b) +:+ c = a +:+ (b +:+ c).
Proof. induction a; sapp; congruence. Qed.

Lemma substring_all (s : string) : String.substring 0 (String.length s) s = s.
Proof. induction s; simpl; congruence. Qed.

Lemma drop_0 (s : string) : drop 0 s = s.
Proof. unfold drop. rewrite Nat.sub_0_r. apply substring_all. Qed.

Lemma drop_S c (s : string) n : drop (S n) (String c s) = drop n s.
Proof. reflexivity. Qed.

Lemma drop_append (a b : string) : drop (String.length a) (a +:+ b) = b.
Proof. induction a; sapp; simpl; [apply drop_0|]. now rewrite drop_S. Qed.

Lemma get_append_r (a b : string) n :
  String.get (String.length a + n) (a +:+ b) = String.get n b.
Proof. induction a; sapp; simpl; auto. Qed.

Lemma get_append_l (a b : string) n :
  n < String.length a -> String.get n (a +:+ b) = String.get n a.
Proof.
  revert n; induction a as [|c a IH]; sapp; simpl; intros n Hn; [lia|].
  destruct n; [reflexivity|]. apply IH. lia.
Qed.

Lemma prefix_append (a b : string) : String.prefix a (a +:+ b) = true.
Proof.
  induction a as [|c a IH]; sapp; simpl; [now destruct b|].
  destruct (ascii_dec c c); [assumption|congruence].
Qed.

End StrFacts.

(** ** Facts about lookup maps *)

Lemma mapGet_empty k : mapGet ∅ k = false.
Proof. unfold mapGet. now rewrite lookup_empty. Qed.

Lemma mapGet_insert_true (m : gmap string bool) i k :
  mapGet (<[i := true]> m) k = true <-> i = k \/ mapGet m k = true.
Proof.
  unfold mapGet. destruct (decide (i = k)) as [->|Hne].
  - rewrite lookup_insert_eq. simpl. tauto.
  - rewrite lookup_insert_ne by assumption. tauto.
Qed.

Lemma createLookupMap_fold (items : list string) (m : gmap string bool) k :
  mapGet (foldl (fun lookup item => <[item := true]> lookup) m items) k = true
  <-> In k items \/ mapGet m k = true.
Proof.
  revert m; induction items as [|i items IH]; intros m; simpl.
  - tauto.
  - rewrite IH, mapGet_insert_true. intuition congruence.
Qed.

(** Membership in a lookup map is membership in the list it was built from. *)
Lemma createLookupMap_member (items : list string) k :
  mapGet (createLookupMap items) k = true <-> In k items.
Proof.
  unfold createLookupMap. rewrite createLookupMap_fold, mapGet_empty.
  intuition discriminate.
Qed.

Lemma mapIsEmpty_spec (m : gmap string bool) : mapIsEmpty m = true <-> m = ∅.
Proof.
  unfold mapIsEmpty. rewrite Nat.eqb_eq. apply map_size_empty_iff.
Qed.

Lemma mapIsEmpty_members (m : gmap string bool) k :
  mapIsEmpty m = true -> mapGet m k = false.
Proof. intros H. apply mapIsEmpty_spec in H. subst. apply mapGet_empty. Qed.

Lemma createLookupMap_isEmpty (items : list string) :
  mapIsEmpty (createLookupMap items) = true <-> items = [].
Proof.
  split.
  - intros H. destruct items as [|i items]; [reflexivity|].
    pose proof (mapIsEmpty_members _ i H) as Hi.
    assert (mapGet (createLookupMap (i :: items)) i = true) as Ht
      by (apply createLookupMap_member; now left).
    congruence.
  - intros ->. reflexivity.
Qed.

(** ** Facts about [filepath.Ext] *)

Module ExtFacts.
Import Str StrFacts.

Lemma get_not_contained c (s : string) j d :
  contains c s = false -> String.get j s = Some d -> d <> c.
Proof.
  revert j; induction s as [|x s IH]; simpl; intros j Hc Hg; [discriminate|].
  apply orb_false_iff in Hc as [Hx Hs].
  destruct j.
  - injection Hg as <-. now apply Ascii.eqb_neq.
  - eauto.
Qed.

Lemma get_in_range (s : string) j :
  j < String.length s -> exists c, String.get j s = Some c.
Proof.
  revert j; induction s as [|x s IH]; simpl; intros j Hj; [lia|].
  destruct j; [eauto|]. apply IH. lia.
Qed.

(** The loop steps over bytes that are neither a separator nor a dot. *)
Lemma ExtLoop_skip k path i :
  (forall j, i <= j < i + k ->
     exists c, String.get j path = Some c
               /\ IsPathSeparator c = false /\ Ascii.eqb c "."%char = false) ->
  ExtLoop (i + k) path = ExtLoop i path.
Proof.
  induction k as [|k IH]; intros H.
  - now rewrite Nat.add_0_r.
  - rewrite Nat.add_succ_r. simpl.
    destruct (H (i + k)) as (c & -> & -> & ->); [lia|].
    apply IH. intros j Hj. apply H. lia.
Qed.

Lemma ExtLoop_plain (a b : string) :
  contains "."%char b = false -> contains Separator b = false ->
  ExtLoop (String.length a + String.length b) (a +:+ b)
  = ExtLoop (String.length a) (a +:+ b).
Proof.
  intros Hdot Hsep. apply ExtLoop_skip. intros j Hj.
  replace j with (String.length a + (j - String.length a)) by lia.
  rewrite get_append_r.
  destruct (get_in_range b (j - String.length a)) as [c Hc]; [lia|].
  exists c. split; [assumption|]. split.
  - apply Ascii.eqb_neq. eapply get_not_contained; eauto.
  - apply Ascii.eqb_neq. eapply get_not_contained; eauto.
Qed.

(** The extension starts at the last dot of the last path element. *)
Lemma Ext_last_dot (pre suf : string) :
  contains "."%char suf = false -> contains Separator suf = false ->
  Ext (pre +:+ "." +:+ suf) = "." +:+ suf.
Proof.
  intros Hdot Hsep. unfold Ext.
  rewrite <- (append_assoc pre "." suf), length_append.
  rewrite (ExtLoop_plain (pre +:+ ".") suf Hdot Hsep).
  rewrite length_append. simpl String.length. rewrite Nat.add_1_r. simpl.
  rewrite append_assoc.
  replace (String.length pre) with (String.length pre + 0) at 1 by lia.
  rewrite get_append_r. simpl.
  apply drop_append.
Qed.

(** A last path element without dot has the empty extension. *)
Lemma Ext_no_dot_name (name : string) :
  contains "."%char name = false -> contains Separator name = false ->
  Ext name = "".
Proof.
  intros Hdot Hsep. unfold Ext.
  pose proof (ExtLoop_plain "" name Hdot Hsep) as H. simpl in H.
  rewrite app_nil_l in H. exact H.
Qed.

Lemma Ext_no_dot_path (dir name : string) :
  contains "."%char name = false -> contains Separator name = false ->
  Ext (dir +:+ "/" +:+ name) = "".
Proof.
  intros Hdot Hsep. unfold Ext.
  rewrite <- (append_assoc dir "/" name), length_append.
  rewrite (ExtLoop_plain (dir +:+ "/") name Hdot Hsep).
  rewrite length_append. simpl String.length. rewrite Nat.add_1_r. simpl.
  rewrite append_assoc.
  replace (String.length dir) with (String.length dir + 0) at 1 by lia.
  rewrite get_append_r. simpl. reflexivity.
Qed.

End ExtFacts.

(** ** PathMatcher *)

Module PathMatcher.
Import Str StrFacts ExtFacts.

Lemma existsb_mapGet (m : gmap string bool) parts :
  existsb (fun part => mapGet m part) parts = true
  <-> exists part, In part parts /\ mapGet m part = true.
Proof. apply existsb_exists. Qed.

(** [shouldExcludeDir] on any map: a segment or the whole path is mapped
    to [true]. *)
Lemma shouldExcludeDir_map (relPath : string) (m : gmap string bool) :
  shouldExcludeDir relPath m = true <->
  (exists part, In part (Split relPath Separator) /\ mapGet m part = true)
  \/ mapGet m relPath = true.
Proof.
  unfold shouldExcludeDir. destruct (mapIsEmpty m) eqn:He.
  - split; [discriminate|].
    intros [(part & _ & H)|H]; rewrite (mapIsEmpty_members m _ He) in H;
      discriminate.
  - destruct (existsb _ _) eqn:Hex.
    + apply existsb_mapGet in Hex. tauto.
    + split; [tauto|]. intros [H|H]; [|assumption].
      apply existsb_mapGet in H. congruence.
Qed.

(** C3: [shouldExcludeDir] returns true exactly when a segment of the
    relative path, or the relative path itself, is an element of the
    exclusion list the set was built from; membership is equality of
    strings.  It returns false on the empty set.  The segments are the
    pieces of the path between separators. *)
Theorem shouldExcludeDir_spec (relPath : string) (items : list string) :
  (shouldExcludeDir relPath (createLookupMap items) = true <->
     (exists part, In part (Split relPath Separator) /\ In part items)
     \/ In relPath items)
  /\ shouldExcludeDir relPath (createLookupMap []) = false
  /\ Join (Split relPath Separator) "/" = relPath
  /\ Forall (fun part => contains Separator part = false)
            (Split relPath Separator).
Proof.
  split; [|split; [|split]].
  - rewrite shouldExcludeDir_map, createLookupMap_member.
    split; (intros [(part & Hin & H)|H]; [left; exists part; split; [assumption|]|right]);
      try (now apply createLookupMap_member); assumption.
  - reflexivity.
  - apply Join_Split.
  - apply List.Forall_forall. intros part. apply Split_pieces.
Qed.

(** [shouldIncludeFile] on a set built from a list. *)
Lemma shouldIncludeFile_iff (filePath : string) (items : list string) :
  shouldIncludeFile filePath (createLookupMap items) = true <->
  items = [] \/ In (Ext filePath) items.
Proof.
  unfold shouldIncludeFile.
  destruct (mapIsEmpty (createLookupMap items)) eqn:He.
  - apply createLookupMap_isEmpty in He. tauto.
  - rewrite createLookupMap_member. split; [tauto|].
    intros [->|H]; [|assumption]. discriminate.
Qed.

Lemma Join_last (l : list string) (sep : string) :
  l <> [] ->
  Join l sep = List.last l "" \/ exists d, Join l sep = d +:+ sep +:+ List.last l "".
Proof.
  induction l as [|x l IH]; intros Hne; [congruence|].
  destruct l as [|y l]; [now left|].
  right. destruct IH as [IH|[d IH]]; [discriminate| |].
  - exists x. change (Join (x :: y :: l) sep) with (x +:+ sep +:+ Join (y :: l) sep).
    now rewrite IH.
  - exists (x +:+ sep +:+ d).
    change (Join (x :: y :: l) sep) with (x +:+ sep +:+ Join (y :: l) sep).
    rewrite IH. now rewrite !append_assoc.
Qed.

Lemma last_In (l : list string) d : l <> [] -> In (List.last l d) l.
Proof.
  induction l as [|x l IH]; intros Hne; [congruence|].
  destruct l as [|y l]; [now left|].
  right. apply IH. discriminate.
Qed.

(** A path is its last element, possibly after a directory and a
    separator. *)
Lemma path_lastElement (path : string) :
  path = lastElement path \/ exists dir, path = dir +:+ "/" +:+ lastElement path.
Proof.
  unfold lastElement.
  pose proof (Join_last (Split path Separator) "/" (Split_nonempty _ _)) as H.
  pose proof (Join_Split path Separator) as HJ.
  change (String Separator "") with "/" in HJ.
  rewrite HJ in H. exact H.
Qed.

Lemma lastElement_no_sep (path : string) :
  contains Separator (lastElement path) = false.
Proof.
  unfold lastElement. apply (Split_pieces path).
  apply last_In, Split_nonempty.
Qed.

(** A path whose last element has no dot has the empty extension. *)
Lemma Ext_no_dot (path : string) :
  contains "."%char (lastElement path) = false -> Ext path = "".
Proof.
  intros Hdot. pose proof (lastElement_no_sep path) as Hsep.
  destruct (path_lastElement path) as [E|[dir E]]; rewrite E.
  - now apply Ext_no_dot_name.
  - now apply Ext_no_dot_path.
Qed.

(** A path whose last element is a dot followed by dot-free bytes has that
    whole element as its extension. *)
Lemma Ext_hidden (path rest : string) :
  lastElement path = "." +:+ rest -> contains "."%char rest = false ->
  Ext path = lastElement path.
Proof.
  intros Hlast Hdot. pose proof (lastElement_no_sep path) as Hsep.
  rewrite Hlast in Hsep. rewrite app_cons, app_nil_l in Hsep. simpl in Hsep.
  destruct (path_lastElement path) as [E|[dir E]];
    rewrite Hlast in E; rewrite Hlast; rewrite E.
  - apply (Ext_last_dot "" rest); assumption.
  - rewrite <- (append_assoc dir "/" ("." +:+ rest)).
    rewrite (Ext_last_dot (dir +:+ "/") rest); auto.
Qed.

Lemma parse_fold_nonempty (TrimSpace : string -> string) parts acc :
  ~ In "" acc ->
  ~ In "" (foldl (fun result part =>
                    let trimmed := TrimSpace part in
                    if negb (String.eqb trimmed "") then result ++ [trimmed]
                    else result) acc parts).
Proof.
  revert acc; induction parts as [|part parts IH]; intros acc Hacc; simpl.
  - assumption.
  - apply IH. destruct (String.eqb (TrimSpace part) "") eqn:E; simpl.
    + assumption.
    + apply String.eqb_neq in E. rewrite in_app_iff. simpl.
      intros [H|[H|[]]]; [auto|congruence].
Qed.

(** No list parsed from a flag contains the empty string. *)
Lemma parseCommaSeparated_nonempty (TrimSpace : string -> string) input :
  ~ In "" (parseCommaSeparated TrimSpace input).
Proof.
  unfold parseCommaSeparated. destruct (String.eqb input ""); [intros []|].
  apply parse_fold_nonempty. intros [].
Qed.

(** Outside the program: on the set [{""}], which no list parsed from the
    flag gives, the name [Makefile], without dot, is included. *)
Example shouldIncludeFile_empty_extension :
  [""] <> @nil string
  /\ contains "."%char "Makefile" = false
  /\ Ext "Makefile" = ""
  /\ shouldIncludeFile "Makefile" (createLookupMap [""]) = true.
Proof. repeat split; try discriminate; vm_compute; reflexivity. Qed.

(** C4: [shouldIncludeFile] returns true when the inclusion list is empty,
    and otherwise exactly when the extension of the path is one of its
    elements.  The extension is the suffix of the last path element from
    its last dot on; a last element without dot has the empty extension, so
    such a file is rejected by every non-empty inclusion list without the
    empty string.  That precondition holds of every list the program
    builds: the flag parser drops the empty entries, so on the inclusion
    set of every configuration of [main] the function returns true when
    the list is empty, otherwise exactly when the extension is an element,
    and never for a file name without dot. *)
Theorem shouldIncludeFile_spec (filePath : string) (items : list string) :
  (shouldIncludeFile filePath (createLookupMap items) = true <->
     items = [] \/ In (Ext filePath) items)
  /\ (contains "."%char (lastElement filePath) = false ->
      Ext filePath = "" /\
      (items <> [] -> ~ In "" items ->
       shouldIncludeFile filePath (createLookupMap items) = false))
  /\ (forall pre suf,
        filePath = pre +:+ "." +:+ suf ->
        contains "."%char suf = false -> contains Separator suf = false ->
        Ext filePath = "." +:+ suf)
  /\ (forall TrimSpace input, ~ In "" (parseCommaSeparated TrimSpace input))
  /\ (forall TrimSpace flags,
        let config := mkConfig TrimSpace flags in
        (includeExts config = [] ->
         shouldIncludeFile filePath (includeMap config) = true)
        /\ (includeExts config <> [] ->
            (shouldIncludeFile filePath (includeMap config) = true
             <-> In (Ext filePath) (includeExts config))
            /\ (contains "."%char (lastElement filePath) = false ->
                shouldIncludeFile filePath (includeMap config) = false))).
Proof.
  split; [apply shouldIncludeFile_iff|]. split; [|split; [|split]].
  - intros Hdot. pose proof (Ext_no_dot filePath Hdot) as HE.
    split; [assumption|]. intros Hne Hno.
    destruct (shouldIncludeFile filePath (createLookupMap items)) eqn:Hs;
      [|reflexivity].
    apply shouldIncludeFile_iff in Hs. rewrite HE in Hs. tauto.
  - intros pre suf -> Hdot Hsep. now apply Ext_last_dot.
  - apply parseCommaSeparated_nonempty.
  - intros TrimSpace flags config.
    change (includeMap config) with (createLookupMap (includeExts config)).
    split; [intros Hnil; apply shouldIncludeFile_iff; now left|].
    intros Hne. split.
    + rewrite shouldIncludeFile_iff. split; [intros [H|H]; [contradiction|exact H]|].
      intros H. now right.
    + intros Hdot.
      destruct (shouldIncludeFile filePath (createLookupMap (includeExts config))) eqn:Hs;
        [|reflexivity].
      apply shouldIncludeFile_iff in Hs. rewrite (Ext_no_dot filePath Hdot) in Hs.
      destruct Hs as [Hs|Hs]; [contradiction|].
      exfalso. revert Hs.
      apply (parseCommaSeparated_nonempty TrimSpace (flagExtensions flags)).
Qed.

Lemma shouldIncludeFile_spec_witness :
  shouldIncludeFile "/root/Makefile" (createLookupMap [".go"; ".ts"]) = false
  /\ Ext "/root/sub.d/main.test.go" = ".go"
  /\ shouldIncludeFile "/root/Makefile"
       (includeMap (mkConfig TrimSpaceASCII Scenario.flags)) = false.
Proof.
  destruct (shouldIncludeFile_spec "/root/Makefile" [".go"; ".ts"])
    as (_ & Hnodot & _ & _ & Hrun).
  destruct (shouldIncludeFile_spec "/root/sub.d/main.test.go" [])
    as (_ & _ & Hdot & _).
  split; [|split].
  - apply Hnodot; [reflexivity|discriminate|].
    intros [H|[H|[]]]; discriminate.
  - apply (Hdot "/root/sub.d/main.test" "go"); reflexivity.
  - destruct (Hrun TrimSpaceASCII Scenario.flags) as [_ Hsome].
    apply Hsome; [discriminate|reflexivity].
Defined.

(** C10: under a non-empty inclusion set, a file whose name is a dot
    followed by dot-free bytes has its whole name as extension, and is
    included exactly when that name is an element of the inclusion list. *)
Theorem hidden_file_included (filePath rest : string) (items : list string) :
  items <> [] ->
  lastElement filePath = "." +:+ rest ->
  contains "."%char rest = false ->
  Ext filePath = lastElement filePath
  /\ (shouldIncludeFile filePath (createLookupMap items) = true <->
      In (lastElement filePath) items).
Proof.
  intros Hne Hlast Hdot. pose proof (Ext_hidden filePath rest Hlast Hdot) as HE.
  split; [assumption|]. rewrite shouldIncludeFile_iff, HE. tauto.
Qed.

Lemma hidden_file_included_witness :
  Ext "/root/.gitignore" = ".gitignore"
  /\ (shouldIncludeFile "/root/.gitignore" (createLookupMap [".go"; ".gitignore"]) = true
      <-> In ".gitignore" [".go"; ".gitignore"]).
Proof.
  apply (hidden_file_included "/root/.gitignore" "gitignore" [".go"; ".gitignore"]);
    [discriminate|reflexivity|reflexivity].
Defined.

End PathMatcher.

(** ** The buffered writer *)

Module WriterFacts.
Import Str StrFacts.

Lemma substring_drop (n : nat) (p : string) :
  String.substring 0 n p +:+ drop n p = p.
Proof.
  revert n; induction p as [|c p IH]; intros n.
  - destruct n; reflexivity.
  - destruct n; [now rewrite drop_0|].
    simpl String.substring. rewrite app_cons, drop_S. now rewrite IH.
Qed.

Lemma length_0_empty (s : string) : String.length s = 0 -> s = "".
Proof. destruct s; [reflexivity|discriminate]. Qed.

Lemma drop_all (p : string) : drop (String.length p) p = "".
Proof.
  pose proof (drop_append p "") as H. now rewrite append_nil_r in H.
Qed.

Lemma fileWrite_meta (f f' : OutFile) p n err :
  fileWrite f p = (f', n, err) ->
  name f' = name f /\ capacity f' = capacity f /\ closeErr f' = closeErr f.
Proof.
  unfold fileWrite. destruct (capacity f) as [cap|] eqn:Hc.
  - destruct (String.length p <=? _); intros [= <- <- <-]; simpl; auto.
  - intros [= <- <- <-]; simpl; auto.
Qed.

Lemma fileWrite_ok (f f' : OutFile) p n :
  fileWrite f p = (f', n, None) ->
  data f' = data f +:+ p /\ n = String.length p.
Proof.
  unfold fileWrite. destruct (capacity f) as [cap|].
  - destruct (String.length p <=? _); [|discriminate].
    intros [= <- <-]; simpl; auto.
  - intros [= <- <-]; simpl; auto.
Qed.

Lemma fileWrite_unlimited (f : OutFile) p :
  capacity f = None ->
  fileWrite f p =
    ({| name := name f; data := data f +:+ p; capacity := None;
        closeErr := closeErr f |}, String.length p, None).
Proof. unfold fileWrite. now intros ->. Qed.

Lemma Flush_meta (b b' : Writer) err :
  Flush b = (b', err) ->
  name (wr b') = name (wr b) /\ capacity (wr b') = capacity (wr b)
  /\ closeErr (wr b') = closeErr (wr b).
Proof.
  unfold Flush. destruct (werr b); [intros [= <- <-]; auto|].
  destruct (Nat.eqb (Buffered b) 0); [intros [= <- <-]; auto|].
  destruct (fileWrite (wr b) (buf b)) as [[f n] e] eqn:Hw.
  apply fileWrite_meta in Hw.
  destruct e; intros [= <- <-]; simpl; assumption.
Qed.

(** A successful flush leaves the accepted bytes unchanged and empties the
    buffer. *)
Lemma Flush_ok (b b' : Writer) :
  Flush b = (b', None) ->
  werr b = None /\ werr b' = None /\ stream b' = stream b /\ buf b' = "".
Proof.
  unfold Flush. destruct (werr b) eqn:He; [discriminate|].
  destruct (Nat.eqb (Buffered b) 0) eqn:Hb.
  - intros [= <-]. apply Nat.eqb_eq in Hb. apply length_0_empty in Hb. auto.
  - destruct (fileWrite (wr b) (buf b)) as [[f n] e] eqn:Hw.
    destruct e; [discriminate|]. intros [= <-].
    apply fileWrite_ok in Hw as [Hd _]. unfold stream. simpl.
    rewrite Hd, append_nil_r. auto.
Qed.

Lemma Flush_err (b b' : Writer) e :
  Flush b = (b', Some e) -> werr b' = Some e.
Proof.
  unfold Flush. destruct (werr b) eqn:He; [now intros [= <- <-]|].
  destruct (Nat.eqb (Buffered b) 0); [discriminate|].
  destruct (fileWrite (wr b) (buf b)) as [[f n] e'].
  destruct e'; [|discriminate]. now intros [= <- <-].
Qed.

Lemma writeLoop_stops fuel b p : stops b p -> writeLoop fuel b p = (b, p).
Proof.
  intros H. destruct fuel; [reflexivity|]. simpl.
  destruct (werr b) eqn:He; [reflexivity|].
  destruct H as [H|H]; [congruence|].
  apply Nat.ltb_ge in H. now rewrite H.
Qed.

Lemma writeLoop_failed fuel b p e : werr b = Some e -> writeLoop fuel b p = (b, p).
Proof. intros H. apply writeLoop_stops. left. congruence. Qed.

Lemma stops_dec b p : stops b p \/ (werr b = None /\ (Available b <? String.length p) = true).
Proof.
  unfold stops. destruct (werr b); [left; left; discriminate|].
  destruct (Available b <? String.length p) eqn:H; [now right|].
  left. right. now apply Nat.ltb_ge.
Qed.

(** One round of the loop from an empty buffer stops it. *)
Lemma round_direct b p :
  Buffered b = 0 -> werr b = None -> (Available b <? String.length p) = true ->
  exists b1 rest,
    (forall fuel, writeLoop (S fuel) b p = writeLoop fuel b1 rest) /\ stops b1 rest.
Proof.
  intros Hb He Hlt.
  destruct (fileWrite (wr b) p) as [[f n] err] eqn:Hw.
  exists {| wr := f; buf := buf b; werr := err |}, (drop n p). split.
  - intros fuel. simpl. now rewrite He, Hlt, Hb, Hw.
  - destruct err as [e|]; [left; discriminate|].
    apply fileWrite_ok in Hw as [_ ->]. rewrite drop_all. right. simpl. lia.
Qed.

(** One round from a buffer that holds bytes fails or empties it. *)
Lemma round_fill b p :
  Buffered b <> 0 -> werr b = None -> (Available b <? String.length p) = true ->
  exists b1 rest,
    (forall fuel, writeLoop (S fuel) b p = writeLoop fuel b1 rest)
    /\ (stops b1 rest \/ Buffered b1 = 0).
Proof.
  intros Hb He Hlt. apply Nat.eqb_neq in Hb.
  destruct (Flush {| wr := wr b;
                     buf := buf b +:+ String.substring 0 (Available b) p;
                     werr := werr b |}) as [b2 ferr] eqn:Hf.
  exists b2, (drop (Available b) p). split.
  - intros fuel. simpl. now rewrite He, Hlt, Hb, <- He, Hf.
  - destruct ferr as [e|].
    + left. left. apply Flush_err in Hf. congruence.
    + right. apply Flush_ok in Hf as (_ & _ & _ & Hbuf).
      unfold Buffered. now rewrite Hbuf.
Qed.

(** Two rounds are enough: more fuel gives the same result, in a state
    where the loop condition is false. *)
Lemma writeLoop_exits k b p :
  writeLoop (writeFuel + k) b p = writeLoop writeFuel b p
  /\ stops (fst (writeLoop writeFuel b p)) (snd (writeLoop writeFuel b p)).
Proof.
  unfold writeFuel. change (2 + k) with (S (S k)).
  destruct (stops_dec b p) as [Hs|[He Hlt]].
  { rewrite !writeLoop_stops by assumption. now split. }
  destruct (Nat.eq_dec (Buffered b) 0) as [Hb|Hb].
  - destruct (round_direct b p Hb He Hlt) as (b1 & rest & E & Hs).
    rewrite !E, !writeLoop_stops by assumption. now split.
  - destruct (round_fill b p Hb He Hlt) as (b1 & rest & E & [Hs|Hb1]).
    + rewrite !E, !writeLoop_stops by assumption. now split.
    + rewrite !E. destruct (stops_dec b1 rest) as [Hs|[He1 Hlt1]].
      * rewrite !writeLoop_stops by assumption. now split.
      * destruct (round_direct b1 rest Hb1 He1 Hlt1) as (b2 & rest2 & E2 & Hs).
        rewrite !E2, !writeLoop_stops by assumption. now split.
Qed.

(** Without error the loop keeps the accepted bytes in order. *)
Lemma writeLoop_stream fuel b p b1 rest :
  writeLoop fuel b p = (b1, rest) -> werr b1 = None ->
  werr b = None /\ stream b1 +:+ rest = stream b +:+ p.
Proof.
  revert b p; induction fuel as [|fuel IH]; intros b p; simpl.
  - now intros [= <- <-] He.
  - destruct (werr b) eqn:He; [intros [= <- <-]; congruence|].
    destruct (Available b <? String.length p); [|now intros [= <- <-]].
    destruct (Nat.eqb (Buffered b) 0) eqn:Hb.
    + destruct (fileWrite (wr b) p) as [[f n] err] eqn:Hw.
      intros Hl He1. destruct (IH _ _ Hl He1) as [Herr Hs]. simpl in Herr. subst err.
      apply fileWrite_ok in Hw as [Hd ->]. rewrite drop_all in Hs.
      split; [reflexivity|]. rewrite Hs. unfold stream. simpl.
      apply Nat.eqb_eq, length_0_empty in Hb. rewrite Hd, Hb.
      now rewrite !append_nil_r.
    + destruct (Flush _) as [b2 ferr] eqn:Hf. simpl fst.
      intros Hl He1. destruct (IH _ _ Hl He1) as [Herr Hs].
      destruct ferr as [e|]; [apply Flush_err in Hf; congruence|].
      apply Flush_ok in Hf as (_ & _ & Hst & _).
      split; [reflexivity|]. rewrite Hs, Hst. unfold stream. simpl.
      rewrite !append_assoc. now rewrite substring_drop.
Qed.

Lemma writeLoop_meta fuel b p b1 rest :
  writeLoop fuel b p = (b1, rest) ->
  name (wr b1) = name (wr b) /\ capacity (wr b1) = capacity (wr b)
  /\ closeErr (wr b1) = closeErr (wr b).
Proof.
  revert b p; induction fuel as [|fuel IH]; intros b p; simpl.
  - now intros [= <- <-].
  - destruct (werr b); [now intros [= <- <-]|].
    destruct (Available b <? String.length p); [|now intros [= <- <-]].
    destruct (Nat.eqb (Buffered b) 0).
    + destruct (fileWrite (wr b) p) as [[f n] err] eqn:Hw.
      intros Hl. apply IH in Hl. simpl in Hl. apply fileWrite_meta in Hw.
      destruct Hl as (-> & -> & ->). assumption.
    + destruct (Flush _) as [b2 ferr] eqn:Hf. simpl fst.
      intros Hl. apply IH in Hl. apply Flush_meta in Hf. simpl in Hf.
      destruct Hl as (-> & -> & ->). assumption.
Qed.

(** A successful [Write] appends its argument to the accepted bytes. *)
Lemma Write_ok (b b' : Writer) p :
  Write b p = (b', None) ->
  werr b = None /\ werr b' = None /\ stream b' = stream b +:+ p.
Proof.
  unfold Write. destruct (writeLoop writeFuel b p) as [b1 rest] eqn:Hl.
  destruct (werr b1) eqn:He; [discriminate|]. intros [= <-].
  destruct (writeLoop_stream _ _ _ _ _ Hl He) as [H0 Hs].
  split; [assumption|]. split; [reflexivity|].
  rewrite <- Hs. unfold stream. simpl. now rewrite append_assoc.
Qed.

(** A failed [Write] leaves the writer in error; the error is sticky. *)
Lemma Write_err (b b' : Writer) p e :
  Write b p = (b', Some e) -> werr b' = Some e.
Proof.
  unfold Write. destruct (writeLoop writeFuel b p) as [b1 rest].
  destruct (werr b1) eqn:He; [|discriminate]. now intros [= <- <-].
Qed.

Lemma Write_sticky (b : Writer) p e : werr b = Some e -> Write b p = (b, Some e).
Proof.
  intros He. unfold Write. rewrite (writeLoop_failed _ b p e He). now rewrite He.
Qed.

Lemma Write_meta (b b' : Writer) p err :
  Write b p = (b', err) ->
  name (wr b') = name (wr b) /\ capacity (wr b') = capacity (wr b)
  /\ closeErr (wr b') = closeErr (wr b).
Proof.
  unfold Write. destruct (writeLoop writeFuel b p) as [b1 rest] eqn:Hl.
  apply writeLoop_meta in Hl.
  destruct (werr b1); intros [= <- <-]; simpl; assumption.
Qed.

Lemma Flush_unlimited (b : Writer) :
  capacity (wr b) = None -> werr b = None ->
  exists b', Flush b = (b', None) /\ capacity (wr b') = None.
Proof.
  intros Hc He. unfold Flush. rewrite He.
  destruct (Nat.eqb (Buffered b) 0); [eauto|].
  rewrite (fileWrite_unlimited _ _ Hc). eauto.
Qed.

Lemma writeLoop_unlimited fuel (b : Writer) p :
  capacity (wr b) = None -> werr b = None ->
  werr (fst (writeLoop fuel b p)) = None
  /\ capacity (wr (fst (writeLoop fuel b p))) = None.
Proof.
  revert b p; induction fuel as [|fuel IH]; intros b p Hc He; simpl; [auto|].
  rewrite He. destruct (Available b <? String.length p); [|auto].
  destruct (Nat.eqb (Buffered b) 0).
  - rewrite (fileWrite_unlimited _ _ Hc). apply IH; reflexivity.
  - destruct (Flush_unlimited
                {| wr := wr b; buf := buf b +:+ String.substring 0 (Available b) p;
                   werr := None |} Hc eq_refl) as (b' & Hf & Hc').
    rewrite Hf. simpl fst.
    apply Flush_ok in Hf as (_ & He' & _). now apply IH.
Qed.

(** On a device without limit every [Write] succeeds. *)
Lemma Write_unlimited (b : Writer) p :
  capacity (wr b) = None -> werr b = None ->
  exists b', Write b p = (b', None) /\ capacity (wr b') = None.
Proof.
  intros Hc He. unfold Write.
  destruct (writeLoop_unlimited writeFuel b p Hc He) as [He1 Hc1].
  destruct (writeLoop writeFuel b p) as [b1 rest]. simpl in *.
  rewrite He1. eauto.
Qed.

End WriterFacts.

(** ** FileTranscriber *)

Module Transcriber.
Import Str StrFacts WriterFacts.

Lemma Fprint_ok s st st' :
  Fprint s st = (st', None) ->
  accepted st' = accepted st +:+ s /\ logs st' = logs st
  /\ fileCount st' = fileCount st /\ werr (writer st) = None
  /\ werr (writer st') = None.
Proof.
  unfold Fprint. destruct (Write (writer st) s) as [b err] eqn:Hw.
  intros [= <- ->]. apply Write_ok in Hw as (H0 & H1 & Hs).
  unfold accepted. simpl. auto.
Qed.

Lemma Fprint_err s st st' e :
  Fprint s st = (st', Some e) ->
  werr (writer st') = Some e /\ logs st' = logs st /\ fileCount st' = fileCount st.
Proof.
  unfold Fprint. destruct (Write (writer st) s) as [b err] eqn:Hw.
  intros [= <- ->]. apply Write_err in Hw. simpl. auto.
Qed.

Lemma Fprint_frame s st st' err :
  Fprint s st = (st', err) -> logs st' = logs st /\ fileCount st' = fileCount st.
Proof.
  destruct err as [e|]; intros H.
  - apply Fprint_err in H. tauto.
  - apply Fprint_ok in H. tauto.
Qed.

Lemma writeAll_ok lines st st' :
  writeAll lines st = (st', None) ->
  accepted st' = accepted st +:+ String.concat "" lines
  /\ logs st' = logs st /\ fileCount st' = fileCount st.
Proof.
  revert st; induction lines as [|line rest IH]; intros st; simpl.
  - intros [= <-]. now rewrite append_nil_r.
  - destruct (Fprint line st) as [st1 err] eqn:Hf.
    destruct err; [discriminate|]. intros H.
    apply Fprint_ok in Hf as (Ha & Hl & Hc & _).
    apply IH in H as (Ha' & Hl' & Hc').
    rewrite Ha', Ha, Hl', Hc', append_assoc.
    repeat split; try assumption. f_equal.
    destruct rest; simpl; [now rewrite append_nil_r|reflexivity].
Qed.

Lemma writeAll_werr lines st st' :
  writeAll lines st = (st', None) -> werr (writer st) = None ->
  werr (writer st') = None.
Proof.
  revert st; induction lines as [|line rest IH]; intros st; simpl.
  - now intros [= <-].
  - destruct (Fprint line st) as [st1 err] eqn:Hf.
    destruct err; [discriminate|]. intros H _.
    apply Fprint_ok in Hf as (_ & _ & _ & _ & H1). now apply (IH st1).
Qed.

Lemma writeAll_frame lines st st' err :
  writeAll lines st = (st', err) -> logs st' = logs st /\ fileCount st' = fileCount st.
Proof.
  revert st; induction lines as [|line rest IH]; intros st; simpl.
  - now intros [= <- _].
  - destruct (Fprint line st) as [st1 e] eqn:Hf.
    apply Fprint_frame in Hf as [Hl Hc].
    destruct e; [intros [= <- _]; auto|].
    intros H. apply IH in H as [Hl' Hc']. split; congruence.
Qed.

Lemma copyLines_ok tokens n st st' n' :
  copyLines tokens n st = (st', n', None) ->
  accepted st' = accepted st +:+ joinLines tokens
  /\ n' = n + length tokens
  /\ logs st' = logs st /\ fileCount st' = fileCount st.
Proof.
  revert n st; induction tokens as [|t tokens IH]; intros n st; simpl.
  - intros [= <- <-]. rewrite append_nil_r. auto with arith.
  - destruct (Fprint (t +:+ nl) st) as [st1 err] eqn:Hf.
    destruct err; [discriminate|]. intros H.
    apply Fprint_ok in Hf as (Ha & Hl & Hc & _).
    apply IH in H as (Ha' & -> & Hl' & Hc').
    rewrite Ha', Ha, Hl', Hc', !append_assoc.
    repeat split; try assumption; lia.
Qed.

(** The scanner delivers every line exactly when every line fits. *)
Lemma scanTokens_ok raw tokens :
  scanTokens raw = (tokens, None) ->
  tokens = map dropCR raw
  /\ Forall (fun line => String.length line < MaxScanTokenSize) raw.
Proof.
  revert tokens; induction raw as [|line raw IH]; intros tokens; simpl.
  - intros [= <-]. auto.
  - destruct (MaxScanTokenSize <=? String.length line) eqn:Hlen; [discriminate|].
    destruct (scanTokens raw) as [toks err].
    intros [= <- ->]. destruct (IH toks eq_refl) as [-> HF].
    split; [reflexivity|]. constructor; [|assumption].
    now apply Nat.leb_gt in Hlen.
Qed.

Lemma scanTokens_fits raw :
  Forall (fun line => String.length line < MaxScanTokenSize) raw ->
  scanTokens raw = (map dropCR raw, None).
Proof.
  induction 1 as [|line raw Hlen _ IH]; simpl; [reflexivity|].
  apply Nat.leb_gt in Hlen. now rewrite Hlen, IH.
Qed.

Lemma logSt_accepted lg lvl m a st : accepted (logSt lg lvl m a st) = accepted st.
Proof. reflexivity. Qed.

(** What a successful [processFile] has done. *)
Lemma processFile_ok w lg fullPath relPath st st' :
  processFile w lg fullPath relPath st = (st', None) ->
  readable (wOpen w fullPath)
  /\ accepted st' = accepted st +:+ fileSection relPath (content (wOpen w fullPath))
  /\ fileCount st' = fileCount st.
Proof.
  unfold processFile, readable.
  destruct (openErr (wOpen w fullPath)) eqn:Hopen; [discriminate|].
  destruct (processFileBody lg (wOpen w fullPath) fullPath relPath st)
    as [st1 ret] eqn:Hbody.
  intros [= <- ->].
  unfold processFileBody in Hbody.
  set (stA := match statErr (wOpen w fullPath) with
              | Some e => _ | None => _ end) in Hbody.
  assert (accepted stA = accepted st /\ fileCount stA = fileCount st) as [HaA HcA]
    by (unfold stA; destruct (statErr _); auto).
  destruct (Fprint _ stA) as [stB err] eqn:HB.
  destruct err; [discriminate|].
  destruct (Fprint (fence +:+ nl) stB) as [stC err] eqn:HC.
  destruct err; [discriminate|].
  destruct (scanTokens _) as [tokens tooLong] eqn:Hscan.
  destruct (copyLines tokens 0 stC) as [[stD lineCount] err] eqn:HD.
  destruct err; [discriminate|].
  destruct (scannerErr _ _ tooLong) as [e|] eqn:Hserr; [discriminate|].
  destruct (Fprint (fence +:+ nl +:+ nl) _) as [stE err] eqn:HE.
  destruct err; [discriminate|]. injection Hbody as <-.
  unfold scannerErr in Hserr. destruct tooLong; [discriminate|].
  destruct (readErr (wOpen w fullPath)) eqn:Hread; [discriminate|].
  apply scanTokens_ok in Hscan as [-> Hfit].
  apply Fprint_ok in HB as (HaB & _ & HcB & _).
  apply Fprint_ok in HC as (HaC & _ & HcC & _).
  apply copyLines_ok in HD as (HaD & _ & _ & HcD).
  apply Fprint_ok in HE as (HaE & _ & HcE & _).
  rewrite logSt_accepted in HaE. simpl in HcE.
  assert (accepted stE = accepted st +:+ fileSection relPath (content (wOpen w fullPath))
          /\ fileCount stE = fileCount st) as [Ha Hc].
  { split; [|congruence].
    rewrite HaE, HaD, HaC, HaB, HaA. unfold fileSection, fileLines.
    now rewrite !append_assoc. }
  destruct (fcloseErr _); simpl; auto.
Qed.

(** A successful [processFile] leaves the writer without error. *)
Lemma processFile_ok_werr w lg fullPath relPath st st' :
  processFile w lg fullPath relPath st = (st', None) -> werr (writer st') = None.
Proof.
  unfold processFile.
  destruct (openErr (wOpen w fullPath)); [discriminate|].
  destruct (processFileBody lg (wOpen w fullPath) fullPath relPath st)
    as [st1 ret] eqn:Hbody.
  intros [= <- ->]. unfold processFileBody in Hbody.
  destruct (Fprint _ _) as [stB err] in Hbody. destruct err; [discriminate|].
  destruct (Fprint _ stB) as [stC err] in Hbody. destruct err; [discriminate|].
  destruct (scanTokens _) as [tokens tooLong] in Hbody.
  destruct (copyLines tokens 0 stC) as [[stD lineCount] err] in Hbody.
  destruct err; [discriminate|].
  destruct (scannerErr _ _ _) in Hbody; [discriminate|].
  destruct (Fprint _ _) as [stE err] eqn:HE in Hbody.
  destruct err; [discriminate|]. injection Hbody as <-.
  apply Fprint_ok in HE as (_ & _ & _ & _ & He).
  destruct (fcloseErr _); exact He.
Qed.

Lemma Fprint_unlimited s st :
  unlimited st -> exists st', Fprint s st = (st', None) /\ unlimited st'.
Proof.
  intros [Hc He]. unfold Fprint.
  destruct (Write_unlimited (writer st) s Hc He) as (b' & Hw & Hc').
  rewrite Hw. eexists; split; [reflexivity|].
  apply Write_ok in Hw as (_ & He' & _). now split.
Qed.

Lemma writeAll_unlimited lines st :
  unlimited st -> exists st', writeAll lines st = (st', None) /\ unlimited st'.
Proof.
  revert st; induction lines as [|line rest IH]; intros st Hu; simpl; [eauto|].
  destruct (Fprint_unlimited line st Hu) as (st1 & -> & Hu1). now apply IH.
Qed.

Lemma copyLines_unlimited tokens n st :
  unlimited st ->
  exists st' n', copyLines tokens n st = (st', n', None) /\ unlimited st'.
Proof.
  revert n st; induction tokens as [|t tokens IH]; intros n st Hu; simpl; [eauto|].
  destruct (Fprint_unlimited (t +:+ nl) st Hu) as (st1 & -> & Hu1). now apply IH.
Qed.

Lemma logSt_unlimited lg lvl m a st : unlimited st -> unlimited (logSt lg lvl m a st).
Proof. auto. Qed.

(** A readable file is transcribed without error when the device never
    fails. *)
Lemma processFile_succeeds w lg fullPath relPath st :
  readable (wOpen w fullPath) -> unlimited st ->
  exists st', processFile w lg fullPath relPath st = (st', None) /\ unlimited st'.
Proof.
  intros (Hopen & Hread & Hfit) Hu. unfold processFile. rewrite Hopen.
  unfold processFileBody.
  set (stA := match statErr (wOpen w fullPath) with
              | Some e => _ | None => _ end).
  assert (unlimited stA) as HuA by (unfold stA; destruct (statErr _); auto).
  destruct (Fprint_unlimited ("## File: " +:+ relPath +:+ nl) stA HuA)
    as (stB & -> & HuB).
  destruct (Fprint_unlimited (fence +:+ nl) stB HuB) as (stC & -> & HuC).
  rewrite (scanTokens_fits _ Hfit).
  destruct (copyLines_unlimited (map dropCR (rawLines (content (wOpen w fullPath))))
              0 stC HuC) as (stD & n' & -> & HuD).
  unfold scannerErr. rewrite Hread. simpl option_map. cbv iota.
  destruct (Fprint_unlimited (fence +:+ nl +:+ nl)
              (logSt lg LevelDebug "File processed"
                 [("path", VString relPath); ("lines", VInt n')] stD)
              (logSt_unlimited _ _ _ _ _ HuD)) as (stE & -> & HuE).
  destruct (fcloseErr _); eexists; split; try reflexivity; auto.
Qed.

(** A file that does not open makes [processFile] return the wrapped error
    of [os.Open], whatever the writer does. *)
Lemma processFile_open_fails w lg fullPath relPath st e :
  openErr (wOpen w fullPath) = Some e ->
  processFile w lg fullPath relPath st =
    (st, Some (Errorf ("failed to open file " +:+ fullPath +:+ ": ")
                      (PathError "open" fullPath e))).
Proof. intros H. unfold processFile. now rewrite H. Qed.

(** [processFile] never touches the counter. *)
Lemma processFile_fileCount w lg fullPath relPath st st' ret :
  processFile w lg fullPath relPath st = (st', ret) -> fileCount st' = fileCount st.
Proof.
  unfold processFile.
  destruct (openErr (wOpen w fullPath)); [now intros [= <- <-]|].
  destruct (processFileBody lg (wOpen w fullPath) fullPath relPath st)
    as [st1 r] eqn:Hbody.
  intros [= <- <-].
  assert (fileCount st1 = fileCount st) as Hc.
  { unfold processFileBody in Hbody.
    set (stA := match statErr (wOpen w fullPath) with
                | Some e => _ | None => _ end) in Hbody.
    assert (fileCount stA = fileCount st) as HcA
      by (unfold stA; destruct (statErr _); auto).
    destruct (Fprint _ stA) as [stB err] eqn:HB.
    apply Fprint_frame in HB as [_ HcB].
    destruct err; [injection Hbody as <- _; congruence|].
    destruct (Fprint (fence +:+ nl) stB) as [stC err] eqn:HC.
    apply Fprint_frame in HC as [_ HcC].
    destruct err; [injection Hbody as <- _; congruence|].
    destruct (scanTokens _) as [tokens tooLong].
    destruct (copyLines tokens 0 stC) as [[stD lineCount] err] eqn:HD.
    assert (fileCount stD = fileCount stC) as HcD.
    { clear -HD. revert HD. generalize 0 as n. revert stC.
      induction tokens as [|t tokens IH]; intros stC n; simpl.
      - now intros [= <- _ _].
      - destruct (Fprint (t +:+ nl) stC) as [st1 e] eqn:Hf.
        apply Fprint_frame in Hf as [_ Hc].
        destruct e; [intros [= <- _ _]; assumption|].
        intros H. apply IH in H. congruence. }
    destruct err; [injection Hbody as <- _; congruence|].
    destruct (scannerErr _ _ tooLong); [injection Hbody as <- _; congruence|].
    destruct (Fprint (fence +:+ nl +:+ nl) _) as [stE err] eqn:HE.
    apply Fprint_frame in HE as [_ HcE]. simpl in HcE.
    destruct err; injection Hbody as <- _; congruence. }
  destruct (fcloseErr _); simpl; assumption.
Qed.

(** On a device that never fails the writer stays without error, whatever
    happens to the file. *)
Lemma processFile_keeps_unlimited w lg fullPath relPath st :
  unlimited st -> unlimited (fst (processFile w lg fullPath relPath st)).
Proof.
  intros Hu. unfold processFile.
  destruct (openErr (wOpen w fullPath)); [exact Hu|].
  assert (unlimited (fst (processFileBody lg (wOpen w fullPath) fullPath relPath st)))
    as Hbody.
  { unfold processFileBody.
    set (stA := match statErr (wOpen w fullPath) with
                | Some e => _ | None => _ end).
    assert (unlimited stA) as HuA by (unfold stA; destruct (statErr _); auto).
    destruct (Fprint_unlimited ("## File: " +:+ relPath +:+ nl) stA HuA)
      as (stB & -> & HuB).
    destruct (Fprint_unlimited (fence +:+ nl) stB HuB) as (stC & -> & HuC).
    destruct (scanTokens _) as [tokens tooLong].
    destruct (copyLines_unlimited tokens 0 stC HuC) as (stD & n' & -> & HuD).
    destruct (scannerErr _ _ tooLong); [exact HuD|].
    destruct (Fprint_unlimited (fence +:+ nl +:+ nl)
                (logSt lg LevelDebug "File processed"
                   [("path", VString relPath); ("lines", VInt n')] stD)
                (logSt_unlimited _ _ _ _ _ HuD)) as (stE & -> & HuE).
    exact HuE. }
  destruct (processFileBody _ _ _ _ _) as [st1 ret]. simpl in *.
  destruct (fcloseErr _); exact Hbody.
Qed.

(** *** Lines and their terminators *)

Lemma contains_app c (a b : string) :
  contains c (a +:+ b) = contains c a || contains c b.
Proof.
  induction a as [|x a IH]; sapp; simpl; [reflexivity|].
  now rewrite IH, orb_assoc.
Qed.

Lemma Split_line (l rest : string) :
  contains LF l = false -> Split (l +:+ nl +:+ rest) LF = l :: Split rest LF.
Proof.
  induction l as [|c l IH]; sapp; simpl; intros H.
  - reflexivity.
  - apply orb_false_iff in H as [Hc Hl]. rewrite Hc, (IH Hl). reflexivity.
Qed.

Lemma dropCR_CR (l : string) : dropCR (l +:+ String CR "") = l.
Proof.
  induction l as [|c l IH]; sapp; [reflexivity|].
  destruct l as [|d l].
  - rewrite app_nil_l. reflexivity.
  - rewrite app_cons in IH |- *.
    change (dropCR (String c (String d (l +:+ String CR ""))))
      with (String c (dropCR (String d (l +:+ String CR "")))).
    now rewrite IH.
Qed.

Lemma Split_textOf (lines : list (string * bool)) (u : string) :
  Forall (fun l => contains LF (fst l) = false) lines ->
  contains LF u = false ->
  Split (textOf lines u) LF = map rawOf lines ++ [u].
Proof.
  intros Hl Hu. induction Hl as [|[l crlf] lines Hx _ IH]; simpl.
  - now apply Split_no_sep.
  - simpl in Hx. unfold rawOf, terminator. simpl fst. simpl snd.
    destruct crlf.
    + change (String CR nl) with (String CR "" +:+ nl).
      rewrite append_assoc, <- (append_assoc l (String CR "")).
      rewrite Split_line, IH; [reflexivity|].
      rewrite contains_app, Hx. reflexivity.
    + now rewrite Split_line, IH.
Qed.

Lemma rawLines_textOf (lines : list (string * bool)) (u : string) :
  Forall (fun l => contains LF (fst l) = false) lines ->
  contains LF u = false ->
  rawLines (textOf lines u)
  = map rawOf lines ++ match u with EmptyString => [] | _ => [u] end.
Proof.
  intros Hl Hu. unfold rawLines. rewrite (Split_textOf lines u Hl Hu).
  rewrite List.last_last, List.removelast_last.
  destruct u; [now rewrite app_nil_r|reflexivity].
Qed.

(** The scanner gives back the lines of a text whatever their terminators
    are, and the last line also when it has none. *)
Lemma fileLines_textOf (lines : list (string * bool)) (u : string) :
  Forall plainLine (map fst lines) -> plainLine u ->
  fileLines (textOf lines u)
  = map fst lines ++ match u with EmptyString => [] | _ => [u] end.
Proof.
  intros Hl [Hu Hd]. unfold fileLines.
  assert (Forall (fun x => plainLine (fst x)) lines) as Hl'
    by (now apply List.Forall_map).
  rewrite rawLines_textOf;
    [|eapply List.Forall_impl; [|exact Hl']; now intros ? [? _]|assumption].
  rewrite map_app. f_equal.
  - clear Hl. induction Hl' as [|[l crlf] lines [_ Hx] _ IH];
      simpl; [reflexivity|]. rewrite IH. f_equal.
    unfold rawOf. simpl. destruct crlf; [apply dropCR_CR|assumption].
  - destruct u; [reflexivity|]. cbn [List.map]. now rewrite Hd.
Qed.

(** C2: when [processFile] returns without error, the output has received
    exactly the header line with the relative path, the opening fence,
    every line of the file followed by one newline, and the closing fence
    followed by an empty line; the file was readable.  The lines are those
    of the text whatever terminator (newline, or carriage return and
    newline) each had, and the last line also when the file ends without
    newline. *)
Theorem processFile_transcribes (w : World) (lg : Logger)
    (fullPath relPath : string) (st st' : State) :
  processFile w lg fullPath relPath st = (st', None) ->
  accepted st'
  = accepted st +:+ "## File: " +:+ relPath +:+ nl +:+ "```" +:+ nl
    +:+ joinLines (fileLines (content (wOpen w fullPath)))
    +:+ "```" +:+ nl +:+ nl
  /\ readable (wOpen w fullPath)
  /\ (forall lines u,
        content (wOpen w fullPath) = textOf lines u ->
        Forall plainLine (map fst lines) -> plainLine u ->
        fileLines (content (wOpen w fullPath))
        = map fst lines ++ match u with EmptyString => [] | _ => [u] end).
Proof.
  intros H. apply processFile_ok in H as (Hr & Ha & _).
  split; [exact Ha|]. split; [exact Hr|].
  intros lines u -> Hl Hu. now apply fileLines_textOf.
Qed.

Lemma processFile_transcribes_witness :
  accepted (fst (processFile Scenario.world (logger Scenario.config)
                   "/root/a.go" "a.go" (freshState "context.txt")))
  = accepted (freshState "context.txt")
    +:+ "## File: " +:+ "a.go" +:+ nl +:+ "```" +:+ nl
    +:+ joinLines ["package a"; "func A()"] +:+ "```" +:+ nl +:+ nl.
Proof.
  assert (processFile Scenario.world (logger Scenario.config)
            "/root/a.go" "a.go" (freshState "context.txt")
          = (fst (processFile Scenario.world (logger Scenario.config)
                    "/root/a.go" "a.go" (freshState "context.txt")), None)) as H
    by (vm_compute; reflexivity).
  exact (proj1 (processFile_transcribes _ _ _ _ _ _ H)).
Defined.

End Transcriber.

(** ** [filepath.WalkDir] *)

Module Walk.

(** *** Sorting by name *)

Lemma insertByName_map {A B : Type} (f : string -> A -> B) (x : string * A) l :
  insertByName (fst x, f (fst x) (snd x)) (map (fun e => (fst e, f (fst e) (snd e))) l)
  = map (fun e => (fst e, f (fst e) (snd e))) (insertByName x l).
Proof.
  induction l as [|y l IH]; simpl; [reflexivity|].
  destruct (String.leb (fst x) (fst y)); simpl; [reflexivity|]. now rewrite IH.
Qed.

(** Sorting commutes with a map that keeps the names. *)
Lemma sortByName_map {A B : Type} (f : string -> A -> B) (l : list (string * A)) :
  sortByName (map (fun e => (fst e, f (fst e) (snd e))) l)
  = map (fun e => (fst e, f (fst e) (snd e))) (sortByName l).
Proof.
  induction l as [|x l IH]; simpl; [reflexivity|].
  rewrite IH. apply (insertByName_map f x).
Qed.

Lemma insertByName_perm {A : Type} (x : string * A) l :
  Permutation (insertByName x l) (x :: l).
Proof.
  induction l as [|y l IH]; simpl; [reflexivity|].
  destruct (String.leb (fst x) (fst y)); [reflexivity|].
  rewrite IH. apply perm_swap.
Qed.

Lemma sortByName_perm {A : Type} (l : list (string * A)) :
  Permutation (sortByName l) l.
Proof.
  induction l as [|x l IH]; simpl; [reflexivity|].
  rewrite insertByName_perm. now constructor.
Qed.

Lemma Forall_sortByName {A : Type} (P : string * A -> Prop) l :
  Forall P l -> Forall P (sortByName l).
Proof.
  intros H. eapply Permutation_Forall; [|exact H].
  symmetry. apply sortByName_perm.
Qed.

Lemma pair_map_eta {A B : Type} (f : string -> A -> B) (l : list (string * A)) :
  map (fun '(name1, child) => (name1, f name1 child)) l
  = map (fun e => (fst e, f (fst e) (snd e))) l.
Proof. apply map_ext. now intros [? ?]. Qed.

Section Generic.
Context {S : Type}.
Variable fn : @WalkDirFunc S.
Variable prune : string -> bool.

(** The callback skips exactly the pruned directories, skips no file, and
    answers the report of an error with an error. *)
Hypothesis fn_dir :
  forall path s, isSkip (snd (fn path {| IsDir := true |} None s)) = prune path.
Hypothesis fn_file :
  forall path s, isSkip (snd (fn path {| IsDir := false |} None s)) = false.
Hypothesis fn_report :
  forall path d op p se s,
    exists e', snd (fn path d (Some (PathError op p se)) s) = Some e'
               /\ isSkipDir e' = false.
Hypothesis fn_no_skip_all :
  forall step s e,
    snd (fn (stepPath step) {| IsDir := stepIsDir step |} (errOf step) s) = Some e ->
    isSkipAll e = false.

Lemma runSteps_app (a b : list Step) (s : S) :
  runSteps fn (a ++ b) s
  = let '(s1, ret) := runSteps fn a s in
    match ret with None => runSteps fn b s1 | Some e => (s1, Some e) end.
Proof.
  revert s; induction a as [|step a IH]; intros s; simpl.
  - reflexivity.
  - destruct (fn _ _ _ s) as [s1 ret].
    destruct ret as [e|]; [destruct (isSkipDir e)|]; auto.
Qed.

(** A run of steps never ends with [SkipDir] or [SkipAll]. *)
Lemma runSteps_fatal (steps : list Step) (s s' : S) e :
  runSteps fn steps s = (s', Some e) -> isSkipDir e = false /\ isSkipAll e = false.
Proof.
  revert s; induction steps as [|step steps IH]; intros s; simpl; [discriminate|].
  destruct (fn _ _ _ s) as [s1 ret] eqn:Hf.
  destruct ret as [e1|]; [|apply IH].
  destruct (isSkipDir e1) eqn:Hs; [apply IH|].
  intros [= <- <-]. split; [assumption|].
  apply (fn_no_skip_all step s). now rewrite Hf.
Qed.

(** The loop over the entries makes the calls of their plans in order. *)
Lemma walkEntries_plan (path : string) (entries : list (string * Node)) (s : S) :
  Forall (fun e => forall p s0, walkDir fn p (snd e) s0 = runSteps fn (plan prune p (snd e)) s0)
         entries ->
  walkEntries (map (fun e => (fst e, walkDir fn (Join path (fst e)) (snd e))) entries) s
  = runSteps fn
      (concat (map snd (map (fun e => (fst e, plan prune (Join path (fst e)) (snd e)))
                            entries))) s.
Proof.
  intros H. revert s. induction H as [|[name1 child] entries Hx _ IH]; intros s.
  - reflexivity.
  - simpl in Hx |- *. rewrite runSteps_app, Hx.
    destruct (runSteps fn (plan prune (Join path name1) child) s) as [s1 ret] eqn:Hr.
    destruct ret as [e|]; [|apply IH].
    apply runSteps_fatal in Hr as [-> _]. reflexivity.
Qed.

(** [walkDir] makes the calls of the plan of its tree. *)
Theorem walkDir_plan (n : Node) :
  forall path s, walkDir fn path n s = runSteps fn (plan prune path n) s.
Proof.
  induction n as [|entries listErr IH] using Node_induction; intros path s.
  - simpl. unfold errOf. simpl. pose proof (fn_file path s) as Hs.
    destruct (fn path {| IsDir := false |} None s) as [s1 ret]. simpl in Hs.
    destruct ret as [e|]; [|reflexivity]. simpl in Hs. now rewrite Hs.
  - simpl. unfold errOf at 1. simpl. pose proof (fn_dir path s) as Hs.
    destruct (fn path {| IsDir := true |} None s) as [s1 ret]. simpl in Hs.
    destruct ret as [e|].
    + simpl in Hs. unfold afterSkip. destruct (isSkipDir e) eqn:He.
      * now rewrite <- Hs.
      * reflexivity.
    + rewrite <- Hs. simpl.
      rewrite (pair_map_eta (fun name1 child => walkDir fn (Join path name1) child)).
      rewrite (pair_map_eta (fun name1 child => plan prune (Join path name1) child)).
      rewrite (sortByName_map (fun name1 child => walkDir fn (Join path name1) child)).
      rewrite (sortByName_map (fun name1 child => plan prune (Join path name1) child)).
      destruct listErr as [le|].
      * simpl. unfold errOf, listError in *. simpl.
        destruct (fn_report path {| IsDir := true |} "open" path le s1)
          as (e' & He' & Hskip).
        destruct (fn path {| IsDir := true |} (Some (PathError "open" path le)) s1)
          as [s2 r2].
        simpl in He'. subst r2. unfold afterSkip. now rewrite Hskip.
      * apply walkEntries_plan. now apply Forall_sortByName.
Qed.

(** [WalkDir] makes the calls of the plan of the root. *)
Theorem WalkDir_plan (root : string) (lstat : syserr + Node) (s : S) :
  WalkDir fn root lstat s = runSteps fn (topPlan prune root lstat) s.
Proof.
  unfold WalkDir, topPlan. destruct lstat as [e|n].
  - simpl. unfold errOf. simpl.
    destruct (fn_report root {| IsDir := false |} "lstat" root e s)
      as (e' & He' & Hskip).
    pose proof (fn_no_skip_all
                  {| stepPath := root; stepIsDir := false; stepErr := Some ("lstat", e) |}
                  s e' He') as Hall.
    destruct (fn root {| IsDir := false |} (Some (PathError "lstat" root e)) s)
      as [s1 ret].
    simpl in He'. subst ret. now rewrite Hskip, Hall.
  - rewrite walkDir_plan.
    destruct (runSteps fn (plan prune root n) s) as [s1 ret] eqn:Hr.
    destruct ret as [e|]; [|reflexivity].
    apply runSteps_fatal in Hr as [-> ->]. reflexivity.
Qed.

End Generic.

End Walk.

(** ** The callback of [processDirectory] *)

Module Callback.
Import Str StrFacts Transcriber.

(** Every error of [processFile] is built by [fmt.Errorf]. *)
Lemma copyLines_error tokens n st st' n' e :
  copyLines tokens n st = (st', n', Some e) -> isSkipDir e = false /\ isSkipAll e = false.
Proof.
  revert n st; induction tokens as [|t tokens IH]; intros n st; simpl; [discriminate|].
  destruct (Fprint (t +:+ nl) st) as [st1 err].
  destruct err; [now intros [= _ _ <-]|apply IH].
Qed.

Lemma processFile_error w lg fullPath relPath st st' e :
  processFile w lg fullPath relPath st = (st', Some e) ->
  isSkipDir e = false /\ isSkipAll e = false.
Proof.
  unfold processFile. destruct (openErr _); [now intros [= _ <-]|].
  destruct (processFileBody _ _ _ _ _) as [st1 ret] eqn:Hb. intros [= _ ->].
  unfold processFileBody in Hb.
  destruct (Fprint _ _) as [stB err] in Hb.
  destruct err; [now injection Hb as _ <-|].
  destruct (Fprint _ stB) as [stC err] in Hb.
  destruct err; [now injection Hb as _ <-|].
  destruct (scanTokens _) as [tokens tooLong] in Hb.
  destruct (copyLines tokens 0 stC) as [[stD lineCount] err] eqn:HD in Hb.
  destruct err; [injection Hb as _ <-; eapply copyLines_error; eauto|].
  destruct (scannerErr _ _ _) in Hb; [now injection Hb as _ <-|].
  destruct (Fprint _ _) as [stE err] in Hb.
  destruct err; [now injection Hb as _ <-|discriminate].
Qed.

Lemma Rel_error basepath targpath e :
  Rel basepath targpath = inl e -> isSkipDir e = false /\ isSkipAll e = false.
Proof.
  unfold Rel. destruct (String.eqb targpath basepath); [discriminate|].
  destruct (HasPrefix _ _); [discriminate|]. now intros [= <-].
Qed.

Section Facts.
Variable w : World.
Variable config : Config.
Variable absPath : string.

Local Abbreviation fn := (walkFn w config absPath).

Lemma walkFn_dir path st :
  isSkip (snd (fn path {| IsDir := true |} None st)) = prunePath config absPath path.
Proof.
  unfold fn, walkFn, prunePath. destruct (Rel absPath path) eqn:HR; simpl.
  { now apply Rel_error in HR. }
  destruct (shouldExcludeDir _ _); reflexivity.
Qed.

Lemma walkFn_file path st :
  isSkip (snd (fn path {| IsDir := false |} None st)) = false.
Proof.
  unfold fn, walkFn. destruct (Rel absPath path) eqn:HR; simpl.
  { now apply Rel_error in HR. }
  destruct (shouldIncludeFile _ _); simpl; [|reflexivity].
  destruct (processFile _ _ _ _ _) as [st2 perr] eqn:Hp.
  destruct perr; simpl; [|reflexivity].
  now apply processFile_error in Hp.
Qed.

Lemma walkFn_report path d op p se st :
  exists e', snd (fn path d (Some (PathError op p se)) st) = Some e'
             /\ isSkipDir e' = false.
Proof. eexists. split; reflexivity. Qed.

Lemma walkFn_no_skip_all step st e :
  snd (fn (stepPath step) {| IsDir := stepIsDir step |} (errOf step) st) = Some e ->
  isSkipAll e = false.
Proof.
  unfold fn, walkFn, errOf. destruct (stepErr step) as [[op se]|]; simpl.
  { now intros [= <-]. }
  destruct (Rel absPath (stepPath step)) eqn:HR; simpl.
  { intros [= <-]. now apply Rel_error in HR. }
  destruct (stepIsDir step).
  - destruct (shouldExcludeDir _ _); simpl; [now intros [= <-]|discriminate].
  - destruct (shouldIncludeFile _ _); simpl; [|discriminate].
    destruct (processFile _ _ _ _ _) as [st2 perr] eqn:Hp.
    destruct perr; simpl; [|discriminate]. intros [= <-].
    now apply processFile_error in Hp.
Qed.

(** The counter grows by one exactly at the calls that transcribe. *)
Lemma walkFn_fileCount step st st' ret :
  fn (stepPath step) {| IsDir := stepIsDir step |} (errOf step) st = (st', ret) ->
  fileCount st' = fileCount st
                  + (if transcribes config (callOf step ret) then 1 else 0).
Proof.
  unfold fn, walkFn, transcribes, callOf. simpl.
  destruct (errOf step) as [e|]; simpl.
  { intros [= <- <-]. rewrite andb_false_r. simpl. lia. }
  destruct (Rel absPath (stepPath step)); simpl.
  { intros [= <- <-]. rewrite andb_false_r. simpl. lia. }
  destruct (stepIsDir step); simpl.
  - destruct (shouldExcludeDir _ _); intros [= <- <-]; simpl; lia.
  - destruct (shouldIncludeFile _ _) eqn:Hinc; simpl.
    + destruct (processFile _ _ _ _ _) as [st2 perr] eqn:Hp.
      apply processFile_fileCount in Hp. simpl in Hp.
      destruct perr; intros [= <- <-]; simpl; lia.
    + intros [= <- <-]. simpl. lia.
Qed.

(** A call that does not end the walk appends the section of its file, if
    it transcribes one, and nothing otherwise. *)
Lemma walkFn_accepted step st st' ret :
  fn (stepPath step) {| IsDir := stepIsDir step |} (errOf step) st = (st', ret) ->
  isFatal ret = false ->
  accepted st'
  = accepted st
    +:+ (if transcribes config (callOf step ret)
         then sectionOf w absPath (callOf step ret) else "").
Proof.
  unfold fn, walkFn, transcribes, sectionOf, callOf. simpl.
  destruct (errOf step) as [e|]; simpl.
  { intros [= <- <-] _. rewrite andb_false_r. simpl. now rewrite append_nil_r. }
  destruct (Rel absPath (stepPath step)) as [e|relPath]; simpl.
  { intros [= <- <-] _. rewrite andb_false_r. simpl. now rewrite append_nil_r. }
  destruct (stepIsDir step); simpl.
  - destruct (shouldExcludeDir _ _); intros [= <- <-] _; simpl;
      now rewrite append_nil_r.
  - destruct (shouldIncludeFile _ _) eqn:Hinc; simpl.
    + destruct (processFile _ _ _ _ _) as [st2 perr] eqn:Hp.
      destruct perr as [e|].
      * intros [= <- <-] Hf. simpl in Hf. apply processFile_error in Hp as [Hs _].
        rewrite Hs in Hf. discriminate.
      * intros [= <- <-] _. apply processFile_ok in Hp as (_ & Ha & _).
        simpl. exact Ha.
    + intros [= <- <-] _. simpl. now rewrite append_nil_r.
Qed.

End Facts.

End Callback.

(** ** Runs of the walk *)

Module RunFacts.
Import Str StrFacts Transcriber Callback.

Lemma stepOfCall_callOf step ret : stepOfCall (callOf step ret) = step.
Proof.
  destruct step as [p d [[op se]|]]; reflexivity.
Qed.

Section Generic.
Context {S : Type}.
Variable fn : @WalkDirFunc S.

(** The traced run of a list of steps is a run of the relation, and the
    trace grows by its calls. *)
Lemma runSteps_Run (steps : list Step) :
  forall s tr,
    exists cs s' r,
      runSteps (traced fn) steps (s, tr) = ((s', tr ++ cs), r)
      /\ Run fn steps s cs s' r.
Proof.
  induction steps as [|step rest IH]; intros s tr.
  - exists [], s, None. rewrite app_nil_r. split; [reflexivity|constructor].
  - simpl. unfold traced at 1. simpl.
    destruct (fn (stepPath step) {| IsDir := stepIsDir step |} (errOf step) s)
      as [s1 ret] eqn:Hf.
    change {| callPath := stepPath step; callIsDir := stepIsDir step;
              callErr := errOf step; callRet := ret |} with (callOf step ret).
    destruct (isFatal ret) eqn:Hfatal.
    + destruct ret as [e|]; [|discriminate]. simpl in Hfatal.
      apply negb_true_iff in Hfatal. rewrite Hfatal.
      exists [callOf step (Some e)], s1, (Some e).
      split; [reflexivity|]. now apply RunStop.
    + destruct (IH s1 (tr ++ [callOf step ret])) as (cs & s' & r & Hr & HR).
      exists (callOf step ret :: cs), s', r. split.
      * rewrite <- app_assoc in Hr. simpl in Hr.
        destruct ret as [e|]; [|exact Hr].
        simpl in Hfatal. apply negb_false_iff in Hfatal. now rewrite Hfatal.
      * eapply RunNext; eauto.
Qed.

(** The calls are those of the first steps, all steps when no error is
    returned. *)
Lemma Run_prefix steps s cs s' r :
  Run fn steps s cs s' r ->
  exists rest, steps = map stepOfCall cs ++ rest /\ (r = None -> rest = []).
Proof.
  induction 1 as [s|step rest s s1 s' ret r cs Hf Hfat HR [rest' [-> Hn]]
                 |step rest s s1 e Hf Hs].
  - exists []. auto.
  - exists rest'. simpl. now rewrite stepOfCall_callOf.
  - exists rest. simpl. rewrite stepOfCall_callOf. split; [reflexivity|discriminate].
Qed.

(** No call but the last returns an error that ends the walk; the last
    does exactly when the run returns an error, and that is the error. *)
Lemma Run_returns steps s cs s' r :
  Run fn steps s cs s' r ->
  match r with
  | None => Forall (fun c => isFatal (callRet c) = false) cs
  | Some e =>
      exists before c,
        cs = before ++ [c] /\ callRet c = Some e /\ isSkipDir e = false
        /\ Forall (fun c => isFatal (callRet c) = false) before
  end.
Proof.
  induction 1 as [s|step rest s s1 s' ret r cs Hf Hfat HR IH
                 |step rest s s1 e Hf Hs].
  - constructor.
  - destruct r as [e|].
    + destruct IH as (before & c & -> & Hc & He & HF).
      exists (callOf step ret :: before), c. repeat split; auto.
    + constructor; assumption.
  - exists [], (callOf step (Some e)). repeat split; auto.
Qed.

(** Every call of a run was made by the callback, for a step, in some
    state. *)
Lemma Run_call_made steps s cs s' r :
  Run fn steps s cs s' r ->
  Forall (fun c => exists step sa sb,
            c = callOf step (callRet c)
            /\ fn (stepPath step) {| IsDir := stepIsDir step |} (errOf step) sa
               = (sb, callRet c)) cs.
Proof.
  induction 1 as [s|step rest s s1 s' ret r cs Hf Hfat HR IH
                 |step rest s s1 e Hf Hs].
  - constructor.
  - constructor; [|assumption]. exists step, s, s1. split; [reflexivity|exact Hf].
  - constructor; [|constructor]. exists step, s, s1. split; [reflexivity|exact Hf].
Qed.

End Generic.

Section OfWalkFn.
Variable w : World.
Variable config : Config.
Variable absPath : string.

(** The counter counts the calls that transcribed a file. *)
Lemma Run_fileCount steps st cs st' r :
  Run (walkFn w config absPath) steps st cs st' r ->
  fileCount st' = fileCount st + length (List.filter (transcribes config) cs).
Proof.
  induction 1 as [s|step rest s s1 s' ret r cs Hf Hfat HR IH
                 |step rest s s1 e Hf Hs].
  - simpl. lia.
  - apply walkFn_fileCount in Hf. rewrite IH, Hf.
    cbn [List.filter]. destruct (transcribes config (callOf step ret)); simpl; lia.
  - apply walkFn_fileCount in Hf. rewrite Hf.
    cbn [List.filter]. destruct (transcribes config (callOf step (Some e))); simpl; lia.
Qed.

Lemma concat_cons_str (x : string) (l : list string) :
  String.concat "" (x :: l) = x +:+ String.concat "" l.
Proof. destruct l; simpl; [now rewrite append_nil_r|reflexivity]. Qed.

(** A run without error has written the sections of the files it
    transcribed, in the order of the calls. *)
Lemma Run_accepted steps st cs st' :
  Run (walkFn w config absPath) steps st cs st' None ->
  accepted st' = accepted st +:+ sectionsOf w config absPath cs.
Proof.
  intros H. remember None as r eqn:Hr.
  induction H as [s|step rest s s1 s' ret r cs Hf Hfat HR IH
                 |step rest s s1 e Hf Hs]; subst.
  - unfold sectionsOf. simpl. now rewrite append_nil_r.
  - apply walkFn_accepted in Hf; [|assumption].
    rewrite (IH eq_refl), Hf. unfold sectionsOf. cbn [List.filter].
    destruct (transcribes config (callOf step ret)).
    + cbn [map]. rewrite concat_cons_str. now rewrite !append_assoc.
    + now rewrite append_nil_r.
  - discriminate.
Qed.

(** The call of a failing step returns an error that ends the walk; the
    report of an error returns that error. *)
Lemma walkFn_failing (step : Step) sa sb ret :
  walkFn w config absPath (stepPath step) {| IsDir := stepIsDir step |}
         (errOf step) sa = (sb, ret) ->
  failingStep w config step ->
  isFatal ret = true /\ (errOf step <> None -> ret = errOf step).
Proof.
  unfold walkFn, failingStep, errOf. destruct step as [path d err]. simpl.
  destruct err as [[op se]|]; simpl.
  - intros [= _ <-] _. split; reflexivity.
  - intros Hf [H|(-> & Hinc & Hunread)]; [congruence|].
    split; [|congruence].
    destruct (Rel absPath path) as [e|relPath] eqn:HR.
    + injection Hf as _ <-. simpl. apply Rel_error in HR as [-> _]. reflexivity.
    + rewrite Hinc in Hf. simpl in Hf.
      destruct (processFile _ _ _ _ _) as [st2 perr] eqn:Hp.
      destruct perr as [e|].
      * injection Hf as _ <-. simpl.
        apply processFile_error in Hp as [-> _]. reflexivity.
      * apply processFile_ok in Hp as [Hr _]. contradiction.
Qed.

Lemma walkFn_keeps_unlimited path d err st :
  unlimited st -> unlimited (fst (walkFn w config absPath path d err st)).
Proof.
  intros Hu. unfold walkFn. destruct err; [exact Hu|].
  destruct (Rel absPath path); [exact Hu|].
  destruct (IsDir d).
  - destruct (shouldExcludeDir _ _); exact Hu.
  - destruct (shouldIncludeFile _ _); simpl; [|exact Hu].
    pose proof (processFile_keeps_unlimited w (logger config) path s
                  (logSt (logger config) LevelDebug "Processing file"
                     [("path", VString s)] st) Hu) as H.
    destruct (processFile _ _ _ _ _) as [st2 perr]. simpl in H.
    destruct perr; exact H.
Qed.

Lemma Run_keeps_unlimited steps st cs st' r :
  Run (walkFn w config absPath) steps st cs st' r -> unlimited st -> unlimited st'.
Proof.
  induction 1 as [s|step rest s s1 s' ret r cs Hf Hfat HR IH
                 |step rest s s1 e Hf Hs]; intros Hu.
  - exact Hu.
  - apply IH.
    pose proof (walkFn_keeps_unlimited (stepPath step) {| IsDir := stepIsDir step |}
                  (errOf step) s Hu) as H.
    now rewrite Hf in H.
  - pose proof (walkFn_keeps_unlimited (stepPath step) {| IsDir := stepIsDir step |}
                  (errOf step) s Hu) as H.
    now rewrite Hf in H.
Qed.

(** On a device that never fails the call of a safe step does not end the
    walk. *)
Lemma walkFn_safe (step : Step) st :
  unlimited st -> safeStep w config absPath step ->
  isFatal (snd (walkFn w config absPath (stepPath step)
                  {| IsDir := stepIsDir step |} (errOf step) st)) = false.
Proof.
  intros Hu (Herr & (relPath & HR) & Hkind).
  unfold walkFn, errOf. rewrite Herr, HR. simpl.
  destruct (stepIsDir step) eqn:Hd.
  - destruct (shouldExcludeDir _ _); reflexivity.
  - destruct (shouldIncludeFile _ _) eqn:Hinc; simpl; [|reflexivity].
    destruct Hkind as [H|[H|Hread]]; try discriminate.
    destruct (processFile_succeeds w (logger config) (stepPath step) relPath
                (logSt (logger config) LevelDebug "Processing file"
                   [("path", VString relPath)] st) Hread Hu) as (st' & -> & _).
    reflexivity.
Qed.

(** On a device that never fails a run stops exactly at the first failing
    step when the steps before it are safe. *)
Lemma Run_stops_at_failure pre step post st cs st' r :
  Run (walkFn w config absPath) (pre ++ step :: post) st cs st' r ->
  unlimited st ->
  Forall (safeStep w config absPath) pre ->
  failingStep w config step ->
  map stepOfCall cs = pre ++ [step].
Proof.
  revert st cs. induction pre as [|s0 pre IH]; intros st cs HR Hu Hsafe Hfail.
  - simpl in HR. inversion HR as [|? ? ? s1 ? ret ? cs' Hf Hfat HR'|? ? ? s1 e Hf Hs];
      subst.
    + destruct (walkFn_failing step st s1 ret Hf Hfail) as [Hfatal _]. congruence.
    + simpl. now rewrite stepOfCall_callOf.
  - inversion Hsafe as [|? ? Hs0 Hsafe']; subst. simpl in HR.
    pose proof (walkFn_safe s0 st Hu Hs0) as Hnf.
    inversion HR as [|? ? ? s1 ? ret ? cs' Hf Hfat HR'|? ? ? s1 e Hf Hs]; subst.
    + simpl. rewrite stepOfCall_callOf. f_equal.
      apply (IH s1 cs' HR'); [|assumption|assumption].
      pose proof (walkFn_keeps_unlimited (stepPath s0) {| IsDir := stepIsDir s0 |}
                    (errOf s0) st Hu) as H.
      now rewrite Hf in H.
    + rewrite Hf in Hnf. simpl in Hnf. rewrite Hs in Hnf. discriminate.
Qed.

(** The files of the calls that transcribe are readable. *)
Lemma Run_transcribes_readable steps st cs st' r :
  Run (walkFn w config absPath) steps st cs st' r ->
  Forall (fun c => readable (wOpen w (callPath c)))
         (List.filter (transcribes config) cs).
Proof.
  intros HR. apply Run_call_made in HR.
  apply List.Forall_forall. intros c Hc. apply filter_In in Hc as [Hin Htr].
  rewrite List.Forall_forall in HR.
  destruct (HR c Hin) as (step & sa & sb & Hc0 & Hf).
  unfold transcribes in Htr.
  apply andb_true_iff in Htr as [Htr Hinc]. apply andb_true_iff in Htr as [Htr Hret].
  apply andb_true_iff in Htr as [Hdir Herr].
  rewrite Hc0 in Hdir, Herr, Hinc |- *. simpl in Hdir, Herr, Hinc |- *.
  destruct (callRet c); [discriminate|]. clear Hret.
  unfold walkFn in Hf. destruct (errOf step); [discriminate|].
  destruct (Rel absPath (stepPath step)) as [e|relPath]; [discriminate|].
  apply negb_true_iff in Hdir. rewrite Hdir, Hinc in Hf. simpl in Hf.
  destruct (processFile _ _ _ _ _) as [st2 perr] eqn:Hp.
  destruct perr; [discriminate|].
  now apply processFile_ok in Hp as [Hr _].
Qed.

(** A call that does not end the walk leaves the writer without error when
    it had none: a failed write ends the walk. *)
Lemma walkFn_werr path d err st st' ret :
  walkFn w config absPath path d err st = (st', ret) ->
  isFatal ret = false -> werr (writer st) = None -> werr (writer st') = None.
Proof.
  unfold walkFn. destruct err; [now intros [= <- <-]|].
  destruct (Rel absPath path); [now intros [= <- <-]|].
  destruct (IsDir d).
  - destruct (shouldExcludeDir _ _); now intros [= <- <-].
  - destruct (shouldIncludeFile _ _); simpl; [|now intros [= <- <-]].
    destruct (processFile _ _ _ _ _) as [st2 perr] eqn:Hp.
    destruct perr as [e|].
    + intros [= <- <-] Hf. simpl in Hf.
      apply processFile_error in Hp as [Hs _]. rewrite Hs in Hf. discriminate.
    + intros [= <- <-] _ _. simpl. now apply processFile_ok_werr in Hp.
Qed.

Lemma Run_werr steps st cs st' :
  Run (walkFn w config absPath) steps st cs st' None ->
  werr (writer st) = None -> werr (writer st') = None.
Proof.
  intros H. remember None as r eqn:Hr.
  induction H as [s|step rest s s1 s' ret r cs Hf Hfat HR IH
                 |step rest s s1 e Hf Hs]; subst; intros Hw.
  - exact Hw.
  - apply (IH eq_refl). eapply walkFn_werr; eauto.
  - discriminate.
Qed.

(** In a run without error no step reports an error, and the calls that
    transcribe are those on the files with a wanted extension. *)
Lemma Run_success steps st cs st' :
  Run (walkFn w config absPath) steps st cs st' None ->
  Forall (fun step => stepErr step = None) steps
  /\ map callPath (List.filter (transcribes config) cs)
     = map stepPath
         (List.filter (fun step => negb (stepIsDir step)
                                   && shouldIncludeFile (stepPath step) (includeMap config))
                      steps).
Proof.
  intros H. remember None as r eqn:Hr.
  induction H as [s|step rest s s1 s' ret r cs Hf Hfat HR IH
                 |step rest s s1 e Hf Hs]; subst.
  - split; [constructor|reflexivity].
  - destruct (IH eq_refl) as [IH1 IH2].
    assert (stepErr step = None) as Herr.
    { destruct (stepErr step) as [oe|] eqn:E; [|reflexivity].
      destruct (walkFn_failing step s s1 ret Hf) as [Hfatal _].
      - left. congruence.
      - congruence. }
    split; [constructor; assumption|].
    cbn [List.filter]. unfold transcribes at 1. cbn [callOf callIsDir callErr callRet callPath].
    unfold errOf. rewrite Herr. cbn [option_map isNone].
    destruct (stepIsDir step) eqn:Hd; cbn [negb andb]; [exact IH2|].
    assert (ret = None) as ->.
    { pose proof (walkFn_file w config absPath (stepPath step) s) as Hskip.
      unfold errOf in Hf. rewrite Herr in Hf. rewrite ?Hd in Hf.
      cbn [option_map] in Hf.
      rewrite Hf in Hskip. simpl in Hskip.
      destruct ret as [e|]; [|reflexivity]. simpl in *.
      rewrite Hskip in Hfat. discriminate. }
    cbn [isNone andb].
    destruct (shouldIncludeFile (stepPath step) (includeMap config));
      cbn [map]; now rewrite IH2.
  - discriminate.
Qed.

End OfWalkFn.

End RunFacts.

(** ** [processDirectory] *)

Module Directory.
Import Str StrFacts Transcriber Callback RunFacts.

Lemma enabled_error lg : enabled lg LevelError = true.
Proof. unfold enabled. destruct (handlerLevel lg); reflexivity. Qed.

Lemma logTo_error lg m a l :
  logTo lg LevelError m a l = l ++ [{| level := LevelError; msg := m; attrs := a |}].
Proof. unfold logTo. now rewrite enabled_error. Qed.

Lemma traced_snd {S : Type} (fn : @WalkDirFunc S) path d err st :
  snd (traced fn path d err st) = snd (fn path d err (fst st)).
Proof. unfold traced. now destruct (fn path d err (fst st)). Qed.

Section Walked.
Variable w : World.
Variable config : Config.
Variable absPath : string.

(** The walk of [processDirectory] is a run of its plan. *)
Lemma walk_Run (st1 : State) :
  exists cs st2 r,
    WalkDir (traced (walkFn w config absPath)) absPath (wRoot w) (st1, [])
    = ((st2, cs), r)
    /\ Run (walkFn w config absPath) (walkPlan w config absPath) st1 cs st2 r.
Proof.
  rewrite (Walk.WalkDir_plan (traced (walkFn w config absPath))
             (prunePath config absPath)).
  - destruct (runSteps_Run (walkFn w config absPath)
                (walkPlan w config absPath) st1 []) as (cs & st2 & r & Hr & HR).
    exists cs, st2, r. split; [exact Hr|exact HR].
  - intros path st. rewrite traced_snd. apply walkFn_dir.
  - intros path st. rewrite traced_snd. apply walkFn_file.
  - intros path d op p se st. rewrite traced_snd. apply walkFn_report.
  - intros step st e. rewrite traced_snd. apply walkFn_no_skip_all.
Qed.

End Walked.

(** What a run of [processDirectory] is, once the output file exists: the
    header is written, the plan is run, and the deferred functions only add
    records to the log. *)
Theorem processDirectory_run (w : World) (config : Config) (log0 : list LogRecord)
    (absPath : string) :
  wAbs w = inr absPath -> wCreateErr w = None ->
  let o := processDirectory w config log0 in
  let st0 := initState w config log0 absPath in
  (exists st1 e,
      writeHeader absPath config st0 = (st1, Some e)
      /\ result o = Some (Errorf "failed to write header: " e)
      /\ calls o = [] /\ processed o = 0
      /\ output o = Some (wr (fst (Flush (writer st1))))
      /\ finalLogs o = logs st1 ++ deferredRecords (writer st1))
  \/ (exists st1 st2,
        writeHeader absPath config st0 = (st1, None)
        /\ Run (walkFn w config absPath) (walkPlan w config absPath)
               st1 (calls o) st2 (result o)
        /\ processed o = fileCount st2
        /\ output o = Some (wr (fst (Flush (writer st2))))
        /\ finalLogs o
           = match result o with
             | Some _ => logs st2
             | None => logTo (logger config) LevelInfo "Processing completed"
                         [("filesProcessed", VInt (fileCount st2))] (logs st2)
             end ++ deferredRecords (writer st2)).
Proof.
  intros Habs Hcreate o st0. subst o. unfold processDirectory.
  rewrite Habs, Hcreate. fold (initState w config log0 absPath). fold st0.
  unfold processDirectoryBody.
  destruct (writeHeader absPath config st0) as [st1 herr] eqn:Hh.
  destruct herr as [e|].
  - left. exists st1, e. split; [reflexivity|].
    assert (fileCount st1 = 0) as Hc
      by (apply writeAll_frame in Hh as [_ Hc]; exact Hc).
    unfold deferredRecords.
    destruct (Flush (writer st1)) as [b flushErr]. simpl.
    repeat split; try assumption.
    destruct flushErr as [fe|]; destruct (closeErr (wr b));
      rewrite ?logTo_error, <- ?app_assoc; simpl; now rewrite ?app_nil_r.
  - right.
    destruct (walk_Run w config absPath st1) as (cs & st2 & r & -> & HR).
    exists st1, st2. split; [reflexivity|].
    destruct r as [e|]; simpl.
    + unfold deferredRecords.
      destruct (Flush (writer st2)) as [b flushErr]. simpl.
      repeat split; try assumption.
      destruct flushErr as [fe|]; destruct (closeErr (wr b));
        rewrite ?logTo_error, <- ?app_assoc; simpl; now rewrite ?app_nil_r.
    + unfold deferredRecords.
      destruct (Flush (writer st2)) as [b flushErr]. simpl.
      repeat split; try assumption.
      destruct flushErr as [fe|]; destruct (closeErr (wr b));
        rewrite ?logTo_error, <- ?app_assoc; simpl; now rewrite ?app_nil_r.
Qed.

Lemma logTo_app lg lvl m a l : logTo lg lvl m a l = l ++ logTo lg lvl m a [].
Proof. unfold logTo. destruct (enabled lg lvl); [reflexivity|now rewrite app_nil_r]. Qed.

(** C8, the claim on the code: two runs return the same value, nil, and
    have transcribed two files and none; the returned value is not the
    count. *)
Lemma processDirectory_returns_no_count :
  result (processDirectory Scenario.world Scenario.config []) = None
  /\ result (processDirectory Scenario.world Scenario.configMd []) = None
  /\ processed (processDirectory Scenario.world Scenario.config []) = 2
  /\ processed (processDirectory Scenario.world Scenario.configMd []) = 0.
Proof. repeat split; vm_compute; reflexivity. Qed.

(** C8, amended: [processDirectory] returns only an error, nil when the
    run succeeds.  Its counter equals the number of calls that transcribed
    a file, those for which [processFile] returned nil, all of them on
    readable files, and when the run succeeds the counter is reported in
    the record "Processing completed" of the log. *)
Theorem processDirectory_count (w : World) (config : Config) (log0 : list LogRecord) :
  let o := processDirectory w config log0 in
  processed o = length (List.filter (transcribes config) (calls o))
  /\ Forall (fun c => readable (wOpen w (callPath c)))
            (List.filter (transcribes config) (calls o))
  /\ match result o with
     | None =>
         exists before after,
           finalLogs o
           = before
             ++ logTo (logger config) LevelInfo "Processing completed"
                  [("filesProcessed", VInt (processed o))] []
             ++ after
     | Some _ => True
     end.
Proof.
  intros o. subst o.
  destruct (wAbs w) as [e|absPath] eqn:Habs.
  { unfold processDirectory. rewrite Habs. simpl. auto. }
  destruct (wCreateErr w) as [e|] eqn:Hcreate.
  { unfold processDirectory. rewrite Habs, Hcreate. simpl. auto. }
  destruct (processDirectory_run w config log0 absPath Habs Hcreate)
    as [(st1 & e & Hh & -> & -> & -> & _)
       |(st1 & st2 & Hh & HR & -> & _ & Hlogs)].
  - simpl. auto.
  - apply writeAll_frame in Hh as [_ Hc1].
    pose proof (Run_transcribes_readable _ _ _ _ _ _ _ _ HR) as Hread.
    apply Run_fileCount in HR. rewrite Hc1 in HR. simpl in HR. split; [exact HR|].
    split; [exact Hread|].
    destruct (result (processDirectory w config log0)); [exact I|].
    exists (logs st2), (deferredRecords (writer st2)).
    rewrite Hlogs, logTo_app, <- app_assoc. reflexivity.
Qed.




(** The calls made before a failing step are not calls of it. *)
Lemma failing_not_before (w : World) (config : Config) (absPath : string)
    steps st cs st' r before c step :
  Run (walkFn w config absPath) steps st cs st' r ->
  cs = before ++ c ->
  Forall (fun c => isFatal (callRet c) = false) before ->
  failingStep w config step ->
  ~ In step (map stepOfCall before).
Proof.
  intros HR -> Hnf Hfail Hin.
  apply in_map_iff in Hin as (c0 & <- & Hin).
  apply Run_call_made in HR.
  rewrite List.Forall_forall in HR, Hnf.
  destruct (HR c0) as (step0 & sa & sb & Hc0 & Hf0);
    [apply in_or_app; now left|].
  rewrite Hc0, stepOfCall_callOf in Hfail.
  destruct (walkFn_failing w config absPath step0 sa sb _ Hf0 Hfail) as [Hfat _].
  rewrite (Hnf c0 Hin) in Hfat. discriminate.
Qed.

(** C6: when the walk comes to a node that fails, a directory that cannot
    be listed, a root that cannot be examined or a wanted file that cannot
    be opened or read, [processDirectory] returns an error: the error the
    last call of the callback returned.  No call before it returned an
    error, the calls stop at the failing node at the latest, so that no
    node after it is visited, and the files counted as transcribed all
    come before the last call.  The report of a system error returns that
    error.  When the nodes before the failing one are safe and the output
    device does not fail, the calls are exactly those up to the failing
    node. *)
Theorem walk_aborts_on_failure (w : World) (config : Config)
    (log0 : list LogRecord) (absPath : string)
    (pre post : list Step) (step : Step) :
  wAbs w = inr absPath -> wCreateErr w = None ->
  snd (writeHeader absPath config (initState w config log0 absPath)) = None ->
  walkPlan w config absPath = pre ++ step :: post ->
  failingStep w config step ->
  let o := processDirectory w config log0 in
  exists e before c,
    result o = Some e
    /\ calls o = before ++ [c]
    /\ callRet c = Some e /\ isSkipDir e = false
    /\ Forall (fun c => isFatal (callRet c) = false) before
    /\ (exists rest, pre ++ [step] = map stepOfCall (calls o) ++ rest)
    /\ processed o = length (List.filter (transcribes config) before)
    /\ (callErr c <> None -> callRet c = callErr c)
    /\ (wCapacity w = None -> Forall (safeStep w config absPath) pre ->
        map stepOfCall (calls o) = pre ++ [step]).
Proof.
  intros Habs Hcreate Hheader Hplan Hfail o. subst o.
  destruct (processDirectory_run w config log0 absPath Habs Hcreate)
    as [(st1 & e & Hh & _)|(st1 & st2 & Hh & HR & Hproc & _)].
  { rewrite Hh in Hheader. discriminate. }
  pose proof (Run_prefix _ _ _ _ _ _ HR) as (rest & Hsteps & Hnone).
  pose proof (Run_returns _ _ _ _ _ _ HR) as Hret.
  pose proof (Run_fileCount _ _ _ _ _ _ _ _ HR) as Hcount.
  assert (wCapacity w = None -> Forall (safeStep w config absPath) pre ->
          map stepOfCall (calls (processDirectory w config log0)) = pre ++ [step])
    as Hexact.
  { intros Hcap Hsafe. rewrite Hplan in HR.
    apply (Run_stops_at_failure w config absPath pre step post _ _ _ _ HR);
      [|assumption|assumption].
    assert (unlimited (initState w config log0 absPath)) as Hu0
      by (split; [exact Hcap|reflexivity]).
    destruct (writeAll_unlimited (headerLines absPath config) _ Hu0) as (st' & E & Hu).
    unfold writeHeader in Hh. rewrite E in Hh. now injection Hh as <-. }
  apply writeAll_frame in Hh as [_ Hc1]. rewrite Hc1 in Hcount. simpl in Hcount.
  rewrite Hplan in Hsteps.
  destruct (result (processDirectory w config log0)) as [e|].
  - destruct Hret as (before & c & Hcs & Hc & He & Hnf).
    exists e, before, c. rewrite Hcs in HR, Hsteps, Hcount, Hexact |- *.
    assert (~ In step (map stepOfCall before)) as Hnotin
      by (eapply failing_not_before; eauto).
    assert (callErr c <> None -> callRet c = callErr c) as Hreport.
    { apply Run_call_made in HR. rewrite List.Forall_forall in HR.
      destruct (HR c) as (step0 & sa & sb & Hc0 & Hf0);
        [apply in_or_app; right; now left|].
      intros Herr. rewrite Hc0 in Herr |- *. simpl in *.
      unfold errOf in *. destruct (stepErr step0) as [[op se]|]; [|simpl in *; congruence].
      simpl in *. unfold walkFn in Hf0. simpl in Hf0. congruence. }
    repeat split; try assumption; try reflexivity.
    + rewrite map_app in Hsteps. simpl in Hsteps. rewrite <- app_assoc in Hsteps.
      simpl in Hsteps. symmetry in Hsteps.
      apply app_eq_app in Hsteps as [l [[Hl1 Hl2]|[Hl1 Hl2]]].
      * destruct l as [|x l].
        -- rewrite app_nil_r in Hl1. simpl in Hl2. injection Hl2 as Hx _.
           exists []. rewrite map_app, app_nil_r. simpl. now rewrite Hl1, Hx.
        -- simpl in Hl2. injection Hl2 as Hx _. subst x.
           exfalso. apply Hnotin. rewrite Hl1. apply in_or_app. right. now left.
      * destruct l as [|x l].
        -- rewrite app_nil_r in Hl1. simpl in Hl2. injection Hl2 as Hx _.
           exists []. rewrite map_app, app_nil_r. simpl. now rewrite Hl1, Hx.
        -- simpl in Hl2. injection Hl2 as Hx _. subst x.
           exists (l ++ [step]). rewrite Hl1, map_app. simpl.
           now rewrite <- !app_assoc.
    + rewrite Hproc, Hcount, List.filter_app, length_app. simpl.
      unfold transcribes at 2. rewrite Hc. simpl.
      rewrite !andb_false_r. simpl. lia.
  - exfalso. rewrite (Hnone eq_refl), app_nil_r in Hsteps.
    assert (In step (map stepOfCall (calls (processDirectory w config log0))))
      as Hin by (rewrite <- Hsteps; apply in_or_app; right; now left).
    eapply (failing_not_before w config absPath _ _ _ _ _
              (calls (processDirectory w config log0)) []); eauto.
    now rewrite app_nil_r.
Qed.

Lemma walk_aborts_on_failure_witness :
  map stepOfCall (calls (processDirectory Scenario.lockedWorld Scenario.config []))
  = [ {| stepPath := "/root"; stepIsDir := true; stepErr := None |};
      {| stepPath := "/root/a.go"; stepIsDir := false; stepErr := None |};
      {| stepPath := "/root/b.txt"; stepIsDir := false; stepErr := None |};
      {| stepPath := "/root/node_modules"; stepIsDir := true; stepErr := None |};
      {| stepPath := "/root/sub"; stepIsDir := true; stepErr := None |} ]
    ++ [ {| stepPath := "/root/sub/c.go"; stepIsDir := false; stepErr := None |} ].
Proof.
  destruct (walk_aborts_on_failure Scenario.lockedWorld Scenario.config [] "/root"
              [ {| stepPath := "/root"; stepIsDir := true; stepErr := None |};
                {| stepPath := "/root/a.go"; stepIsDir := false; stepErr := None |};
                {| stepPath := "/root/b.txt"; stepIsDir := false; stepErr := None |};
                {| stepPath := "/root/node_modules"; stepIsDir := true; stepErr := None |};
                {| stepPath := "/root/sub"; stepIsDir := true; stepErr := None |} ]
              []
              {| stepPath := "/root/sub/c.go"; stepIsDir := false; stepErr := None |})
    as (e & before & c & _ & _ & _ & _ & _ & _ & _ & _ & Hexact).
  - reflexivity.
  - reflexivity.
  - vm_compute. reflexivity.
  - vm_compute. reflexivity.
  - right. split; [reflexivity|]. split; [vm_compute; reflexivity|].
    intros [Hopen _]. discriminate Hopen.
  - apply Hexact; [reflexivity|].
    repeat (apply List.Forall_cons || apply List.Forall_nil);
      (split; [reflexivity|]; split; [eexists; vm_compute; reflexivity|]).
    + left. reflexivity.
    + right. right. split; [reflexivity|]. split; [reflexivity|].
      repeat constructor; apply Nat.ltb_lt; vm_compute; reflexivity.
    + right. left. vm_compute. reflexivity.
    + left. reflexivity.
    + left. reflexivity.
Defined.

End Directory.

(** ** Positions *)

Module Positions.
Import StrFacts.

Lemma Join_cons (name1 : string) (names : list string) :
  Str.Join (name1 :: names) "/" = name1 +:+ joinTail names.
Proof.
  revert name1; induction names as [|n names IH]; intros name1.
  - simpl. now rewrite append_nil_r.
  - change (Str.Join (name1 :: n :: names) "/")
      with (name1 +:+ "/" +:+ Str.Join (n :: names) "/").
    rewrite IH. reflexivity.
Qed.

Lemma pathOf_long (names : list string) (p : string) :
  2 <= String.length p ->
  fold_left Join names p = p +:+ joinTail names.
Proof.
  revert p; induction names as [|n names IH]; intros p Hp; simpl.
  - now rewrite append_nil_r.
  - assert (Join p n = p +:+ "/" +:+ n) as ->.
    { unfold Join. destruct (String.eqb p "/") eqn:E; [|reflexivity].
      apply String.eqb_eq in E. subst p. simpl in Hp. lia. }
    rewrite IH.
    + now rewrite !append_assoc.
    + rewrite length_append. lia.
Qed.

Lemma pathOf_cons (absPath name1 : string) (names : list string) :
  name1 <> "" ->
  pathOf absPath (name1 :: names)
  = rootPrefix absPath +:+ Str.Join (name1 :: names) "/".
Proof.
  intros Hne. rewrite Join_cons. unfold pathOf. cbn [fold_left].
  assert (Join absPath name1 = rootPrefix absPath +:+ name1) as E.
  { unfold Join, rootPrefix. destruct (String.eqb absPath "/"); [reflexivity|].
    now rewrite append_assoc. }
  rewrite E, pathOf_long.
  - now rewrite append_assoc.
  - rewrite length_append. destruct name1; [congruence|]. simpl.
    unfold rootPrefix. destruct (String.eqb absPath "/") eqn:E1.
    + apply String.eqb_eq in E1. subst. simpl. lia.
    + rewrite length_append. simpl. lia.
Qed.

Lemma eqb_longer (a b : string) :
  String.length a <> String.length b -> String.eqb a b = false.
Proof. intros H. apply String.eqb_neq. intros ->. congruence. Qed.

(** On the paths of the walk [filepath.Rel] gives the names joined. *)
Lemma Rel_pathOf (absPath : string) (pos : list string) :
  Forall (fun name1 => name1 <> "") pos ->
  Rel absPath (pathOf absPath pos) = inr (relOf pos).
Proof.
  intros Hpos. destruct pos as [|name1 names].
  - unfold Rel, pathOf. simpl. now rewrite String.eqb_refl.
  - inversion Hpos as [|? ? Hne _]; subst.
    rewrite (pathOf_cons absPath name1 names Hne). unfold Rel.
    rewrite eqb_longer.
    + fold (rootPrefix absPath). unfold Str.HasPrefix.
      rewrite prefix_append, drop_append. reflexivity.
    + rewrite length_append, Join_cons, length_append.
      destruct name1; [congruence|]. simpl.
      unfold rootPrefix. destruct (String.eqb absPath "/");
        rewrite ?length_append; simpl; lia.
Qed.

Lemma prunePath_pathOf (config : Config) (absPath : string) (pos : list string) :
  Forall (fun name1 => name1 <> "") pos ->
  prunePath config absPath (pathOf absPath pos) = excludedDir config pos.
Proof. intros H. unfold prunePath. now rewrite Rel_pathOf. Qed.

Lemma pathOf_snoc absPath pos name1 :
  pathOf absPath (pos ++ [name1]) = Join (pathOf absPath pos) name1.
Proof. unfold pathOf. now rewrite fold_left_app. Qed.

(** The sorted entries with a function applied to each. *)
Lemma children_sorted {B : Type} (f : string -> Node -> B)
    (entries : list (string * Node)) :
  map snd (sortByName (map (fun '(name1, child) => (name1, f name1 child)) entries))
  = map (fun e => f (fst e) (snd e)) (sortByName entries).
Proof.
  rewrite (Walk.pair_map_eta f), (Walk.sortByName_map f), map_map. reflexivity.
Qed.

Lemma nonEmptyNames_entries entries listErr :
  nonEmptyNames (Dir entries listErr) = true ->
  Forall (fun e => fst e <> "" /\ nonEmptyNames (snd e) = true) entries.
Proof.
  simpl. intros H. apply List.Forall_forall. intros e He.
  rewrite forallb_forall in H. specialize (H e He).
  apply andb_true_iff in H as [H1 H2]. split; [|assumption].
  apply negb_true_iff, String.eqb_neq in H1. assumption.
Qed.

(** The plan of the walk is the plan on positions, read as paths. *)
Lemma plan_planPos (config : Config) (absPath : string) (n : Node) :
  forall pos,
    nonEmptyNames n = true ->
    Forall (fun name1 => name1 <> "") pos ->
    plan (prunePath config absPath) (pathOf absPath pos) n
    = map (toStep absPath) (planPos config pos n).
Proof.
  induction n as [|entries listErr IH] using Node_induction; intros pos Hn Hpos.
  - reflexivity.
  - apply nonEmptyNames_entries in Hn.
    cbn [plan planPos]. rewrite (prunePath_pathOf config absPath pos Hpos).
    cbn [map]. f_equal.
    destruct (excludedDir config pos); [reflexivity|].
    destruct listErr as [le|]; [reflexivity|].
    rewrite (children_sorted (fun name1 child => plan _ (Join (pathOf absPath pos) name1) child)).
    rewrite (children_sorted (fun name1 child => planPos config (pos ++ [name1]) child)).
    assert (Forall (fun e => (forall pos, nonEmptyNames (snd e) = true ->
                                Forall (fun name1 => name1 <> "") pos ->
                                plan (prunePath config absPath) (pathOf absPath pos) (snd e)
                                = map (toStep absPath) (planPos config pos (snd e)))
                             /\ fst e <> "" /\ nonEmptyNames (snd e) = true)
                   (sortByName entries)) as HF.
    { apply Walk.Forall_sortByName. rewrite List.Forall_forall in IH, Hn |- *.
      intros e He. split; [apply IH|apply Hn]; assumption. }
    induction HF as [|e l (He & Hne & Hv) _ IHl]; [reflexivity|].
    cbn [map concat]. rewrite map_app, <- IHl. f_equal.
    rewrite <- pathOf_snoc. apply He; [assumption|].
    apply List.Forall_app. split; [assumption|]. now constructor.
Qed.

Lemma filter_map_comm {A B : Type} (f : A -> B) (p : B -> bool) (l : list A) :
  List.filter p (map f l) = map f (List.filter (fun x => p (f x)) l).
Proof.
  induction l as [|x l IH]; simpl; [reflexivity|].
  destruct (p (f x)); simpl; now rewrite IH.
Qed.

Lemma filter_none {A : Type} (p : A -> bool) (l : list A) :
  Forall (fun x => p x = false) l -> List.filter p l = [].
Proof. induction 1 as [|x l Hx _ IH]; simpl; [reflexivity|]. now rewrite Hx. Qed.

Lemma nodesOf_dir entries listErr :
  nodesOf (Dir entries listErr)
  = [] :: concat (map (fun e => map (cons (fst e)) (nodesOf (snd e)))
                      (sortByName entries)).
Proof.
  cbn [nodesOf].
  now rewrite (children_sorted (fun name1 child => map (cons name1) (nodesOf child))).
Qed.

Lemma filesOf_dir entries listErr :
  filesOf (Dir entries listErr)
  = concat (map (fun e => map (cons (fst e)) (filesOf (snd e)))
                (sortByName entries)).
Proof.
  cbn [filesOf].
  now rewrite (children_sorted (fun name1 child => map (cons name1) (filesOf child))).
Qed.

Lemma planPos_dir config pos entries listErr :
  planPos config pos (Dir entries listErr)
  = (pos, true, None)
    :: (if excludedDir config pos then []
        else match listErr with
             | Some le => [(pos, true, Some le)]
             | None =>
                 concat (map (fun e => planPos config (pos ++ [fst e]) (snd e))
                             (sortByName entries))
             end).
Proof.
  cbn [planPos].
  now rewrite (children_sorted (fun name1 child => planPos config (pos ++ [name1]) child)).
Qed.

Section Filtering.
Variable config : Config.

(** Every step of the plan is at a node of the tree that does not lie under
    an excluded directory. *)
Lemma planPos_sound (n : Node) :
  forall pos,
    Forall (fun x => exists rest,
              fst (fst x) = pos ++ rest /\ In rest (nodesOf n)
              /\ underExcludedFrom config pos rest = false)
           (planPos config pos n).
Proof.
  induction n as [|entries listErr IH] using Node_induction; intros pos.
  - constructor; [|constructor]. exists []. simpl. rewrite app_nil_r. auto.
  - rewrite planPos_dir, nodesOf_dir.
    assert (exists rest, pos = pos ++ rest
                         /\ In rest ([] :: concat (map (fun e => map (cons (fst e)) (nodesOf (snd e)))
                                                       (sortByName entries)))
                         /\ underExcludedFrom config pos rest = false) as Hroot.
    { exists []. rewrite app_nil_r. simpl. auto. }
    constructor; [exact Hroot|].
    destruct (excludedDir config pos) eqn:Hex; [constructor|].
    destruct listErr as [le|]; [constructor; [exact Hroot|constructor]|].
    apply Walk.Forall_sortByName in IH. clear Hroot.
    induction IH as [|e l He _ IHl]; [constructor|].
    cbn [map concat]. apply List.Forall_app. split.
    + specialize (He (pos ++ [fst e])).
      eapply List.Forall_impl; [|exact He].
      intros x (rest & Hx & Hin & Hu). exists (fst e :: rest).
      rewrite Hx, <- app_assoc. split; [reflexivity|]. split.
      * right. apply in_or_app. left. now apply in_map.
      * simpl. now rewrite Hex, Hu.
    + eapply List.Forall_impl; [|exact IHl].
      intros x (rest & Hx & Hin & Hu). exists rest.
      split; [assumption|]. split; [|assumption].
      destruct Hin as [<-|Hin]; [now left|].
      right. apply in_or_app. now right.
Qed.

Lemma filesOf_dir_cons entries listErr :
  Forall (fun rest => exists name1 r, rest = name1 :: r)
         (filesOf (Dir entries listErr)).
Proof.
  rewrite filesOf_dir. induction (sortByName entries) as [|e l IH]; [constructor|].
  cbn [map concat]. apply List.Forall_app. split; [|assumption].
  apply List.Forall_forall. intros x Hx. apply in_map_iff in Hx as (r & <- & _). eauto.
Qed.

(** When no step of the plan reports an error, the files of the plan are
    the files of the tree that do not lie under an excluded directory, in
    the same order. *)
Lemma planPos_files (n : Node) :
  forall pos,
    Forall (fun x => snd x = None) (planPos config pos n) ->
    map (fun x => fst (fst x))
        (List.filter (fun x => negb (snd (fst x))) (planPos config pos n))
    = map (app pos)
          (List.filter (fun rest => negb (underExcludedFrom config pos rest))
                       (filesOf n)).
Proof.
  induction n as [|entries listErr IH] using Node_induction; intros pos Hok.
  - simpl. now rewrite app_nil_r.
  - rewrite planPos_dir in Hok |- *. cbn [List.filter fst snd negb map].
    inversion Hok as [|? ? _ Htail]; subst. clear Hok.
    destruct (excludedDir config pos) eqn:Hex.
    + rewrite (filter_none (fun rest => negb (underExcludedFrom config pos rest))
                 (filesOf (Dir entries listErr))); [reflexivity|].
      eapply List.Forall_impl; [|apply filesOf_dir_cons].
      intros rest (name1 & r & ->). simpl. now rewrite Hex.
    + destruct listErr as [le|].
      { inversion Htail as [|? ? Hle _]; subst. discriminate Hle. }
      rewrite filesOf_dir. apply Walk.Forall_sortByName in IH.
      induction IH as [|e l He _ IHl]; [reflexivity|].
      cbn [map concat] in Htail |- *. apply List.Forall_app in Htail as [Hh Ht].
      rewrite !List.filter_app, !map_app, (IHl Ht), (He _ Hh). f_equal.
      rewrite filter_map_comm, !map_map.
      assert (List.filter (fun x => negb (underExcludedFrom config pos (fst e :: x)))
                          (filesOf (snd e))
              = List.filter (fun rest => negb (underExcludedFrom config (pos ++ [fst e]) rest))
                            (filesOf (snd e))) as ->.
      { apply List.filter_ext. intros r. simpl. now rewrite Hex. }
      apply map_ext. intros r. now rewrite <- app_assoc.
Qed.

End Filtering.

End Positions.

(** ** TreeWalker: what a run visits and transcribes *)

Module TreeWalk.
Import StrFacts Transcriber Callback RunFacts Directory Positions.

Lemma filter_andb {A : Type} (p q : A -> bool) (l : list A) :
  List.filter (fun x => p x && q x) l = List.filter q (List.filter p l).
Proof.
  induction l as [|x l IH]; simpl; [reflexivity|].
  destruct (p x); simpl; [destruct (q x)|]; now rewrite IH.
Qed.

Lemma filesOf_names (n : Node) :
  nonEmptyNames n = true ->
  Forall (Forall (fun name1 => name1 <> "")) (filesOf n).
Proof.
  induction n as [|entries listErr IH] using Node_induction; intros Hn.
  - repeat constructor.
  - apply nonEmptyNames_entries in Hn. rewrite filesOf_dir.
    assert (Forall (fun e => (nonEmptyNames (snd e) = true ->
                              Forall (Forall (fun name1 => name1 <> "")) (filesOf (snd e)))
                             /\ fst e <> "" /\ nonEmptyNames (snd e) = true)
                   (sortByName entries)) as HF.
    { apply Walk.Forall_sortByName. rewrite List.Forall_forall in IH, Hn |- *.
      intros e He. split; [apply IH|apply Hn]; assumption. }
    induction HF as [|e l (He & Hne & Hv) _ IHl]; [constructor|].
    cbn [map concat]. apply List.Forall_app. split; [|assumption].
    apply List.Forall_map. eapply List.Forall_impl; [|exact (He Hv)].
    intros pos Hpos. now constructor.
Qed.

(** *** Different files have different paths *)

Lemma distinct_NoDup (names : list string) : distinct names = true -> List.NoDup names.
Proof.
  induction names as [|x names IH]; simpl; intros H; [constructor|].
  apply andb_true_iff in H as [Hx Hr]. constructor; [|auto].
  intros Hin. apply negb_true_iff in Hx.
  assert (existsb (String.eqb x) names = true) as E
    by (apply existsb_exists; exists x; split; [assumption|apply String.eqb_refl]).
  congruence.
Qed.

Lemma wellNamed_entries entries listErr :
  wellNamed (Dir entries listErr) = true ->
  List.NoDup (map fst entries)
  /\ Forall (fun e => fst e <> "" /\ Str.contains Separator (fst e) = false
                      /\ wellNamed (snd e) = true) entries.
Proof.
  simpl. intros H. apply andb_true_iff in H as [Hd Hf].
  split; [now apply distinct_NoDup|].
  apply List.Forall_forall. intros e He.
  rewrite forallb_forall in Hf. specialize (Hf e He).
  apply andb_true_iff in Hf as [Hf H3]. apply andb_true_iff in Hf as [H1 H2].
  apply negb_true_iff in H1, H2. apply String.eqb_neq in H1. auto.
Qed.

Lemma wellNamed_nonEmptyNames (n : Node) :
  wellNamed n = true -> nonEmptyNames n = true.
Proof.
  induction n as [|entries listErr IH] using Node_induction; intros H; [reflexivity|].
  apply wellNamed_entries in H as [_ HF]. simpl. apply forallb_forall.
  intros e He. rewrite List.Forall_forall in IH, HF.
  destruct (HF e He) as (H1 & _ & H3).
  apply andb_true_iff. split; [|now apply IH].
  now apply negb_true_iff, String.eqb_neq.
Qed.

(** The files of a well-named tree are at different positions, made of
    names without separator. *)
Lemma filesOf_wellNamed (n : Node) :
  wellNamed n = true ->
  List.NoDup (filesOf n)
  /\ Forall (Forall (fun name1 => name1 <> "" /\ Str.contains Separator name1 = false))
            (filesOf n).
Proof.
  induction n as [|entries listErr IH] using Node_induction; intros Hn.
  - split; repeat constructor. intros [].
  - apply wellNamed_entries in Hn as [Hnd HF]. rewrite filesOf_dir.
    assert (List.NoDup (map fst (sortByName entries))) as Hnd'.
    { eapply Permutation.Permutation_NoDup; [|exact Hnd].
      apply Permutation_map. symmetry. apply Walk.sortByName_perm. }
    assert (Forall (fun e => (wellNamed (snd e) = true ->
                              List.NoDup (filesOf (snd e))
                              /\ Forall (Forall (fun name1 => name1 <> ""
                                                   /\ Str.contains Separator name1 = false))
                                        (filesOf (snd e)))
                             /\ fst e <> "" /\ Str.contains Separator (fst e) = false
                             /\ wellNamed (snd e) = true)
                   (sortByName entries)) as H.
    { apply Walk.Forall_sortByName. rewrite List.Forall_forall in IH, HF |- *.
      intros e He. split; [apply IH|apply HF]; assumption. }
    clear IH HF Hnd. induction H as [|e l (He & H1 & H2 & H3) _ IHl].
    + split; constructor.
    + inversion Hnd' as [|? ? Hnotin Hnd'']; subst.
      destruct (IHl Hnd'') as [IHa IHb]. destruct (He H3) as [Ha Hb].
      cbn [map concat]. split.
      * apply List.NoDup_app; [|exact IHa|].
        -- apply Finite.Injective_map_NoDup; [|exact Ha]. now intros ? ? [= ->].
        -- intros x Hx Hx'. apply in_map_iff in Hx as (r & <- & _).
           apply in_concat in Hx' as (part & Hpart & Hx').
           apply in_map_iff in Hpart as (e' & <- & He').
           apply in_map_iff in Hx' as (r' & Heq & _). injection Heq as Hname _.
           apply Hnotin. rewrite <- Hname. now apply in_map.
      * apply List.Forall_app. split; [|exact IHb].
        apply List.Forall_map. eapply List.Forall_impl; [|exact Hb].
        intros pos Hpos. constructor; auto.
Qed.

Lemma Split_piece (sep : ascii) (l rest : string) :
  Str.contains sep l = false ->
  Str.Split (l +:+ String sep rest) sep = l :: Str.Split rest sep.
Proof.
  induction l as [|c l IH]; sapp; simpl; intros H.
  - now rewrite Ascii.eqb_refl.
  - apply orb_false_iff in H as [Hc Hl]. rewrite Hc, (IH Hl). reflexivity.
Qed.

(** Splitting the joined names gives the names back. *)
Lemma Split_Join (names : list string) :
  names <> [] ->
  Forall (fun name1 => Str.contains Separator name1 = false) names ->
  Str.Split (Str.Join names "/") Separator = names.
Proof.
  induction names as [|x names IH]; intros Hne HF; [congruence|].
  inversion HF as [|? ? Hx HF']; subst.
  destruct names as [|y names].
  - simpl. now apply Split_no_sep.
  - change (Str.Join (x :: y :: names) "/")
      with (x +:+ String Separator (Str.Join (y :: names) "/")).
    rewrite Split_piece by assumption. f_equal. apply IH; [discriminate|assumption].
Qed.

(** Positions of names without separator have different paths. *)
Lemma pathOf_inj (absPath : string) (p q : list string) :
  Forall (fun name1 => name1 <> "" /\ Str.contains Separator name1 = false) p ->
  Forall (fun name1 => name1 <> "" /\ Str.contains Separator name1 = false) q ->
  pathOf absPath p = pathOf absPath q -> p = q.
Proof.
  intros Hp Hq E.
  assert (forall (r : list string),
             Forall (fun name1 => name1 <> "" /\ Str.contains Separator name1 = false) r ->
             r <> [] ->
             pathOf absPath r = rootPrefix absPath +:+ Str.Join r "/"
             /\ Str.Split (Str.Join r "/") Separator = r
             /\ String.length absPath < String.length (pathOf absPath r)) as Hform.
  { intros [|x r] Hr Hne; [congruence|]. inversion Hr as [|? ? [Hx _] _]; subst.
    rewrite (pathOf_cons absPath x r Hx). split; [reflexivity|]. split.
    - apply Split_Join; [discriminate|].
      eapply List.Forall_impl; [|exact Hr]. now intros ? [_ ?].
    - rewrite length_append, Join_cons, length_append.
      destruct x; [congruence|]. simpl. unfold rootPrefix.
      destruct (String.eqb absPath "/"); rewrite ?length_append; simpl; lia. }
  destruct p as [|x p], q as [|y q]; [reflexivity| | |].
  - destruct (Hform (y :: q) Hq) as (_ & _ & Hlen); [discriminate|].
    rewrite <- E in Hlen. simpl in Hlen. lia.
  - destruct (Hform (x :: p) Hp) as (_ & _ & Hlen); [discriminate|].
    rewrite E in Hlen. simpl in Hlen. lia.
  - destruct (Hform (x :: p) Hp) as (E1 & S1 & _); [discriminate|].
    destruct (Hform (y :: q) Hq) as (E2 & S2 & _); [discriminate|].
    rewrite E1, E2 in E. apply String.app_inj in E.
    rewrite <- S1, <- S2. now rewrite E.
Qed.

Lemma NoDup_map_filter {A B : Type} (f : A -> B) (p : A -> bool) (l : list A) :
  List.NoDup (map f l) -> List.NoDup (map f (List.filter p l)).
Proof.
  induction l as [|x l IH]; simpl; intros H; [constructor|].
  inversion H as [|? ? Hnotin Hnd]; subst.
  destruct (p x); [|auto]. simpl. constructor; [|auto].
  intros Hin. apply Hnotin. apply in_map_iff in Hin as (y & Hy & Hin).
  apply filter_In in Hin as [Hin _]. apply in_map_iff. eauto.
Qed.

(** The selected files of a well-named tree have different paths. *)
Lemma selectedFiles_NoDup (config : Config) (absPath : string) (tree : Node) :
  wellNamed tree = true ->
  List.NoDup (map (pathOf absPath) (selectedFiles config absPath tree)).
Proof.
  intros Hwn. destruct (filesOf_wellNamed tree Hwn) as [Hnd Hnames].
  unfold selectedFiles. apply NoDup_map_filter.
  rewrite List.Forall_forall in Hnames.
  apply Finite.Injective_map_NoDup_in; [|exact Hnd].
  intros p q Hp Hq E. apply (pathOf_inj absPath); auto.
Qed.

Lemma sections_of_positions (w : World) (absPath : string)
    (cs : list Call) (poss : list (list string)) :
  map callPath cs = map (pathOf absPath) poss ->
  Forall (Forall (fun name1 => name1 <> "")) poss ->
  map (sectionOf w absPath) cs
  = map (fun pos => fileSection (relOf pos) (content (wOpen w (pathOf absPath pos))))
        poss.
Proof.
  revert poss; induction cs as [|c cs IH]; intros [|pos poss] Hmap Hvalid;
    try discriminate; [reflexivity|].
  injection Hmap as Hc Hcs. inversion Hvalid; subst.
  cbn [map]. rewrite (IH poss) by assumption. f_equal.
  unfold sectionOf. rewrite Hc, Rel_pathOf by assumption. reflexivity.
Qed.

Section Run.
Variable w : World.
Variable config : Config.
Variable log0 : list LogRecord.
Variable absPath : string.
Variable tree : Node.
Hypothesis Habs : wAbs w = inr absPath.
Hypothesis Hcreate : wCreateErr w = None.
Hypothesis Hroot : wRoot w = inr tree.
Hypothesis Hnames : nonEmptyNames tree = true.

Local Abbreviation o := (processDirectory w config log0).

Lemma walkPlan_positions :
  walkPlan w config absPath = map (toStep absPath) (planPos config [] tree).
Proof.
  unfold walkPlan, topPlan. rewrite Hroot.
  apply (plan_planPos config absPath tree [] Hnames). constructor.
Qed.

(** Every call is on a node of the tree that does not lie under an excluded
    directory. *)
Lemma calls_not_under_excluded :
  Forall (fun c => exists pos,
            callPath c = pathOf absPath pos /\ In pos (nodesOf tree)
            /\ underExcluded config pos = false) (calls o).
Proof.
  destruct (processDirectory_run w config log0 absPath Habs Hcreate)
    as [(st1 & e & _ & _ & Hc & _)|(st1 & st2 & _ & HR & _)].
  { rewrite Hc. constructor. }
  apply Run_prefix in HR as (rest & Hsteps & _).
  rewrite walkPlan_positions in Hsteps.
  apply List.Forall_forall. intros c Hc.
  assert (In (stepOfCall c) (map (toStep absPath) (planPos config [] tree))) as Hin.
  { rewrite Hsteps. apply in_or_app. left. now apply in_map. }
  apply in_map_iff in Hin as (x & Hx & Hin).
  pose proof (planPos_sound config tree []) as Hs.
  rewrite List.Forall_forall in Hs. destruct (Hs x Hin) as (rest' & Hpos & Hnode & Hu).
  exists rest'. simpl in Hpos. rewrite <- Hpos.
  split; [|split; [now rewrite <- Hpos in Hnode|now rewrite <- Hpos in Hu]].
  change (callPath c) with (stepPath (stepOfCall c)). now rewrite <- Hx.
Qed.

(** A successful run has transcribed exactly the selected files of the
    tree, in pre-order. *)
Lemma success_transcribes_selected :
  result o = None ->
  map callPath (List.filter (transcribes config) (calls o))
  = map (pathOf absPath) (selectedFiles config absPath tree).
Proof.
  intros Hres.
  destruct (processDirectory_run w config log0 absPath Habs Hcreate)
    as [(st1 & e & _ & He & _)|(st1 & st2 & _ & HR & _)].
  { congruence. }
  rewrite Hres in HR. apply Run_success in HR as [Herr Htr].
  rewrite Htr, walkPlan_positions. rewrite walkPlan_positions in Herr.
  rewrite filter_map_comm, map_map.
  cbn [toStep stepPath stepIsDir].
  rewrite (filter_andb (fun x => negb (snd (fst x)))
             (fun x => shouldIncludeFile (pathOf absPath (fst (fst x))) (includeMap config))).
  rewrite <- (map_map (fun x => fst (fst x)) (pathOf absPath)).
  rewrite <- (filter_map_comm (fun x : list string * bool * option syserr => fst (fst x))
                (fun pos => shouldIncludeFile (pathOf absPath pos) (includeMap config))).
  rewrite (planPos_files config tree []).
  - rewrite map_id. unfold selectedFiles.
    rewrite (filter_andb (fun pos => negb (underExcluded config pos))). reflexivity.
  - apply List.Forall_map in Herr. eapply List.Forall_impl; [|exact Herr].
    intros x Hx. simpl in Hx. destruct (snd x); [discriminate|reflexivity].
Qed.

(** On a device that never fails, a successful run leaves the header and
    the sections of the selected files in the output file. *)
Lemma success_output :
  result o = None -> wCapacity w = None ->
  exists out, output o = Some out
              /\ data out = expectedOutput w config absPath tree.
Proof.
  intros Hres Hcap.
  pose proof (success_transcribes_selected Hres) as Hsel.
  destruct (processDirectory_run w config log0 absPath Habs Hcreate)
    as [(st1 & e & _ & He & _)|(st1 & st2 & Hh & HR & _ & Hout & _)].
  { congruence. }
  rewrite Hres in HR.
  assert (unlimited (initState w config log0 absPath)) as Hu0
    by (split; [exact Hcap|reflexivity]).
  assert (unlimited st1) as Hu1.
  { destruct (writeAll_unlimited (headerLines absPath config) _ Hu0) as (st' & E & Hu).
    unfold writeHeader in Hh. rewrite E in Hh. now injection Hh as <-. }
  pose proof (Run_keeps_unlimited _ _ _ _ _ _ _ _ HR Hu1) as [Hc2 He2].
  destruct (WriterFacts.Flush_unlimited (writer st2) Hc2 He2) as (b' & Hf & _).
  rewrite Hf in Hout. simpl in Hout. exists (wr b'). split; [exact Hout|].
  apply WriterFacts.Flush_ok in Hf as (_ & _ & Hst & Hbuf).
  unfold stream in Hst. rewrite Hbuf, append_nil_r in Hst. rewrite Hst.
  fold (stream (writer st2)). fold (accepted st2).
  rewrite (Run_accepted _ _ _ _ _ _ _ HR).
  apply writeAll_ok in Hh as (Ha1 & _). rewrite Ha1.
  unfold expectedOutput. f_equal. unfold sectionsOf.
  rewrite (sections_of_positions w absPath _ _ Hsel); [reflexivity|].
  unfold selectedFiles. apply List.Forall_forall. intros pos Hpos.
  apply filter_In in Hpos as [Hpos _].
  pose proof (filesOf_names tree Hnames) as HF.
  rewrite List.Forall_forall in HF. now apply HF.
Qed.

End Run.

(** C1: in every run the callback is called only on nodes that do not lie
    under an excluded directory, so nothing below an excluded directory is
    visited or transcribed, and every transcribed file has an extension of
    the inclusion list when that list is not empty.  When the run returns
    without error, the transcribed files are exactly the files of the tree
    that do not lie under an excluded directory and have a wanted
    extension, each once, in pre-order with the entries of a directory in
    the order of their names; on a device that never fails the output file
    holds the header followed by their sections in that order. *)
Theorem walk_filters (w : World) (config : Config) (log0 : list LogRecord)
    (absPath : string) (tree : Node) :
  wAbs w = inr absPath -> wCreateErr w = None -> wRoot w = inr tree ->
  nonEmptyNames tree = true ->
  includeMap config = createLookupMap (includeExts config) ->
  let o := processDirectory w config log0 in
  let transcribed := List.filter (transcribes config) (calls o) in
  Forall (fun c => exists pos,
            callPath c = pathOf absPath pos /\ In pos (nodesOf tree)
            /\ underExcluded config pos = false) (calls o)
  /\ Forall (fun c => includeExts config = []
                      \/ In (Ext (callPath c)) (includeExts config)) transcribed
  /\ (result o = None ->
      map callPath transcribed
      = map (pathOf absPath) (selectedFiles config absPath tree)
      /\ (wellNamed tree = true -> List.NoDup (map callPath transcribed))
      /\ (wCapacity w = None ->
          exists out, output o = Some out
                      /\ data out = expectedOutput w config absPath tree)).
Proof.
  intros Habs Hcreate Hroot Hnames Hcfg o transcribed. subst o transcribed.
  split; [|split].
  - now apply calls_not_under_excluded.
  - apply List.Forall_forall. intros c Hc. apply filter_In in Hc as [_ Hc].
    unfold transcribes in Hc. apply andb_true_iff in Hc as [_ Hc].
    rewrite Hcfg in Hc. now apply PathMatcher.shouldIncludeFile_iff in Hc.
  - intros Hres.
    pose proof (success_transcribes_selected w config log0 absPath tree
                  Habs Hcreate Hroot Hnames Hres) as Hsel.
    split; [exact Hsel|]. split.
    + intros Hwn. rewrite Hsel. now apply selectedFiles_NoDup.
    + intros Hcap. now apply success_output.
Qed.

Lemma walk_filters_witness :
  map callPath
      (List.filter (transcribes Scenario.config)
                   (calls (processDirectory Scenario.world Scenario.config [])))
  = ["/root/a.go"; "/root/sub/c.go"]
  /\ List.NoDup
       (map callPath
            (List.filter (transcribes Scenario.config)
                         (calls (processDirectory Scenario.world Scenario.config [])))).
Proof.
  destruct (walk_filters Scenario.world Scenario.config [] "/root" Scenario.tree
              eq_refl eq_refl eq_refl eq_refl eq_refl) as (_ & _ & H).
  assert (result (processDirectory Scenario.world Scenario.config []) = None) as Hres
    by (vm_compute; reflexivity).
  destruct (H Hres) as (Hsel & Hnd & _).
  split.
  - rewrite Hsel. vm_compute. reflexivity.
  - apply Hnd. reflexivity.
Defined.

End TreeWalk.

(** ** Determinism: the order of the listings does not matter *)

Module Determinism.
Import StrFacts.

Lemma leb_refl (s : string) : String.leb s s = true.
Proof.
  unfold String.leb. assert ((s ?= s)%string = Eq) as ->; [|reflexivity].
  induction s as [|c s IH]; simpl; [reflexivity|].
  unfold Ascii.compare. now rewrite N.compare_refl.
Qed.

Lemma leb_trans (a b c : string) :
  String.leb a b = true -> String.leb b c = true -> String.leb a c = true.
Proof.
  intros H1 H2. apply Is_true_true. apply Is_true_true in H1, H2.
  change (String.le a c). change (String.le a b) in H1. change (String.le b c) in H2.
  now transitivity b.
Qed.

Lemma leb_false_flip (a b : string) :
  String.leb a b = false -> String.leb b a = true.
Proof.
  intros H. destruct (String.leb_total a b) as [E|E]; [congruence|assumption].
Qed.

Section Sorting.
Context {A : Type}.

Lemma insertByName_sorted (x : string * A) (l : list (string * A)) :
  StronglySorted nameLe l -> StronglySorted nameLe (insertByName x l).
Proof.
  induction 1 as [|y l Hl IH Hy]; simpl.
  - repeat constructor.
  - destruct (String.leb (fst x) (fst y)) eqn:E.
    + constructor; [now constructor|].
      constructor; [exact E|].
      eapply List.Forall_impl; [|exact Hy]. intros z Hz. unfold nameLe in *.
      now apply (leb_trans _ (fst y)).
    + constructor; [exact IH|].
      eapply Permutation_Forall; [symmetry; apply Walk.insertByName_perm|].
      constructor; [|exact Hy]. now apply leb_false_flip.
Qed.

(** [sortByName] sorts. *)
Lemma sortByName_sorted (l : list (string * A)) :
  StronglySorted nameLe (sortByName l).
Proof.
  induction l as [|x l IH]; simpl; [constructor|]. now apply insertByName_sorted.
Qed.

(** Two listings of the same entries under different names are sorted to
    the same list. *)
Lemma sortByName_unique (l1 l2 : list (string * A)) :
  Permutation l1 l2 -> List.NoDup (map fst l1) ->
  sortByName l1 = sortByName l2.
Proof.
  intros Hperm Hnd.
  apply (sorting.StronglySorted_unique_strong nameLe).
  - intros x y Hx Hy Hxy Hyx.
    apply list_elem_of_In in Hx, Hy.
    assert (In x l1) as Hx1
      by (eapply Permutation_in; [apply Walk.sortByName_perm|exact Hx]).
    assert (In y l1) as Hy1.
    { eapply Permutation_in; [symmetry; exact Hperm|].
      eapply Permutation_in; [apply Walk.sortByName_perm|exact Hy]. }
    assert (fst x = fst y) as Hname by (now apply String.leb_antisym).
    clear - Hnd Hx1 Hy1 Hname. induction l1 as [|z l1 IH]; [contradiction|].
    simpl in Hnd. inversion Hnd as [|? ? Hnotin Hnd']; subst.
    destruct Hx1 as [->|Hx1], Hy1 as [->|Hy1]; auto.
    + exfalso. apply Hnotin. rewrite Hname. now apply in_map.
    + exfalso. apply Hnotin. rewrite <- Hname. now apply in_map.
  - apply sortByName_sorted.
  - apply sortByName_sorted.
  - rewrite Walk.sortByName_perm, Hperm. symmetry. apply Walk.sortByName_perm.
Qed.

End Sorting.

Lemma distinctNames_entries entries listErr :
  distinctNames (Dir entries listErr) = true ->
  List.NoDup (map fst entries)
  /\ Forall (fun e => distinctNames (snd e) = true) entries.
Proof.
  simpl. intros H. apply andb_true_iff in H as [Hd Hf].
  split; [now apply TreeWalk.distinct_NoDup|].
  apply List.Forall_forall. intros e He.
  rewrite forallb_forall in Hf. now apply Hf.
Qed.

Section Plans.
Variable prune : string -> bool.

(** Trees that differ in the order of their listings have the same plan. *)
Lemma plan_permuted (t1 : Node) :
  forall t2 path,
    distinctNames t1 = true -> permuted t1 t2 ->
    plan prune path t1 = plan prune path t2.
Proof.
  induction t1 as [|entries1 listErr1 IH] using Node_induction;
    intros [|entries2 listErr2] path Hd Hp; try contradiction; [reflexivity|].
  destruct Hp as (<- & entries2' & Hperm & Hsame).
  apply distinctNames_entries in Hd as [Hnd Hd].
  cbn [plan]. f_equal. destruct (prune path); [reflexivity|].
  destruct listErr1; [reflexivity|]. f_equal. f_equal.
  rewrite !(Walk.pair_map_eta (fun name1 child => plan prune (Join path name1) child)).
  assert (map (fun e => (fst e, plan prune (Join path (fst e)) (snd e))) entries1
          = map (fun e => (fst e, plan prune (Join path (fst e)) (snd e))) entries2')
    as Hmap.
  { clear Hperm Hnd. revert entries2' Hsame.
    induction entries1 as [|e1 r1 IHr]; intros [|e2 r2] Hsame; try contradiction;
      [reflexivity|].
    destruct Hsame as (Hname & Hsub & Hrest).
    inversion IH as [|? ? IHe IHr']; subst. inversion Hd as [|? ? Hde Hdr]; subst.
    cbn [map]. rewrite (IHr IHr' Hdr r2 Hrest).
    rewrite (IHe (snd e2) (Join path (fst e1)) Hde Hsub), Hname. reflexivity. }
  rewrite Hmap. apply sortByName_unique.
  - now apply Permutation_map.
  - rewrite map_map. cbn [fst].
    apply (f_equal (map fst)) in Hmap. rewrite !map_map in Hmap. cbn [fst] in Hmap.
    rewrite <- Hmap. exact Hnd.
Qed.

End Plans.

(** C9: a run is a function of the world and the configuration, and the
    world enters it through the sorted listings only: two worlds whose
    trees differ in the order in which the operating system lists the
    entries of their directories give the same run, with the same returned
    error, the same log and the same bytes in the output file. *)
Theorem run_deterministic (w : World) (config : Config) (log0 : list LogRecord)
    (t1 t2 : Node) :
  wRoot w = inr t1 -> distinctNames t1 = true -> permuted t1 t2 ->
  processDirectory (withRoot w t2) config log0 = processDirectory w config log0.
Proof.
  intros Hroot Hd Hp. unfold processDirectory. simpl.
  destruct (wAbs w) as [e|absPath]; [reflexivity|].
  destruct (wCreateErr w); [reflexivity|].
  unfold processDirectoryBody.
  destruct (writeHeader _ _ _) as [st1 herr]. destruct herr; [reflexivity|].
  assert (WalkDir (traced (walkFn (withRoot w t2) config absPath)) absPath
                  (wRoot (withRoot w t2)) (st1, [])
          = WalkDir (traced (walkFn w config absPath)) absPath (wRoot w) (st1, []))
    as ->; [|reflexivity].
  change (walkFn (withRoot w t2) config absPath) with (walkFn w config absPath).
  rewrite Hroot. simpl wRoot.
  rewrite !(Walk.WalkDir_plan (traced (walkFn w config absPath))
              (prunePath config absPath)).
  - unfold topPlan. now rewrite (plan_permuted (prunePath config absPath) t1 t2).
  - intros path st. rewrite Directory.traced_snd. apply Callback.walkFn_dir.
  - intros path st. rewrite Directory.traced_snd. apply Callback.walkFn_file.
  - intros path d op p se st. rewrite Directory.traced_snd. apply Callback.walkFn_report.
  - intros step st e. rewrite Directory.traced_snd. apply Callback.walkFn_no_skip_all.
  - intros path st. rewrite Directory.traced_snd. apply Callback.walkFn_dir.
  - intros path st. rewrite Directory.traced_snd. apply Callback.walkFn_file.
  - intros path d op p se st. rewrite Directory.traced_snd. apply Callback.walkFn_report.
  - intros step st e. rewrite Directory.traced_snd. apply Callback.walkFn_no_skip_all.
Qed.

Lemma run_deterministic_witness :
  processDirectory (withRoot Scenario.world Scenario.treeListedOtherwise)
                   Scenario.config []
  = processDirectory Scenario.world Scenario.config [].
Proof.
  apply (run_deterministic Scenario.world Scenario.config []
           Scenario.tree Scenario.treeListedOtherwise).
  - reflexivity.
  - reflexivity.
  - split; [reflexivity|].
    exists [("sub", Dir [("c.go", File)] None);
            ("b.txt", File);
            ("node_modules", Dir [("ignored.go", File)] None);
            ("a.go", File)].
    split.
    + apply (Permutation_cons_app
               [("a.go", File); ("node_modules", Dir [("ignored.go", File)] None)]
               [("b.txt", File)]).
      apply (Permutation_cons_app
               [("a.go", File); ("node_modules", Dir [("ignored.go", File)] None)]
               []).
      apply perm_swap.
    + repeat split; try reflexivity.
      * exists [("c.go", File)]. repeat split; reflexivity.
      * exists [("ignored.go", File)]. repeat split; reflexivity.
Defined.

End Determinism.

(** ** End-to-end scenarios *)

Module Scenarios.

(** The tree [root/{a.go, b.txt, sub/c.go, node_modules/ignored.go}] with
    [--exclude node_modules --extensions .go]: the sections of [a.go] and
    [sub/c.go], in that order, after the header. *)
Example scenario_output :
  option_map data (output (snd (main TrimSpaceASCII Scenario.world Scenario.flags)))
  = Some ("# Contextify Output" +:+ nl
          +:+ "# Generated from: /root" +:+ nl
          +:+ "# Excluded directories: node_modules, .git" +:+ nl
          +:+ "# Included extensions: .go" +:+ nl
          +:+ nl
          +:+ "## File: a.go" +:+ nl
          +:+ "```" +:+ nl
          +:+ "package a" +:+ nl
          +:+ "func A()" +:+ nl
          +:+ "```" +:+ nl
          +:+ nl
          +:+ "## File: sub/c.go" +:+ nl
          +:+ "```" +:+ nl
          +:+ "package c" +:+ nl
          +:+ "```" +:+ nl
          +:+ nl).
Proof. vm_compute. reflexivity. Qed.

(** An empty directory: the header only, no file, exit status 0. *)
Example scenario_empty_directory :
  let r := main TrimSpaceASCII Scenario.emptyWorld defaultFlags in
  fst r = 0
  /\ processed (snd r) = 0
  /\ option_map data (output (snd r))
     = Some ("# Contextify Output" +:+ nl
             +:+ "# Generated from: /root" +:+ nl
             +:+ "# Excluded directories: .git" +:+ nl
             +:+ nl)
  /\ In {| level := LevelInfo; msg := "Processing completed";
           attrs := [("filesProcessed", VInt 0)] |} (finalLogs (snd r)).
Proof. vm_compute. repeat split; auto. Qed.

(** A full device: every write fits the buffer, the flush at the end
    fails, and the run still ends with exit status 0 and an empty file. *)
Example scenario_full_device :
  let r := main TrimSpaceASCII Scenario.fullDiskWorld Scenario.flags in
  fst r = 0 /\ option_map data (output (snd r)) = Some "".
Proof. vm_compute. split; reflexivity. Qed.

(** A file that cannot be opened: exit status 1 and the wrapped error. *)
Example scenario_locked_file :
  let r := main TrimSpaceASCII Scenario.lockedWorld Scenario.flags in
  fst r = 1
  /\ result (snd r)
     = Some (Errorf "failed to open file /root/sub/c.go: "
                    (PathError "open" "/root/sub/c.go" EACCES))
  /\ processed (snd r) = 1.
Proof. vm_compute. repeat split; reflexivity. Qed.

(** The scanner takes a line of one byte less than its buffer and refuses a
    line that fills it. *)
Example scanner_line_limit :
  snd (scanTokens (rawLines (Scenario.longLine (MaxScanTokenSize - 1) +:+ nl))) = None
  /\ snd (scanTokens (rawLines (Scenario.longLine MaxScanTokenSize +:+ nl)))
     = Some ErrTooLong.
Proof. vm_compute. split; reflexivity. Qed.

(** The flags are split at commas and trimmed; empty parts are dropped. *)
Example parse_flag :
  parseCommaSeparated TrimSpaceASCII " dist , ,node_modules,, .git " =
  ["dist"; "node_modules"; ".git"].
Proof. vm_compute. reflexivity. Qed.

End Scenarios.

Module LookupMaps.

Lemma createLookupMap_values_fold (items : list string) (m : gmap string bool) k :
  m !! k <> Some false ->
  foldl (fun lookup item => <[item := true]> lookup) m items !! k <> Some false.
Proof.
  revert m; induction items as [|i items IH]; intros m Hm; simpl; [assumption|].
  apply IH. destruct (decide (i = k)) as [->|Hne].
  - rewrite lookup_insert_eq. discriminate.
  - now rewrite lookup_insert_ne.
Qed.

Lemma createLookupMap_lookup_cases (items : list string) k :
  (In k items /\ createLookupMap items !! k = Some true)
  \/ (~ In k items /\ createLookupMap items !! k = None).
Proof.
  pose proof (createLookupMap_member items k) as Hmem.
  pose proof (createLookupMap_values_fold items ∅ k) as Hval.
  fold (createLookupMap items) in Hval. rewrite lookup_empty in Hval.
  unfold mapGet in Hmem.
  destruct (createLookupMap items !! k) as [[|]|] eqn:E; simpl in Hmem.
  - left. split; [now apply Hmem|reflexivity].
  - exfalso. now apply Hval.
  - right. split; [|reflexivity]. intros Hin. apply Hmem in Hin. discriminate.
Qed.

(** [createLookupMap] builds the set of the items: a key is mapped to
    [true] exactly when it is an item and no key is mapped to [false]; the
    map is empty exactly when the list is; lists with the same elements,
    in whatever order and number, give the same map. *)
Theorem createLookupMap_is_set (items others : list string) (k : string) :
  (mapGet (createLookupMap items) k = true <-> In k items)
  /\ createLookupMap items !! k
     = (if existsb (String.eqb k) items then Some true else None)
  /\ (mapIsEmpty (createLookupMap items) = true <-> items = [])
  /\ size (createLookupMap items) <= length items
  /\ (createLookupMap items = createLookupMap others
      <-> forall x, In x items <-> In x others).
Proof.
  split; [apply createLookupMap_member|].
  split.
  { destruct (createLookupMap_lookup_cases items k) as [[Hin ->]|[Hin ->]].
    - assert (existsb (String.eqb k) items = true) as ->; [|reflexivity].
      apply existsb_exists. exists k. split; [assumption|apply String.eqb_refl].
    - destruct (existsb (String.eqb k) items) eqn:E; [|reflexivity].
      apply existsb_exists in E as (x & Hx & E). apply String.eqb_eq in E.
      subst x. contradiction. }
  split; [apply createLookupMap_isEmpty|].
  split.
  { assert (forall (m : gmap string bool),
               size (foldl (fun lookup item => <[item := true]> lookup) m items)
               <= size m + length items) as H.
    { induction items as [|i items IH]; intros m; simpl; [lia|].
      specialize (IH (<[i := true]> m)).
      assert (size (<[i := true]> m) <= S (size m)).
      { destruct (m !! i) eqn:E.
        - rewrite map_size_insert_Some by eauto. lia.
        - rewrite map_size_insert_None by assumption. lia. }
      lia. }
    specialize (H ∅). rewrite map_size_empty in H. exact H. }
  split.
  - intros Heq x. rewrite <- !createLookupMap_member. now rewrite Heq.
  - intros Hsame. apply map_eq. intros x.
    destruct (createLookupMap_lookup_cases items x) as [[Hin ->]|[Hin ->]];
      destruct (createLookupMap_lookup_cases others x) as [[Hin' ->]|[Hin' ->]];
      try reflexivity; exfalso.
    + apply Hin'. now apply Hsame.
    + apply Hin. now apply Hsame.
Qed.

End LookupMaps.

Module FlagParsing.
Import Str StrFacts.

(** *** Reversal and trimming of strings *)

Lemma rev_app_spec (s1 s2 : string) : String.rev_app s1 s2 = String.rev s1 +:+ s2.
Proof.
  unfold String.rev. revert s2; induction s1 as [|c s1 IH]; intros s2; simpl.
  - reflexivity.
  - rewrite (IH (String c s2)), (IH (String c "")), append_assoc. reflexivity.
Qed.

Lemma rev_cons c (s : string) : String.rev (String c s) = String.rev s +:+ String c "".
Proof. unfold String.rev at 1. simpl. apply rev_app_spec. Qed.

Lemma rev_append (a b : string) : String.rev (a +:+ b) = String.rev b +:+ String.rev a.
Proof.
  induction a as [|c a IH]; sapp.
  - now rewrite append_nil_r.
  - rewrite !rev_cons, IH, append_assoc. reflexivity.
Qed.

Lemma rev_involutive (s : string) : String.rev (String.rev s) = s.
Proof.
  induction s as [|c s IH]; [reflexivity|].
  rewrite rev_cons, rev_append, IH. reflexivity.
Qed.

Lemma trimLeft_suffix (s : string) : exists a, s = a +:+ trimLeft s.
Proof.
  induction s as [|c s [a IH]]; simpl.
  - now exists "".
  - destruct (Ascii.is_space c).
    + exists (String c a). sapp. now rewrite <- IH.
    + now exists "".
Qed.

Lemma trimLeft_headOk (s : string) : headOk (trimLeft s).
Proof.
  induction s as [|c s IH]; simpl; [exact I|].
  destruct (Ascii.is_space c) eqn:E; [assumption|]. simpl. exact E.
Qed.

Lemma trimLeft_id (s : string) : headOk s -> trimLeft s = s.
Proof. destruct s as [|c s]; simpl; [reflexivity|]. now intros ->. Qed.

Lemma headOk_prefix (r x : string) : headOk (r +:+ x) -> r <> "" -> headOk r.
Proof. destruct r as [|c r]; sapp; simpl; [congruence|auto]. Qed.

(** The trimmed string with what was removed at both ends. *)
Lemma TrimSpaceASCII_parts (s : string) :
  exists a b, s = a +:+ TrimSpaceASCII s +:+ b
              /\ trimLeft s = TrimSpaceASCII s +:+ b.
Proof.
  unfold TrimSpaceASCII.
  destruct (trimLeft_suffix s) as [a Ha].
  destruct (trimLeft_suffix (String.rev (trimLeft s))) as [b Hb].
  exists a, (String.rev b).
  assert (trimLeft s
          = String.rev (trimLeft (String.rev (trimLeft s))) +:+ String.rev b) as Ht.
  { rewrite <- rev_append, <- Hb. now rewrite rev_involutive. }
  split; [|exact Ht]. now rewrite <- Ht.
Qed.

Lemma TrimSpaceASCII_sub (s : string) :
  exists a b, s = a +:+ TrimSpaceASCII s +:+ b.
Proof. destruct (TrimSpaceASCII_parts s) as (a & b & H & _). eauto. Qed.

Lemma TrimSpaceASCII_idem (s : string) :
  TrimSpaceASCII (TrimSpaceASCII s) = TrimSpaceASCII s.
Proof.
  destruct (TrimSpaceASCII_parts s) as (a & b & _ & Ht).
  assert (trimLeft (TrimSpaceASCII s) = TrimSpaceASCII s) as Hl.
  { destruct (string_dec (TrimSpaceASCII s) "") as [->|Hne]; [reflexivity|].
    apply trimLeft_id. apply (headOk_prefix _ b); [|assumption].
    rewrite <- Ht. apply trimLeft_headOk. }
  unfold TrimSpaceASCII at 1. rewrite Hl. unfold TrimSpaceASCII.
  rewrite rev_involutive.
  rewrite (trimLeft_id (trimLeft _)) by apply trimLeft_headOk. reflexivity.
Qed.

Lemma TrimSpaceASCII_lead (s : string) :
  TrimSpaceASCII (" " +:+ s) = TrimSpaceASCII s.
Proof. reflexivity. Qed.

(** *** The loop of [parseCommaSeparated] *)

Lemma parse_fold (TrimSpace : string -> string) (parts acc : list string) :
  foldl (fun result part =>
           let trimmed := TrimSpace part in
           if negb (String.eqb trimmed "") then result ++ [trimmed] else result)
        acc parts
  = acc ++ List.filter (fun trimmed => negb (String.eqb trimmed ""))
                       (map TrimSpace parts).
Proof.
  revert acc; induction parts as [|part parts IH]; intros acc; simpl.
  - now rewrite app_nil_r.
  - rewrite IH. destruct (negb (String.eqb (TrimSpace part) "")); [|reflexivity].
    now rewrite <- app_assoc.
Qed.

Lemma contains_parts c (a s b : string) :
  contains c (a +:+ s +:+ b) = false -> contains c s = false.
Proof.
  rewrite !Transcriber.contains_app. intros H.
  apply orb_false_iff in H as [_ H]. now apply orb_false_iff in H as [H _].
Qed.

Lemma Split_cons_char c (s : string) sep :
  Ascii.eqb c sep = false ->
  Split (String c s) sep
  = String c (hd "" (Split s sep)) :: tl (Split s sep).
Proof.
  intros Hc. simpl. rewrite Hc.
  pose proof (Split_nonempty s sep) as Hne.
  destruct (Split s sep); [congruence|reflexivity].
Qed.

(** The pieces of a list joined by a comma and a space. *)
Lemma Split_Join_comma (e : string) (l : list string) :
  Forall (fun x => contains ","%char x = false) (e :: l) ->
  Split (Join (e :: l) ", ") ","%char = e :: map (fun x => " " +:+ x) l.
Proof.
  revert e; induction l as [|e' l IH]; intros e Hall.
  - simpl. apply Split_no_sep. now inversion Hall.
  - inversion Hall as [|? ? He Hrest]; subst.
    change (Join (e :: e' :: l) ", ") with (e +:+ ", " +:+ Join (e' :: l) ", ").
    change (e +:+ ", " +:+ Join (e' :: l) ", ")
      with (e +:+ String ","%char (String " "%char (Join (e' :: l) ", "))).
    rewrite TreeWalk.Split_piece by assumption.
    rewrite Split_cons_char by reflexivity.
    rewrite (IH e' Hrest). reflexivity.
Qed.

Lemma Split_Join_plain (e : string) (l : list string) :
  Forall (fun x => contains ","%char x = false) (e :: l) ->
  Split (Join (e :: l) ",") ","%char = e :: l.
Proof.
  revert e; induction l as [|e' l IH]; intros e Hall.
  - simpl. apply Split_no_sep. now inversion Hall.
  - inversion Hall as [|? ? He Hrest]; subst.
    change (Join (e :: e' :: l) ",") with (e +:+ String ","%char (Join (e' :: l) ",")).
    rewrite TreeWalk.Split_piece by assumption.
    now rewrite (IH e' Hrest).
Qed.

Lemma filter_clean (TrimSpace : string -> string) (f : string -> string) l :
  Forall (cleanEntry TrimSpace) l ->
  (forall x, TrimSpace (f x) = TrimSpace x) ->
  List.filter (fun trimmed => negb (String.eqb trimmed "")) (map TrimSpace (map f l)) = l.
Proof.
  intros Hall Hf. induction Hall as [|x l (Hne & _ & Hid) _ IH]; simpl; [reflexivity|].
  rewrite Hf, Hid, IH. apply String.eqb_neq in Hne. now rewrite Hne.
Qed.

Section Trim.
Variable TrimSpace : string -> string.

(** What the program relies on of [strings.TrimSpace]: the result is a
    part of the argument, trimming twice is trimming once, and a leading
    space is removed. *)
Hypothesis trim_sub : forall s, exists a b, s = a +:+ TrimSpace s +:+ b.
Hypothesis trim_idem : forall s, TrimSpace (TrimSpace s) = TrimSpace s.
Hypothesis trim_lead : forall s, TrimSpace (" " +:+ s) = TrimSpace s.

(** [parseCommaSeparated] returns the trimmed parts between the commas
    that are not empty, in their order; the test for the empty input
    changes nothing.  Every entry is not empty, has no comma and is
    trimmed. *)
Theorem parseCommaSeparated_entries (input : string) :
  parseCommaSeparated TrimSpace input = keptParts TrimSpace input
  /\ Forall (cleanEntry TrimSpace) (parseCommaSeparated TrimSpace input).
Proof.
  assert (parseCommaSeparated TrimSpace input = keptParts TrimSpace input) as Heq.
  { unfold parseCommaSeparated, keptParts.
    destruct (String.eqb input "") eqn:E.
    - apply String.eqb_eq in E. subst input. simpl.
      destruct (trim_sub "") as (a & b & H).
      destruct a; [|discriminate]. rewrite app_nil_l in H.
      destruct (TrimSpace ""); [reflexivity|discriminate].
    - now rewrite parse_fold. }
  split; [exact Heq|]. rewrite Heq. unfold keptParts.
  apply List.Forall_forall. intros e He.
  apply filter_In in He as [He Hne]. apply in_map_iff in He as (part & <- & Hpart).
  split; [|split].
  - apply negb_true_iff in Hne. now apply String.eqb_neq.
  - destruct (trim_sub part) as (a & b & H).
    apply (contains_parts _ a _ b). rewrite <- H.
    now apply (Split_pieces input).
  - apply trim_idem.
Qed.

(** A list of entries written with a comma, or a comma and a space,
    between them, as the run header writes it, is parsed back to the
    list. *)
Theorem parseCommaSeparated_Join (entries : list string) :
  Forall (cleanEntry TrimSpace) entries ->
  parseCommaSeparated TrimSpace (Join entries ", ") = entries
  /\ parseCommaSeparated TrimSpace (Join entries ",") = entries.
Proof.
  intros Hall. destruct entries as [|e l]; [split; reflexivity|].
  assert (Forall (fun x => contains ","%char x = false) (e :: l)) as Hcomma.
  { eapply List.Forall_impl; [|exact Hall]. now intros x (_ & H & _). }
  assert (forall sep, String.eqb (Join (e :: l) sep) "" = false) as Hne.
  { intros sep. apply String.eqb_neq.
    inversion Hall as [|? ? (He & _) _]; subst.
    destruct e as [|c e]; [congruence|].
    destruct l; simpl; sapp; discriminate. }
  unfold parseCommaSeparated. rewrite !Hne, !parse_fold, !List.app_nil_l.
  rewrite Split_Join_comma, Split_Join_plain by assumption. split.
  - inversion Hall as [|? ? (Hne1 & _ & Hid) Hl]; subst.
    cbn [map List.filter]. rewrite Hid.
    apply String.eqb_neq in Hne1. rewrite Hne1. cbn [negb]. f_equal.
    now apply (filter_clean TrimSpace (fun x => " " +:+ x)).
  - rewrite <- (List.map_id (e :: l)) at 1.
    now apply (filter_clean TrimSpace (fun x => x)).
Qed.

End Trim.

Lemma parseCommaSeparated_entries_witness :
  Forall (cleanEntry TrimSpaceASCII)
         (parseCommaSeparated TrimSpaceASCII " dist , ,node_modules,, .git ").
Proof.
  apply (parseCommaSeparated_entries TrimSpaceASCII TrimSpaceASCII_sub
           TrimSpaceASCII_idem).
Defined.

Lemma parseCommaSeparated_Join_witness :
  parseCommaSeparated TrimSpaceASCII "node_modules, .git" = ["node_modules"; ".git"].
Proof.
  apply (parseCommaSeparated_Join TrimSpaceASCII TrimSpaceASCII_lead
           ["node_modules"; ".git"]).
  repeat (apply List.Forall_cons || apply List.Forall_nil);
    (split; [discriminate|split; reflexivity]).
Defined.

End FlagParsing.

Module Entries.
Import Str StrFacts ExtFacts PathMatcher.

Lemma split_last_dot (s : string) :
  contains "."%char s = true ->
  exists pre suf, s = pre +:+ "." +:+ suf /\ contains "."%char suf = false.
Proof.
  induction s as [|c s IH]; simpl; [discriminate|].
  destruct (contains "."%char s) eqn:Hs.
  - intros _. destruct (IH eq_refl) as (pre & suf & -> & Hsuf).
    exists (String c pre), suf. sapp. auto.
  - rewrite orb_false_r. intros Hc. apply Ascii.eqb_eq in Hc. subst c.
    exists "", s. sapp. auto.
Qed.

(** The extension of a path is empty or a dot with a suffix free of dots
    and separators. *)
Lemma Ext_shape (path : string) : usableExtension (Ext path) = true.
Proof.
  unfold usableExtension.
  destruct (contains "."%char (lastElement path)) eqn:Hdot.
  - apply split_last_dot in Hdot as (pre & suf & Hlast & Hsuf).
    pose proof (lastElement_no_sep path) as Hsep. rewrite Hlast in Hsep.
    rewrite !Transcriber.contains_app in Hsep.
    apply orb_false_iff in Hsep as [_ Hsep]. apply orb_false_iff in Hsep as [_ Hsep].
    assert (Ext path = "." +:+ suf) as ->.
    { destruct (path_lastElement path) as [E|[dir E]]; rewrite E, Hlast.
      - now apply Ext_last_dot.
      - rewrite <- (append_assoc dir "/"), <- (append_assoc (dir +:+ "/") pre).
        now apply Ext_last_dot. }
    sapp. simpl. rewrite Hsuf, Hsep. reflexivity.
  - now rewrite (Ext_no_dot path Hdot).
Qed.

Lemma existsb_eqb_In (x : string) (l : list string) :
  existsb (String.eqb x) l = true <-> In x l.
Proof.
  rewrite existsb_exists. split.
  - intros (y & Hy & E). apply String.eqb_eq in E. now subst.
  - intros H. exists x. split; [assumption|apply String.eqb_refl].
Qed.

(** Under a non-empty inclusion list a file is included exactly when its
    extension is one of the entries that are empty or a dot followed by
    bytes without dot and separator; the other entries match no file, so a
    list of such entries alone, as [go] or [.tar.gz], includes nothing. *)
Theorem only_dotted_extensions_match (filePath : string) (items : list string) :
  items <> [] ->
  shouldIncludeFile filePath (createLookupMap items)
  = existsb (String.eqb (Ext filePath)) (List.filter usableExtension items)
  /\ (forallb (fun e => negb (usableExtension e)) items = true ->
      shouldIncludeFile filePath (createLookupMap items) = false).
Proof.
  intros Hne.
  assert (shouldIncludeFile filePath (createLookupMap items)
          = existsb (String.eqb (Ext filePath)) (List.filter usableExtension items))
    as Heq.
  { apply eq_true_iff_eq. rewrite shouldIncludeFile_iff, existsb_eqb_In, filter_In.
    pose proof (Ext_shape filePath). tauto. }
  split; [exact Heq|]. intros Hall. rewrite Heq.
  assert (List.filter usableExtension items = []) as ->; [|reflexivity].
  apply Positions.filter_none. apply List.Forall_forall. intros e He.
  rewrite forallb_forall in Hall. apply Hall in He. now apply negb_true_iff.
Qed.

Lemma only_dotted_extensions_match_witness :
  shouldIncludeFile "/root/pkg.tar.gz" (createLookupMap ["go"; ".tar.gz"; "*.go"])
  = false.
Proof.
  apply (only_dotted_extensions_match "/root/pkg.tar.gz" ["go"; ".tar.gz"; "*.go"]);
    [discriminate|reflexivity].
Defined.

(** The segments of the relative path of a position. *)
Lemma Split_relOf (pos : list string) :
  validNames pos ->
  Split (relOf pos) Separator = match pos with [] => ["."] | _ => pos end.
Proof.
  intros Hpos. destruct pos as [|name1 rest]; [reflexivity|].
  unfold relOf. apply TreeWalk.Split_Join; [discriminate|].
  eapply List.Forall_impl; [|exact Hpos]. now intros x [_ H].
Qed.

Lemma relOf_not_slashed (pos : list string) :
  validNames pos -> hasEmptySegment (relOf pos) = false.
Proof.
  intros Hpos. unfold hasEmptySegment. rewrite (Split_relOf pos Hpos).
  destruct (existsb (String.eqb "") match pos with [] => ["."] | _ => pos end) eqn:E;
    [|apply andb_false_r].
  apply existsb_eqb_In in E. destruct pos as [|name1 rest].
  - destruct E as [E|[]]. discriminate.
  - unfold validNames in Hpos. rewrite List.Forall_forall in Hpos.
    destruct (Hpos "" E) as [H _]. congruence.
Qed.

(** [shouldExcludeDir] on a set built from a list: a segment or the
    whole path is an item. *)
Lemma shouldExcludeDir_items (relPath : string) (items : list string) :
  shouldExcludeDir relPath (createLookupMap items) = true <->
  (exists part, In part (Split relPath Separator) /\ In part items)
  \/ In relPath items.
Proof.
  rewrite shouldExcludeDir_map, createLookupMap_member.
  split; (intros [(part & Hin & H)|H]; [left; exists part; split; [assumption|]|right]);
    try (now apply createLookupMap_member); assumption.
Qed.

(** An entry of the exclusion list that starts or ends with a separator,
    or has two in a row, never matches a directory of the walk: the
    answer of [shouldExcludeDir] on the relative path of a node is the one
    for the list without such entries. *)
Theorem slashed_exclusions_ignored (pos : list string) (items : list string) :
  validNames pos ->
  shouldExcludeDir (relOf pos) (createLookupMap items)
  = shouldExcludeDir (relOf pos)
      (createLookupMap (List.filter (fun e => negb (hasEmptySegment e)) items)).
Proof.
  intros Hpos. apply eq_true_iff_eq.
  rewrite !shouldExcludeDir_items.
  assert (forall part, In part (Split (relOf pos) Separator) ->
                       hasEmptySegment part = false) as Hparts.
  { intros part Hin. unfold hasEmptySegment.
    now rewrite (Split_pieces _ _ _ Hin). }
  pose proof (relOf_not_slashed pos Hpos) as Hrel.
  split.
  - intros [(part & Hin & Hitem)|Hitem].
    + left. exists part. split; [assumption|]. apply filter_In.
      split; [assumption|]. now rewrite (Hparts part Hin).
    + right. apply filter_In. split; [assumption|]. now rewrite Hrel.
  - intros [(part & Hin & Hitem)|Hitem].
    + left. exists part. split; [assumption|]. now apply filter_In in Hitem.
    + right. now apply filter_In in Hitem.
Qed.

Lemma slashed_exclusions_ignored_witness :
  shouldExcludeDir "src/build" (createLookupMap ["build/"; "/src"; "src//build"])
  = false.
Proof.
  apply (slashed_exclusions_ignored ["src"; "build"] ["build/"; "/src"; "src//build"]).
  repeat (apply List.Forall_cons || apply List.Forall_nil);
    (split; [discriminate|reflexivity]).
Defined.

End Entries.

Module Outcomes.
Import Str StrFacts Transcriber Callback RunFacts Directory Positions TreeWalk.

(** On a device that never fails the final flush puts all the accepted
    bytes into the file. *)
Lemma flushed_output (st : State) :
  unlimited st ->
  data (wr (fst (Flush (writer st)))) = accepted st.
Proof.
  intros [Hc He].
  destruct (WriterFacts.Flush_unlimited (writer st) Hc He) as (b' & Hf & _).
  rewrite Hf. simpl.
  apply WriterFacts.Flush_ok in Hf as (_ & _ & Hst & Hbuf).
  unfold stream in Hst. rewrite Hbuf, append_nil_r in Hst. exact Hst.
Qed.

Lemma header_written (w : World) (config : Config) (log0 : list LogRecord)
    (absPath : string) (st1 : State) (herr : option error) :
  wCapacity w = None ->
  writeHeader absPath config (initState w config log0 absPath) = (st1, herr) ->
  herr = None /\ unlimited st1
  /\ accepted st1 = String.concat "" (headerLines absPath config)
  /\ fileCount st1 = 0.
Proof.
  intros Hcap Hh.
  assert (unlimited (initState w config log0 absPath)) as Hu0
    by (split; [exact Hcap|reflexivity]).
  destruct (writeAll_unlimited (headerLines absPath config) _ Hu0) as (st' & E & Hu).
  unfold writeHeader in Hh. rewrite E in Hh. injection Hh as <- <-.
  apply writeAll_ok in E as (Ha & _ & Hc). auto.
Qed.

Section OfWalkFn.
Variable w : World.
Variable config : Config.
Variable absPath : string.

(** When every step is safe and the device does not fail, all the calls
    are made and none returns an error that ends the walk. *)
Lemma Run_safe steps st cs st' r :
  Run (walkFn w config absPath) steps st cs st' r ->
  unlimited st -> Forall (safeStep w config absPath) steps ->
  r = None /\ map stepOfCall cs = steps.
Proof.
  induction 1 as [s|step rest s s1 s' ret r cs Hf Hfat HR IH
                 |step rest s s1 e Hf Hs]; intros Hu Hsafe.
  - auto.
  - inversion Hsafe as [|? ? _ Hrest]; subst.
    assert (unlimited s1) as Hu1.
    { pose proof (walkFn_keeps_unlimited w config absPath (stepPath step)
                    {| IsDir := stepIsDir step |} (errOf step) s Hu) as H.
      now rewrite Hf in H. }
    destruct (IH Hu1 Hrest) as [-> Hcs]. split; [reflexivity|].
    cbn [map]. now rewrite stepOfCall_callOf, Hcs.
  - inversion Hsafe as [|? ? Hstep _]; subst.
    pose proof (walkFn_safe w config absPath step s Hu Hstep) as H.
    rewrite Hf in H. simpl in H. rewrite Hs in H. discriminate.
Qed.

End OfWalkFn.

Lemma nodesOf_names (n : Node) :
  nonEmptyNames n = true ->
  Forall (Forall (fun name1 => name1 <> "")) (nodesOf n).
Proof.
  induction n as [|entries listErr IH] using Node_induction; intros Hn.
  - repeat constructor.
  - rewrite nodesOf_dir. constructor; [constructor|].
    apply nonEmptyNames_entries in Hn.
    assert (Forall (fun e => (nonEmptyNames (snd e) = true ->
                              Forall (Forall (fun name1 => name1 <> "")) (nodesOf (snd e)))
                             /\ fst e <> "" /\ nonEmptyNames (snd e) = true)
                   (sortByName entries)) as HF.
    { apply Walk.Forall_sortByName. rewrite List.Forall_forall in IH, Hn |- *.
      intros e He. split; [apply IH|apply Hn]; assumption. }
    induction HF as [|e l (He & Hne & Hv) _ IHl]; [constructor|].
    cbn [map concat]. apply List.Forall_app. split; [|assumption].
    apply List.Forall_forall. intros x Hx. apply in_map_iff in Hx as (r & <- & Hr).
    specialize (He Hv). rewrite List.Forall_forall in He.
    constructor; [assumption|]. now apply He.
Qed.

Lemma planPos_listable (config : Config) (n : Node) :
  forall pos, listable config pos n = true ->
              Forall (fun x => snd x = None) (planPos config pos n).
Proof.
  induction n as [|entries listErr IH] using Node_induction; intros pos Hl.
  - repeat constructor.
  - rewrite planPos_dir. constructor; [reflexivity|].
    cbn [listable] in Hl.
    destruct (excludedDir config pos); [constructor|].
    cbn [orb] in Hl. apply andb_true_iff in Hl as [Hle Hl].
    destruct listErr; [discriminate|].
    assert (Forall (fun e => Forall (fun x => snd x = None)
                               (planPos config (pos ++ [fst e]) (snd e)))
                   (sortByName entries)) as HF.
    { apply Walk.Forall_sortByName. rewrite List.Forall_forall in IH |- *.
      intros e He. apply IH; [assumption|].
      rewrite forallb_forall in Hl. now apply Hl. }
    induction HF as [|e l He _ IHl]; [constructor|].
    cbn [map concat]. apply List.Forall_app. split; [exact He|assumption].
Qed.

Section Healthy.
Variable w : World.
Variable config : Config.
Variable log0 : list LogRecord.
Variable absPath : string.
Variable tree : Node.
Hypothesis Habs : wAbs w = inr absPath.
Hypothesis Hcreate : wCreateErr w = None.
Hypothesis Hcap : wCapacity w = None.
Hypothesis Hroot : wRoot w = inr tree.
Hypothesis Hnames : nonEmptyNames tree = true.
Hypothesis Hlist : listable config [] tree = true.
Hypothesis Hread :
  Forall (fun pos => readable (wOpen w (pathOf absPath pos)))
         (selectedFiles config absPath tree).

Lemma healthy_plan_safe :
  Forall (safeStep w config absPath) (walkPlan w config absPath).
Proof.
  rewrite (walkPlan_positions w config absPath tree Hroot Hnames).
  pose proof (planPos_listable config tree [] Hlist) as Hok.
  pose proof (planPos_files config tree [] Hok) as Hfiles.
  pose proof (planPos_sound config tree []) as Hsound.
  pose proof (nodesOf_names tree Hnames) as Hnn.
  rewrite List.Forall_forall in Hok, Hsound, Hnn, Hread.
  apply List.Forall_map, List.Forall_forall. intros x Hx.
  destruct (Hsound x Hx) as (rest & Hpos & Hin & Hu). simpl in Hpos.
  unfold safeStep. cbn [toStep stepErr stepPath stepIsDir].
  rewrite (Hok x Hx). split; [reflexivity|]. split.
  - exists (relOf (fst (fst x))). apply Rel_pathOf. rewrite Hpos. now apply Hnn.
  - destruct (snd (fst x)) eqn:Hdir; [now left|]. right.
    destruct (shouldIncludeFile (pathOf absPath (fst (fst x))) (includeMap config))
      eqn:Hinc; [right|now left].
    apply Hread. unfold selectedFiles. apply filter_In. split.
    + assert (In (fst (fst x))
                 (map (fun y => fst (fst y))
                      (List.filter (fun y => negb (snd (fst y)))
                                   (planPos config [] tree)))) as Hm.
      { apply (List.in_map (fun y : list string * bool * option syserr => fst (fst y))).
        apply filter_In. split; [assumption|]. now rewrite Hdir. }
      rewrite Hfiles in Hm. apply in_map_iff in Hm as (r & Hr & Hm).
      simpl in Hr. subst r. now apply filter_In in Hm.
    + rewrite Hinc, andb_true_r. unfold underExcluded. rewrite Hpos.
      now rewrite Hu.
Qed.

(** The walk of such a tree returns nil. *)
Lemma healthy_result : result (processDirectory w config log0) = None.
Proof.
  destruct (processDirectory_run w config log0 absPath Habs Hcreate)
    as [(st1 & e & Hh & _)|(st1 & st2 & Hh & HR & _)].
  - apply (header_written w config log0 absPath _ _ Hcap) in Hh as [Hh _].
    discriminate.
  - apply (header_written w config log0 absPath _ _ Hcap) in Hh as (_ & Hu & _).
    now destruct (Run_safe _ _ _ _ _ _ _ _ HR Hu healthy_plan_safe) as [-> _].
Qed.

End Healthy.

(** The counter of a run that returns nil is the number of selected
    files. *)
Lemma success_count (w : World) (config : Config) (log0 : list LogRecord)
    (absPath : string) (tree : Node) :
  wAbs w = inr absPath -> wCreateErr w = None -> wRoot w = inr tree ->
  nonEmptyNames tree = true ->
  result (processDirectory w config log0) = None ->
  processed (processDirectory w config log0)
  = length (selectedFiles config absPath tree).
Proof.
  intros Habs Hcreate Hroot Hnames Hres.
  pose proof (success_transcribes_selected w config log0 absPath tree
                Habs Hcreate Hroot Hnames Hres) as Hsel.
  apply (f_equal (@length string)) in Hsel. rewrite !length_map in Hsel.
  rewrite <- Hsel.
  destruct (processDirectory_run w config log0 absPath Habs Hcreate)
    as [(st1 & e & _ & He & _)|(st1 & st2 & Hh & HR & -> & _)].
  { congruence. }
  apply writeAll_frame in Hh as [_ Hc].
  apply Run_fileCount in HR. now rewrite Hc in HR.
Qed.

(** A tree in which the directories outside the excluded ones can be
    listed and the selected files can be read, written to a device that
    does not fail: the run returns nil, counts the selected files and
    leaves the header and their sections in the output file.  Excluded
    directories that cannot be listed and files that cannot be read but
    are not selected do no harm. *)
Theorem healthy_run_succeeds (w : World) (config : Config) (log0 : list LogRecord)
    (absPath : string) (tree : Node) :
  wAbs w = inr absPath -> wCreateErr w = None -> wCapacity w = None ->
  wRoot w = inr tree -> nonEmptyNames tree = true ->
  listable config [] tree = true ->
  Forall (fun pos => readable (wOpen w (pathOf absPath pos)))
         (selectedFiles config absPath tree) ->
  let o := processDirectory w config log0 in
  result o = None
  /\ processed o = length (selectedFiles config absPath tree)
  /\ exists out, output o = Some out
                 /\ data out = expectedOutput w config absPath tree.
Proof.
  intros Habs Hcreate Hcap Hroot Hnames Hlist Hread o. subst o.
  pose proof (healthy_result w config log0 absPath tree Habs Hcreate Hcap Hroot
                Hnames Hlist Hread) as Hres.
  split; [exact Hres|]. split.
  - now apply success_count.
  - now apply success_output.
Qed.

Lemma plainFile_readable (c : string) :
  forallb (fun line => String.length line <? 1000) (rawLines c) = true ->
  readable (plainFile c).
Proof.
  intros H. split; [reflexivity|]. split; [reflexivity|].
  apply List.Forall_forall. intros line Hline.
  rewrite forallb_forall in H. apply H, Nat.ltb_lt in Hline.
  assert (1000 <= MaxScanTokenSize) by (apply Nat.leb_le; vm_compute; reflexivity).
  lia.
Qed.

Lemma healthy_run_succeeds_witness :
  result (processDirectory Rough.world Scenario.config []) = None
  /\ processed (processDirectory Rough.world Scenario.config []) = 1.
Proof.
  destruct (healthy_run_succeeds Rough.world Scenario.config [] "/root"
              Rough.tree eq_refl eq_refl eq_refl eq_refl eq_refl eq_refl)
    as (Hres & Hcount & _).
  - repeat (apply List.Forall_cons || apply List.Forall_nil);
      apply plainFile_readable; reflexivity.
  - split; [exact Hres|exact Hcount].
Defined.

(** When the input path names a file that is not a directory, with a
    wanted extension and readable, the run transcribes it under the
    relative path ["."]. *)
Theorem file_as_input (w : World) (config : Config) (log0 : list LogRecord)
    (absPath : string) :
  wAbs w = inr absPath -> wCreateErr w = None -> wCapacity w = None ->
  wRoot w = inr File ->
  shouldIncludeFile absPath (includeMap config) = true ->
  readable (wOpen w absPath) ->
  let o := processDirectory w config log0 in
  result o = None /\ processed o = 1
  /\ exists out,
       output o = Some out
       /\ data out = String.concat "" (headerLines absPath config)
                     +:+ fileSection "." (content (wOpen w absPath)).
Proof.
  intros Habs Hcreate Hcap Hroot Hinc Hread o. subst o.
  assert (selectedFiles config absPath File = [[]]) as Hsel.
  { unfold selectedFiles. simpl. unfold pathOf. simpl. now rewrite Hinc. }
  assert (result (processDirectory w config log0) = None) as Hres.
  { apply (healthy_result w config log0 absPath File Habs Hcreate Hcap Hroot);
      [reflexivity|reflexivity|].
    rewrite Hsel. constructor; [exact Hread|constructor]. }
  split; [exact Hres|]. split.
  - rewrite (success_count w config log0 absPath File Habs Hcreate Hroot eq_refl Hres).
    now rewrite Hsel.
  - destruct (success_output w config log0 absPath File Habs Hcreate Hroot eq_refl
                Hres Hcap) as (out & Hout & Hdata).
    exists out. split; [exact Hout|]. rewrite Hdata. unfold expectedOutput.
    rewrite Hsel. reflexivity.
Qed.

End Outcomes.

Module Edges.
Import Str StrFacts Transcriber Callback RunFacts Directory Positions TreeWalk Outcomes.

Lemma Run_single {S : Type} (fn : @WalkDirFunc S) (step : Step) s cs s' r :
  Run fn [step] s cs s' r ->
  exists ret,
    fn (stepPath step) {| IsDir := stepIsDir step |} (errOf step) s = (s', ret)
    /\ cs = [callOf step ret]
    /\ r = if isFatal ret then ret else None.
Proof.
  inversion 1 as [|? ? ? s1 ? ret ? cs' Hf Hfat HR|? ? ? s1 e Hf Hs]; subst.
  - inversion HR; subst. exists ret. rewrite Hfat. auto.
  - exists (Some e). simpl. rewrite Hs. auto.
Qed.

(** A run whose walk makes a single call, on a device that does not
    fail. *)
Lemma single_call_run (w : World) (config : Config) (log0 : list LogRecord)
    (absPath : string) (step : Step) :
  wAbs w = inr absPath -> wCreateErr w = None -> wCapacity w = None ->
  walkPlan w config absPath = [step] ->
  let o := processDirectory w config log0 in
  exists st1 st2 ret,
    unlimited st1
    /\ accepted st1 = String.concat "" (headerLines absPath config)
    /\ fileCount st1 = 0
    /\ walkFn w config absPath (stepPath step) {| IsDir := stepIsDir step |}
              (errOf step) st1 = (st2, ret)
    /\ calls o = [callOf step ret]
    /\ result o = (if isFatal ret then ret else None)
    /\ processed o = fileCount st2
    /\ output o = Some (wr (fst (Flush (writer st2)))).
Proof.
  intros Habs Hcreate Hcap Hplan o. subst o.
  destruct (processDirectory_run w config log0 absPath Habs Hcreate)
    as [(st1 & e & Hh & _)|(st1 & st2 & Hh & HR & Hp & Hout & _)].
  - apply (header_written w config log0 absPath _ _ Hcap) in Hh as [Hh _].
    discriminate.
  - apply (header_written w config log0 absPath _ _ Hcap) in Hh as (_ & Hu & Ha & Hc).
    rewrite Hplan in HR. apply Run_single in HR as (ret & Hf & Hcs & Hr).
    exists st1, st2, ret. auto 10.
Qed.

(** When the input path cannot be examined, the run fails with the error
    of [Lstat] after one call of the callback; the output file was created
    before and holds the header alone. *)
Theorem missing_input_leaves_header (w : World) (config : Config)
    (log0 : list LogRecord) (absPath : string) (e : syserr) :
  wAbs w = inr absPath -> wCreateErr w = None -> wCapacity w = None ->
  wRoot w = inl e ->
  let o := processDirectory w config log0 in
  result o = Some (PathError "lstat" absPath e)
  /\ map callPath (calls o) = [absPath]
  /\ map callErr (calls o) = [Some (PathError "lstat" absPath e)]
  /\ processed o = 0
  /\ exists out, output o = Some out
                 /\ data out = String.concat "" (headerLines absPath config).
Proof.
  intros Habs Hcreate Hcap Hroot o. subst o.
  destruct (single_call_run w config log0 absPath
              {| stepPath := absPath; stepIsDir := false;
                 stepErr := Some ("lstat", e) |} Habs Hcreate Hcap)
    as (st1 & st2 & ret & Hu & Ha & Hc & Hf & -> & -> & -> & ->).
  { unfold walkPlan, topPlan. now rewrite Hroot. }
  unfold walkFn, errOf in Hf. cbn in Hf. injection Hf as <- <-.
  split; [reflexivity|]. split; [reflexivity|]. split; [reflexivity|].
  split; [exact Hc|].
  eexists. split; [reflexivity|].
  rewrite flushed_output by now apply logSt_unlimited.
  now rewrite logSt_accepted.
Qed.

Lemma missing_input_leaves_header_witness :
  result (processDirectory
            {| wAbs := inr "/root"; wCreateErr := None; wCapacity := None;
               wCloseErr := None; wRoot := inl ENOENT; wOpen := Scenario.files |}
            Scenario.config [])
  = Some (PathError "lstat" "/root" ENOENT).
Proof.
  apply (missing_input_leaves_header
           {| wAbs := inr "/root"; wCreateErr := None; wCapacity := None;
              wCloseErr := None; wRoot := inl ENOENT; wOpen := Scenario.files |}
           Scenario.config [] "/root" ENOENT eq_refl eq_refl eq_refl eq_refl).
Defined.

(** When the exclusion list has the entry ["."], the relative path of the
    input directory, the walk skips that directory: one call is made, no
    file is transcribed, the run returns nil and the output holds the
    header alone. *)
Theorem excluded_root_skips_all (w : World) (config : Config)
    (log0 : list LogRecord) (absPath : string)
    (entries : list (string * Node)) (listErr : option syserr) :
  wAbs w = inr absPath -> wCreateErr w = None -> wCapacity w = None ->
  wRoot w = inr (Dir entries listErr) ->
  In "." (excludeDirs config) ->
  excludeMap config = createLookupMap (excludeDirs config) ->
  let o := processDirectory w config log0 in
  result o = None
  /\ calls o = [{| callPath := absPath; callIsDir := true;
                   callErr := None; callRet := Some SkipDir |}]
  /\ processed o = 0
  /\ exists out, output o = Some out
                 /\ data out = String.concat "" (headerLines absPath config).
Proof.
  intros Habs Hcreate Hcap Hroot Hin Hmap o. subst o.
  assert (Rel absPath absPath = inr ".") as HRel
    by (unfold Rel; now rewrite String.eqb_refl).
  assert (shouldExcludeDir "." (excludeMap config) = true) as Hex.
  { apply PathMatcher.shouldExcludeDir_map. right. rewrite Hmap.
    now apply createLookupMap_member. }
  destruct (single_call_run w config log0 absPath
              {| stepPath := absPath; stepIsDir := true; stepErr := None |}
              Habs Hcreate Hcap)
    as (st1 & st2 & ret & Hu & Ha & Hc & Hf & -> & -> & -> & ->).
  { unfold walkPlan, topPlan. rewrite Hroot. cbn [plan].
    unfold prunePath. now rewrite HRel, Hex. }
  unfold walkFn, errOf in Hf. cbn in Hf. rewrite HRel, Hex in Hf.
  injection Hf as <- <-.
  split; [reflexivity|]. split; [reflexivity|]. split; [exact Hc|].
  eexists. split; [reflexivity|].
  rewrite flushed_output by now apply logSt_unlimited.
  now rewrite logSt_accepted.
Qed.

Lemma excluded_root_skips_all_witness :
  calls (processDirectory Scenario.world Situations.configNoRoot [])
  = [{| callPath := "/root"; callIsDir := true;
        callErr := None; callRet := Some SkipDir |}].
Proof.
  destruct (excluded_root_skips_all Scenario.world Situations.configNoRoot [] "/root"
              _ None eq_refl eq_refl eq_refl eq_refl) as (_ & H & _).
  - now left.
  - reflexivity.
  - exact H.
Defined.

Lemma file_as_input_witness :
  option_map data (output (processDirectory Situations.fileWorld
                             (mkConfig TrimSpaceASCII defaultFlags) []))
  = Some ("# Contextify Output" +:+ nl
          +:+ "# Generated from: /root/a.go" +:+ nl
          +:+ "# Excluded directories: .git" +:+ nl
          +:+ nl
          +:+ "## File: ." +:+ nl
          +:+ "```" +:+ nl
          +:+ "package a" +:+ nl
          +:+ "func A()" +:+ nl
          +:+ "```" +:+ nl
          +:+ nl).
Proof.
  destruct (file_as_input Situations.fileWorld (mkConfig TrimSpaceASCII defaultFlags)
              [] "/root/a.go" eq_refl eq_refl eq_refl eq_refl eq_refl)
    as (_ & _ & out & Hout & Hdata).
  - apply plainFile_readable. reflexivity.
  - rewrite Hout. simpl. rewrite Hdata. reflexivity.
Defined.

(** *** A line that does not fit the buffer of the scanner *)

Lemma scanTokens_long (pre post : list string) (long : string) :
  Forall (fun line => String.length line < MaxScanTokenSize) pre ->
  MaxScanTokenSize <= String.length long ->
  scanTokens (pre ++ long :: post) = (map dropCR pre, Some ErrTooLong).
Proof.
  intros Hpre Hlong. induction Hpre as [|line pre Hline _ IH]; simpl.
  - apply Nat.leb_le in Hlong. now rewrite Hlong.
  - apply Nat.leb_gt in Hline. now rewrite Hline, IH.
Qed.

(** A file with a line of [MaxScanTokenSize] bytes or more: [processFile]
    fails with [bufio.ErrTooLong] after it has written the header of the
    section, the fence and the lines before that line; the closing fence
    is not written. *)
Theorem long_line_aborts (w : World) (lg : Logger) (fullPath relPath : string)
    (st : State) (pre post : list string) (long : string) :
  openErr (wOpen w fullPath) = None ->
  rawLines (content (wOpen w fullPath)) = pre ++ long :: post ->
  Forall (fun line => String.length line < MaxScanTokenSize) pre ->
  MaxScanTokenSize <= String.length long ->
  unlimited st ->
  exists st',
    processFile w lg fullPath relPath st
    = (st', Some (Errorf ("error reading file " +:+ fullPath +:+ ": ") ErrTooLong))
    /\ accepted st'
       = accepted st +:+ "## File: " +:+ relPath +:+ nl +:+ fence +:+ nl
         +:+ joinLines (map dropCR pre)
    /\ fileCount st' = fileCount st.
Proof.
  intros Hopen Hraw Hpre Hlong Hu.
  unfold processFile. rewrite Hopen. unfold processFileBody.
  set (stA := match statErr (wOpen w fullPath) with
              | Some e => _ | None => _ end).
  assert (unlimited stA /\ accepted stA = accepted st /\ fileCount stA = fileCount st)
    as (HuA & HaA & HcA).
  { subst stA. destruct (statErr (wOpen w fullPath));
      (split; [now apply logSt_unlimited|split; [apply logSt_accepted|reflexivity]]). }
  clearbody stA.
  destruct (Fprint_unlimited ("## File: " +:+ relPath +:+ nl) stA HuA)
    as (stB & HB & HuB). rewrite HB.
  destruct (Fprint_unlimited (fence +:+ nl) stB HuB) as (stC & HC & HuC). rewrite HC.
  rewrite Hraw, (scanTokens_long pre post long Hpre Hlong).
  destruct (copyLines_unlimited (map dropCR pre) 0 stC HuC) as (stD & n & HD & HuD).
  rewrite HD. cbn [scannerErr].
  apply Fprint_ok in HB as (HaB & _ & HcB & _).
  apply Fprint_ok in HC as (HaC & _ & HcC & _).
  apply copyLines_ok in HD as (HaD & _ & _ & HcD).
  eexists. split; [reflexivity|].
  destruct (fcloseErr (wOpen w fullPath)); rewrite ?logSt_accepted; cbn [fileCount logSt];
    (split; [rewrite HaD, HaC, HaB, HaA, !append_assoc; reflexivity|congruence]).
Qed.

Lemma long_line_aborts_witness :
  snd (processFile Situations.longLineWorld {| handlerLevel := LevelInfo |}
         "/root/big.txt" "big.txt" (freshState "context.txt"))
  = Some (Errorf "error reading file /root/big.txt: " ErrTooLong).
Proof.
  destruct (long_line_aborts Situations.longLineWorld {| handlerLevel := LevelInfo |}
              "/root/big.txt" "big.txt" (freshState "context.txt")
              ["first"] ["third"] (Scenario.longLine MaxScanTokenSize))
    as (st' & H & _).
  - reflexivity.
  - refine (bool_decide_unpack _ _). vm_compute. exact I.
  - constructor; [|constructor]. apply Nat.ltb_lt. vm_compute. reflexivity.
  - apply Nat.leb_le. vm_compute. reflexivity.
  - split; reflexivity.
  - rewrite H. reflexivity.
Defined.

End Edges.

Module Logging.
Import Str StrFacts Transcriber Callback RunFacts Directory.

(** *** The output file keeps its name, its device and its close error *)

Lemma sameFile_refl st : sameFile st st.
Proof. repeat split. Qed.

Lemma sameFile_trans a b c : sameFile a b -> sameFile b c -> sameFile a c.
Proof. intros (H1 & H2 & H3) (K1 & K2 & K3). repeat split; congruence. Qed.

Lemma Fprint_sameFile s st : sameFile st (fst (Fprint s st)).
Proof.
  unfold Fprint. destruct (Write (writer st) s) as [b err] eqn:Hw.
  apply WriterFacts.Write_meta in Hw. exact Hw.
Qed.

Lemma writeAll_sameFile lines st : sameFile st (fst (writeAll lines st)).
Proof.
  revert st; induction lines as [|line lines IH]; intros st; simpl.
  - apply sameFile_refl.
  - pose proof (Fprint_sameFile line st) as H.
    destruct (Fprint line st) as [st1 err]. simpl in H.
    destruct err; [exact H|]. eapply sameFile_trans; [exact H|apply IH].
Qed.

Lemma copyLines_sameFile tokens n st :
  sameFile st (fst (fst (copyLines tokens n st))).
Proof.
  revert n st; induction tokens as [|line tokens IH]; intros n st; simpl.
  - apply sameFile_refl.
  - pose proof (Fprint_sameFile (line +:+ nl) st) as H.
    destruct (Fprint (line +:+ nl) st) as [st1 err]. simpl in H.
    destruct err; [exact H|]. eapply sameFile_trans; [exact H|apply IH].
Qed.

Lemma processFile_sameFile w lg fullPath relPath st :
  sameFile st (fst (processFile w lg fullPath relPath st)).
Proof.
  unfold processFile. destruct (openErr (wOpen w fullPath)); [repeat split|].
  assert (sameFile st (fst (processFileBody lg (wOpen w fullPath) fullPath relPath st)))
    as Hb.
  { unfold processFileBody.
    set (stA := match statErr (wOpen w fullPath) with Some _ => _ | None => _ end).
    assert (sameFile st stA) as HA
      by (subst stA; destruct (statErr (wOpen w fullPath)); repeat split).
    clearbody stA.
    pose proof (Fprint_sameFile ("## File: " +:+ relPath +:+ nl) stA) as HB.
    destruct (Fprint _ stA) as [stB err]. cbn [fst] in HB.
    pose proof (sameFile_trans _ _ _ HA HB) as HB'.
    destruct err; [exact HB'|].
    pose proof (Fprint_sameFile (fence +:+ nl) stB) as HC.
    destruct (Fprint _ stB) as [stC err]. cbn [fst] in HC.
    pose proof (sameFile_trans _ _ _ HB' HC) as HC'.
    destruct err; [exact HC'|].
    destruct (scanTokens _) as [tokens tooLong].
    pose proof (copyLines_sameFile tokens 0 stC) as HD.
    destruct (copyLines tokens 0 stC) as [[stD n] err]. cbn [fst] in HD.
    pose proof (sameFile_trans _ _ _ HC' HD) as HD'.
    destruct err; [exact HD'|].
    destruct (scannerErr _ _ _); [exact HD'|].
    pose proof (Fprint_sameFile (fence +:+ nl +:+ nl)
                  (logSt lg LevelDebug "File processed"
                     [("path", VString relPath); ("lines", VInt n)] stD)) as HE.
    destruct (Fprint _ _) as [stE err]. cbn [fst] in HE.
    destruct err; (eapply sameFile_trans; [exact HD'|exact HE]). }
  destruct (processFileBody _ _ _ _ _) as [st1 ret]. cbn [fst] in *.
  destruct (fcloseErr _); exact Hb.
Qed.

Lemma walkFn_sameFile w config absPath path d err st :
  sameFile st (fst (walkFn w config absPath path d err st)).
Proof.
  unfold walkFn. destruct err; [repeat split|].
  destruct (Rel absPath path); [repeat split|].
  destruct (IsDir d).
  - destruct (shouldExcludeDir _ _); repeat split.
  - destruct (shouldIncludeFile _ _); cbn [negb]; [|repeat split].
    pose proof (processFile_sameFile w (logger config) path s
                  (logSt (logger config) LevelDebug "Processing file"
                     [("path", VString s)] st)) as H.
    destruct (processFile _ _ _ _ _) as [st2 perr]. cbn [fst] in H.
    destruct perr; exact H.
Qed.

Lemma Run_sameFile w config absPath steps st cs st' r :
  Run (walkFn w config absPath) steps st cs st' r -> sameFile st st'.
Proof.
  induction 1 as [s|step rest s s1 s' ret r cs Hf Hfat HR IH
                 |step rest s s1 e Hf Hs].
  - apply sameFile_refl.
  - eapply sameFile_trans; [|exact IH].
    pose proof (walkFn_sameFile w config absPath (stepPath step)
                  {| IsDir := stepIsDir step |} (errOf step) s) as H.
    now rewrite Hf in H.
  - pose proof (walkFn_sameFile w config absPath (stepPath step)
                  {| IsDir := stepIsDir step |} (errOf step) s) as H.
    now rewrite Hf in H.
Qed.

(** The file a run leaves is the one [os.Create] made: it has the name
    given by [-output]. *)
Lemma output_file (w : World) (config : Config) (log0 : list LogRecord) out :
  output (processDirectory w config log0) = Some out ->
  name out = outputPath config /\ capacity out = wCapacity w
  /\ closeErr out = wCloseErr w.
Proof.
  destruct (wAbs w) as [e|abs] eqn:Habs.
  { unfold processDirectory. rewrite Habs. discriminate. }
  destruct (wCreateErr w) as [e|] eqn:Hcreate.
  { unfold processDirectory. rewrite Habs, Hcreate. discriminate. }
  assert (forall st, sameFile (initState w config log0 abs) st ->
                     forall b, wr (fst (Flush (writer st))) = b ->
                               name b = outputPath config /\ capacity b = wCapacity w
                               /\ closeErr b = wCloseErr w) as Hfin.
  { intros st (H1 & H2 & H3) b <-.
    destruct (Flush (writer st)) as [b' err] eqn:Hf.
    apply WriterFacts.Flush_meta in Hf as (K1 & K2 & K3). simpl.
    rewrite K1, K2, K3, H1, H2, H3. auto. }
  destruct (processDirectory_run w config log0 abs Habs Hcreate)
    as [(st1 & e & Hh & _ & _ & _ & -> & _)|(st1 & st2 & Hh & HR & _ & -> & _)];
    intros [= <-]; eapply Hfin; try reflexivity.
  - pose proof (writeAll_sameFile (headerLines abs config) (initState w config log0 abs))
      as H. unfold writeHeader in Hh. now rewrite Hh in H.
  - pose proof (writeAll_sameFile (headerLines abs config) (initState w config log0 abs))
      as H. unfold writeHeader in Hh. rewrite Hh in H.
    eapply sameFile_trans; [exact H|]. eapply Run_sameFile; eauto.
Qed.

Section Simulation.
Variables w1 w2 : World.
Variables c1 c2 : Config.
Variable L : list LogRecord -> list LogRecord -> Prop.

(** The two worlds give the same answers but for [Stat] and [Close] of
    the input files, the two configurations differ in the logger only. *)
Hypothesis Hfiles :
  forall p, openErr (wOpen w1 p) = openErr (wOpen w2 p)
            /\ content (wOpen w1 p) = content (wOpen w2 p)
            /\ readErr (wOpen w1 p) = readErr (wOpen w2 p).
Hypothesis Hquiet :
  (forall p, statErr (wOpen w1 p) = statErr (wOpen w2 p)
             /\ fcloseErr (wOpen w1 p) = fcloseErr (wOpen w2 p))
  \/ (forall l1 l2, L l1 l2).
Hypothesis HL :
  forall lvl m a l1 l2,
    L l1 l2 -> L (logTo (logger c1) lvl m a l1) (logTo (logger c2) lvl m a l2).
Hypothesis Hexcl : excludeMap c1 = excludeMap c2.
Hypothesis Hincl : includeMap c1 = includeMap c2.

Local Abbreviation rel := (sameOutput L).

Lemma sim_logSt lvl m a st1 st2 :
  rel st1 st2 -> rel (logSt (logger c1) lvl m a st1) (logSt (logger c2) lvl m a st2).
Proof. intros (Hw & Hc & Hl). repeat split; simpl; auto. Qed.

(** Two records that only one of the runs may write. *)
Lemma sim_logSt_any lvl1 m1 a1 lvl2 m2 a2 st1 st2 :
  (forall l1 l2, L l1 l2) ->
  rel st1 st2 ->
  rel (logSt (logger c1) lvl1 m1 a1 st1) (logSt (logger c2) lvl2 m2 a2 st2).
Proof. intros Hany (Hw & Hc & Hl). repeat split; simpl; auto. Qed.

Lemma sim_Fprint s st1 st2 :
  rel st1 st2 ->
  snd (Fprint s st1) = snd (Fprint s st2)
  /\ rel (fst (Fprint s st1)) (fst (Fprint s st2)).
Proof.
  intros (Hw & Hc & Hl). unfold Fprint. rewrite Hw.
  destruct (Write (writer st2) s) as [b err]. simpl. repeat split; assumption.
Qed.

Ltac sim_print s a b Hrel :=
  let He := fresh "He" in
  let Hr := fresh "Hr" in
  let e1 := fresh "e" in
  let e2 := fresh "e" in
  destruct (sim_Fprint s a b Hrel) as [He Hr];
  destruct (Fprint s a) as [? e1]; destruct (Fprint s b) as [? e2];
  simpl in He, Hr; subst e2; clear Hrel.

Lemma sim_writeAll lines st1 st2 :
  rel st1 st2 ->
  snd (writeAll lines st1) = snd (writeAll lines st2)
  /\ rel (fst (writeAll lines st1)) (fst (writeAll lines st2)).
Proof.
  revert st1 st2; induction lines as [|line lines IH]; intros st1 st2 Hrel; simpl.
  - auto.
  - sim_print line st1 st2 Hrel. destruct e; simpl; auto.
Qed.

Lemma sim_copyLines tokens n st1 st2 :
  rel st1 st2 ->
  snd (copyLines tokens n st1) = snd (copyLines tokens n st2)
  /\ snd (fst (copyLines tokens n st1)) = snd (fst (copyLines tokens n st2))
  /\ rel (fst (fst (copyLines tokens n st1))) (fst (fst (copyLines tokens n st2))).
Proof.
  revert n st1 st2; induction tokens as [|line tokens IH]; intros n st1 st2 Hrel; simpl.
  - auto.
  - sim_print (line +:+ nl) st1 st2 Hrel. destruct e; simpl; auto.
Qed.

Lemma sim_processFile fullPath relPath st1 st2 :
  rel st1 st2 ->
  snd (processFile w1 (logger c1) fullPath relPath st1)
  = snd (processFile w2 (logger c2) fullPath relPath st2)
  /\ rel (fst (processFile w1 (logger c1) fullPath relPath st1))
         (fst (processFile w2 (logger c2) fullPath relPath st2)).
Proof.
  intros Hrel. unfold processFile.
  destruct (Hfiles fullPath) as (Hopen & Hcontent & Hread). rewrite <- Hopen.
  destruct (openErr (wOpen w1 fullPath)); [simpl; auto|].
  assert (snd (processFileBody (logger c1) (wOpen w1 fullPath) fullPath relPath st1)
          = snd (processFileBody (logger c2) (wOpen w2 fullPath) fullPath relPath st2)
          /\ rel (fst (processFileBody (logger c1) (wOpen w1 fullPath) fullPath relPath st1))
                 (fst (processFileBody (logger c2) (wOpen w2 fullPath) fullPath relPath st2)))
    as [He Hr].
  { unfold processFileBody. rewrite <- Hcontent.
    set (sA := match statErr (wOpen w1 fullPath) with Some _ => _ | None => _ end).
    set (sB := match statErr (wOpen w2 fullPath) with Some _ => _ | None => _ end).
    assert (rel sA sB) as HrelA.
    { subst sA sB. destruct Hquiet as [Hsame|Hany].
      - destruct (Hsame fullPath) as [<- _].
        destruct (statErr (wOpen w1 fullPath)); now apply sim_logSt.
      - destruct (statErr (wOpen w1 fullPath)), (statErr (wOpen w2 fullPath));
          now apply sim_logSt_any. }
    clearbody sA sB. clear Hrel.
    sim_print ("## File: " +:+ relPath +:+ nl) sA sB HrelA.
    destruct e; [simpl; auto|].
    sim_print (fence +:+ nl) s s0 Hr. destruct e; [simpl; auto|].
    destruct (scanTokens (rawLines (content (wOpen w1 fullPath)))) as [tokens tooLong].
    destruct (sim_copyLines tokens 0 s1 s2 Hr0) as (He & Hn & HrelD).
    destruct (copyLines tokens 0 s1) as [[sD1 n1] e1].
    destruct (copyLines tokens 0 s2) as [[sD2 n2] e2].
    simpl in He, Hn, HrelD. subst e2 n2. destruct e1; [simpl; auto|].
    unfold scannerErr. rewrite <- Hread.
    destruct (match tooLong with
              | Some e => Some e
              | None => option_map (PathError "read" fullPath)
                                   (readErr (wOpen w1 fullPath))
              end); [simpl; auto|].
    pose proof (sim_logSt LevelDebug "File processed"
                  [("path", VString relPath); ("lines", VInt n1)] _ _ HrelD) as HrelE.
    sim_print (fence +:+ nl +:+ nl)
              (logSt (logger c1) LevelDebug "File processed"
                 [("path", VString relPath); ("lines", VInt n1)] sD1)
              (logSt (logger c2) LevelDebug "File processed"
                 [("path", VString relPath); ("lines", VInt n1)] sD2) HrelE.
    destruct e; simpl; auto. }
  destruct (processFileBody (logger c1) (wOpen w1 fullPath) fullPath relPath st1)
    as [sa ra].
  destruct (processFileBody (logger c2) (wOpen w2 fullPath) fullPath relPath st2)
    as [sb rb].
  simpl in He, Hr. subst rb. simpl. split; [reflexivity|].
  destruct Hquiet as [Hsame|Hany].
  - destruct (Hsame fullPath) as [_ <-].
    destruct (fcloseErr (wOpen w1 fullPath)); [now apply sim_logSt|assumption].
  - destruct Hr as (Hw & Hc & _).
    destruct (fcloseErr (wOpen w1 fullPath)), (fcloseErr (wOpen w2 fullPath));
      repeat split; simpl; auto.
Qed.

Lemma sim_walkFn absPath path d err st1 st2 :
  rel st1 st2 ->
  snd (walkFn w1 c1 absPath path d err st1) = snd (walkFn w2 c2 absPath path d err st2)
  /\ rel (fst (walkFn w1 c1 absPath path d err st1))
         (fst (walkFn w2 c2 absPath path d err st2)).
Proof.
  intros Hrel. unfold walkFn. rewrite <- Hexcl, <- Hincl.
  destruct err as [e|]; [simpl; split; [reflexivity|now apply sim_logSt]|].
  destruct (Rel absPath path) as [e|relPath]; [simpl; auto|].
  destruct (IsDir d).
  - destruct (shouldExcludeDir relPath (excludeMap c1)); simpl;
      [split; [reflexivity|now apply sim_logSt]|auto].
  - destruct (shouldIncludeFile path (includeMap c1)); simpl;
      [|split; [reflexivity|now apply sim_logSt]].
    pose proof (sim_logSt LevelDebug "Processing file" [("path", VString relPath)]
                  _ _ Hrel) as Hrel1.
    destruct (sim_processFile path relPath _ _ Hrel1) as [He Hr].
    destruct (processFile w1 (logger c1) path relPath _) as [sa ra].
    destruct (processFile w2 (logger c2) path relPath _) as [sb rb].
    simpl in He, Hr. subst rb. destruct ra as [e|]; simpl.
    + split; [reflexivity|now apply sim_logSt].
    + split; [reflexivity|]. destruct Hr as (Hw & Hc & Hl).
      repeat split; simpl; auto.
Qed.

Lemma sim_Run absPath steps s1 cs1 s1' r1 :
  Run (walkFn w1 c1 absPath) steps s1 cs1 s1' r1 ->
  forall s2 cs2 s2' r2,
    Run (walkFn w2 c2 absPath) steps s2 cs2 s2' r2 ->
    rel s1 s2 ->
    cs1 = cs2 /\ r1 = r2 /\ rel s1' s2'.
Proof.
  induction 1 as [s|step rest s sa s' ret r cs Hf Hfat HR IH
                 |step rest s sa e Hf Hs];
    intros s2 cs2 s2' r2 HR2 Hrel.
  - inversion HR2; subst. auto.
  - inversion HR2 as [|? ? ? sb ? ret2 ? cs' Hf2 Hfat2 HR2'|? ? ? sb e2 Hf2 Hs2]; subst;
      pose proof (sim_walkFn absPath (stepPath step) {| IsDir := stepIsDir step |}
                    (errOf step) s s2 Hrel) as [He Hr];
      rewrite Hf, Hf2 in He, Hr; simpl in He, Hr; subst.
    + destruct (IH _ _ _ _ HR2' Hr) as (-> & -> & Hr'). auto.
    + simpl in Hfat. rewrite Hs2 in Hfat. discriminate.
  - inversion HR2 as [|? ? ? sb ? ret2 ? cs' Hf2 Hfat2 HR2'|? ? ? sb e2 Hf2 Hs2]; subst;
      pose proof (sim_walkFn absPath (stepPath step) {| IsDir := stepIsDir step |}
                    (errOf step) s s2 Hrel) as [He Hr];
      rewrite Hf, Hf2 in He, Hr; simpl in He, Hr; subst.
    + simpl in Hfat2. rewrite Hs in Hfat2. discriminate.
    + injection He as <-. auto.
Qed.

(** The records of the deferred functions are of level error: both logs
    get them. *)
Lemma sim_deferred (b : Writer) l1 l2 :
  L l1 l2 -> L (l1 ++ deferredRecords b) (l2 ++ deferredRecords b).
Proof.
  intros Hl. unfold deferredRecords.
  assert (forall r l1 l2, level r = LevelError -> L l1 l2 -> L (l1 ++ [r]) (l2 ++ [r]))
    as Hrec.
  { intros [lvl m a] k1 k2 Hlvl Hk. simpl in Hlvl. subst lvl.
    rewrite <- (logTo_error (logger c1) m a k1), <- (logTo_error (logger c2) m a k2).
    now apply HL. }
  destruct (snd (Flush b)) as [fe|]; destruct (closeErr (wr (fst (Flush b)))) as [ce|];
    simpl; rewrite ?app_nil_r; try assumption.
  - change [flushRecord fe; closeRecord (wr (fst (Flush b))) ce]
      with ([flushRecord fe] ++ [closeRecord (wr (fst (Flush b))) ce]).
    rewrite !app_assoc. apply Hrec; [reflexivity|]. now apply Hrec.
  - now apply Hrec.
  - now apply Hrec.
Qed.

Hypothesis Habs : wAbs w1 = wAbs w2.
Hypothesis Hcreate : wCreateErr w1 = wCreateErr w2.
Hypothesis Hcap : wCapacity w1 = wCapacity w2.
Hypothesis Hclose : wCloseErr w1 = wCloseErr w2.
Hypothesis Hroot : wRoot w1 = wRoot w2.
Hypothesis Hout : outputPath c1 = outputPath c2.
Hypothesis Hdirs : excludeDirs c1 = excludeDirs c2.
Hypothesis Hexts : includeExts c1 = includeExts c2.

(** The two runs return the same error, make the same calls, count the
    same files and leave the same output file; their logs are related. *)
Lemma sim_processDirectory (log1 log2 : list LogRecord) :
  L log1 log2 ->
  let o1 := processDirectory w1 c1 log1 in
  let o2 := processDirectory w2 c2 log2 in
  result o1 = result o2 /\ calls o1 = calls o2 /\ processed o1 = processed o2
  /\ output o1 = output o2 /\ L (finalLogs o1) (finalLogs o2).
Proof.
  intros Hlog o1 o2. subst o1 o2.
  destruct (wAbs w2) as [e|abs] eqn:Habs2.
  { unfold processDirectory. rewrite Habs, Habs2. simpl. auto 10. }
  destruct (wCreateErr w2) as [e|] eqn:Hcreate2.
  { unfold processDirectory. rewrite Habs, Habs2, Hcreate, Hcreate2, Hout. simpl.
    repeat split; try reflexivity. now apply HL. }
  assert (wAbs w1 = inr abs) as Habs1 by congruence.
  assert (wCreateErr w1 = None) as Hcreate1 by congruence.
  assert (rel (initState w1 c1 log1 abs) (initState w2 c2 log2 abs)) as Hrel0.
  { unfold initState. rewrite Hcap, Hclose, Hout.
    repeat split; simpl; try reflexivity. now apply HL. }
  assert (headerLines abs c1 = headerLines abs c2) as Hhead
    by (unfold headerLines; now rewrite Hdirs, Hexts).
  pose proof (sim_writeAll (headerLines abs c2) _ _ Hrel0) as [Hherr Hrel1].
  assert (walkPlan w1 c1 abs = walkPlan w2 c2 abs) as Hplan.
  { unfold walkPlan, prunePath. now rewrite Hroot, Hexcl. }
  destruct (processDirectory_run w1 c1 log1 abs Habs1 Hcreate1)
    as [(sa & ea & Hh1 & -> & -> & -> & -> & ->)
       |(sa & sa2 & Hh1 & HR1 & -> & -> & ->)];
    destruct (processDirectory_run w2 c2 log2 abs Habs2 Hcreate2)
      as [(sb & eb & Hh2 & -> & -> & -> & -> & ->)
         |(sb & sb2 & Hh2 & HR2 & -> & -> & ->)];
    unfold writeHeader in Hh1, Hh2; rewrite Hhead in Hh1;
    rewrite Hh1, Hh2 in Hherr, Hrel1; simpl in Hherr, Hrel1;
    try discriminate.
  - injection Hherr as ->. destruct Hrel1 as (Hw & _ & Hl). rewrite Hw.
    repeat split; try reflexivity. now apply sim_deferred.
  - rewrite Hplan in HR1.
    destruct (sim_Run abs _ _ _ _ _ HR1 _ _ _ _ HR2 Hrel1) as (Hcs & Hres & Hw & Hc & Hl).
    rewrite Hcs, Hres, Hw, Hc. repeat split; try reflexivity.
    apply sim_deferred.
    destruct (result (processDirectory w2 c2 log2)); [assumption|now apply HL].
Qed.

End Simulation.

Lemma withoutDebug_logTo lvl m a l :
  withoutDebug (logTo {| handlerLevel := LevelDebug |} lvl m a l)
  = logTo {| handlerLevel := LevelInfo |} lvl m a (withoutDebug l).
Proof.
  unfold logTo, withoutDebug.
  destruct lvl; simpl; rewrite ?List.filter_app; simpl; rewrite ?app_nil_r;
    reflexivity.
Qed.

(** The flag [-verbose] changes nothing but the log: with and without it
    [main] exits with the same status after the same calls, with the same
    result, count and output file, and the log without the flag is the log
    with the flag less its records of level debug. *)
Theorem verbose_changes_only_the_log (TrimSpace : string -> string) (w : World)
    (flags : Flags) :
  let v := main TrimSpace w (withVerbose true flags) in
  let q := main TrimSpace w (withVerbose false flags) in
  fst q = fst v
  /\ result (snd q) = result (snd v)
  /\ calls (snd q) = calls (snd v)
  /\ processed (snd q) = processed (snd v)
  /\ output (snd q) = output (snd v)
  /\ finalLogs (snd q) = withoutDebug (finalLogs (snd v)).
Proof.
  intros v q. subst v q. unfold main. cbv zeta.
  set (cv := mkConfig TrimSpace (withVerbose true flags)).
  set (cq := mkConfig TrimSpace (withVerbose false flags)).
  change (inputPath cq) with (inputPath cv).
  change (outputPath cq) with (outputPath cv).
  change (excludeDirs cq) with (excludeDirs cv).
  change (includeExts cq) with (includeExts cv).
  set (start := [("input", VString (inputPath cv));
                 ("output", VString (outputPath cv));
                 ("excludeDirs", VStrings (excludeDirs cv));
                 ("includeExts", VStrings (includeExts cv))]).
  destruct (sim_processDirectory w w cv cq (fun lv lq => lq = withoutDebug lv))
    with (log1 := logTo (logger cv) LevelInfo "Starting contextify" start [])
         (log2 := logTo (logger cq) LevelInfo "Starting contextify" start [])
    as (Hres & Hcalls & Hproc & Hout & Hlogs);
    try reflexivity; try (intros; auto; fail).
  - intros lvl m a l1 l2 ->. symmetry. apply withoutDebug_logTo.
  - rewrite <- Hres.
    destruct (result (processDirectory w cv
                        (logTo (logger cv) LevelInfo "Starting contextify" start [])));
      cbn [fst snd result calls processed output finalLogs]; rewrite Hlogs;
      repeat split; auto; symmetry; apply withoutDebug_logTo.
Qed.

(** Failures of [Stat] and of [Close] on the input files change neither
    the result of the run nor its calls, its count or its output file:
    the run is the one of the world in which they succeed. *)
Theorem stat_close_failures_tolerated (w : World) (config : Config)
    (log0 : list LogRecord) :
  let o := processDirectory w config log0 in
  let o' := processDirectory (calm w) config log0 in
  result o = result o' /\ calls o = calls o' /\ processed o = processed o'
  /\ output o = output o'.
Proof.
  intros o o'. subst o o'.
  destruct (sim_processDirectory w (calm w) config config (fun _ _ => True))
    with (log1 := log0) (log2 := log0)
    as (Hres & Hcalls & Hproc & Hout & _);
    try reflexivity; auto.
Qed.

Lemma logTo_prefix lg lvl m a (pre l : list LogRecord) :
  logTo lg lvl m a (pre ++ l) = pre ++ logTo lg lvl m a l.
Proof. unfold logTo. destruct (enabled lg lvl); [now rewrite app_assoc|reflexivity]. Qed.

(** The log a run starts with is kept in front of its records and has no
    influence on the run. *)
Lemma processDirectory_log_prefix (w : World) (config : Config)
    (log0 : list LogRecord) :
  let o := processDirectory w config log0 in
  let o' := processDirectory w config [] in
  result o = result o' /\ calls o = calls o' /\ processed o = processed o'
  /\ output o = output o' /\ finalLogs o = log0 ++ finalLogs o'.
Proof.
  intros o o'. subst o o'.
  destruct (sim_processDirectory w w config config (fun l1 l2 => l1 = log0 ++ l2))
    with (log1 := log0) (log2 := @nil LogRecord)
    as (Hres & Hcalls & Hproc & Hout & Hlogs);
    try reflexivity; auto.
  - intros lvl m a l1 l2 ->. apply logTo_prefix.
  - now rewrite app_nil_r.
Qed.

(** [main] logs "Starting contextify" with the parsed lists first,
    whatever the verbosity.  It exits with status 0 exactly when
    [processDirectory] returns nil, and its last record is then
    "Successfully created context file"; otherwise it exits with status 1
    and its last record, of level error, carries the returned error.  When
    the output file could not be created no call of the walk was made. *)
Theorem main_exit_status (TrimSpace : string -> string) (w : World) (flags : Flags) :
  let r := main TrimSpace w flags in
  let config := mkConfig TrimSpace flags in
  (exists rest,
      finalLogs (snd r)
      = {| level := LevelInfo; msg := "Starting contextify";
           attrs := [("input", VString (flagInput flags));
                     ("output", VString (flagOutput flags));
                     ("excludeDirs", VStrings (excludeDirs config));
                     ("includeExts", VStrings (includeExts config))] |} :: rest)
  /\ match result (snd r) with
     | None =>
         fst r = 0
         /\ exists before,
              finalLogs (snd r)
              = before ++ [{| level := LevelInfo;
                              msg := "Successfully created context file";
                              attrs := [("output", VString (flagOutput flags))] |}]
     | Some e =>
         fst r = 1
         /\ exists before,
              finalLogs (snd r)
              = before ++ [{| level := LevelError;
                              msg := "Failed to process directory";
                              attrs := [("error", VError e)] |}]
     end
  /\ (output (snd r) = None <->
      (exists e, wAbs w = inl e) \/ (exists e, wCreateErr w = Some e))
  /\ (output (snd r) = None -> fst r = 1 /\ calls (snd r) = []).
Proof.
  intros r config. subst r. unfold main. cbv zeta. fold config.
  assert (enabled (logger config) LevelInfo = true) as Hinfo
    by (unfold config, mkConfig; simpl; now destruct (flagVerbose flags)).
  set (start := [("input", VString (inputPath config));
                 ("output", VString (outputPath config));
                 ("excludeDirs", VStrings (excludeDirs config));
                 ("includeExts", VStrings (includeExts config))]).
  assert (logTo (logger config) LevelInfo "Starting contextify" start []
          = [{| level := LevelInfo; msg := "Starting contextify"; attrs := start |}])
    as Hstart by (unfold logTo; now rewrite Hinfo).
  rewrite Hstart.
  destruct (processDirectory_log_prefix w config
              [{| level := LevelInfo; msg := "Starting contextify"; attrs := start |}])
    as (Hres & Hcalls & _ & Hout & Hlogs).
  set (o := processDirectory w config
              [{| level := LevelInfo; msg := "Starting contextify"; attrs := start |}])
    in *.
  assert (output o = None <->
          (exists e, wAbs w = inl e) \/ (exists e, wCreateErr w = Some e)) as Hnone.
  { subst o. unfold processDirectory.
    destruct (wAbs w) as [e|abs]; [simpl; split; eauto|].
    destruct (wCreateErr w) as [e|]; [simpl; split; eauto|].
    destruct (processDirectoryBody _ _ _ _) as [[st cs] ret].
    destruct (Flush (writer st)) as [b flushErr]. simpl.
    split; [discriminate|]. intros [[e He]|[e He]]; discriminate. }
  assert (output o = None -> result o <> None /\ calls o = []) as Hearly.
  { subst o. unfold processDirectory.
    destruct (wAbs w) as [e|abs]; [simpl; split; [discriminate|reflexivity]|].
    destruct (wCreateErr w) as [e|]; [simpl; split; [discriminate|reflexivity]|].
    destruct (processDirectoryBody _ _ _ _) as [[st cs] ret].
    destruct (Flush (writer st)) as [b flushErr]. simpl. discriminate. }
  assert (forall m a l,
             logTo (logger config) LevelInfo m a l
             = l ++ [{| level := LevelInfo; msg := m; attrs := a |}]) as HlogInfo
    by (intros; unfold logTo; now rewrite Hinfo).
  destruct (result o) as [e|] eqn:Hr;
    cbn [fst snd result calls processed output finalLogs];
    rewrite ?HlogInfo, ?logTo_error;
    (split; [rewrite Hlogs; eexists; reflexivity|]);
    (split; [split; [reflexivity|eexists; reflexivity]|]);
    (split; [exact Hnone|]).
  - intros Ho. split; [reflexivity|]. now apply Hearly.
  - intros Ho. destruct (Hearly Ho) as [H _]. congruence.
Qed.

(** *** The log of a run without [-verbose] *)

Lemma copyLines_logs tokens n st st' n' err :
  copyLines tokens n st = (st', n', err) -> logs st' = logs st.
Proof.
  revert n st; induction tokens as [|line tokens IH]; intros n st; simpl.
  - now intros [= <- _ _].
  - destruct (Fprint (line +:+ nl) st) as [st1 e] eqn:Hf.
    apply Fprint_frame in Hf as [Hl _]. destruct e.
    + now intros [= <- _ _].
    + intros H. apply IH in H. congruence.
Qed.

Lemma logSt_disabled lg lvl m a st :
  enabled lg lvl = false -> logs (logSt lg lvl m a st) = logs st.
Proof. intros H. unfold logSt, logTo. simpl. now rewrite H. Qed.

Section Quiet.
Variable w : World.
Variable config : Config.
Variable absPath : string.
Hypothesis Hquiet : enabled (logger config) LevelDebug = false.
Hypothesis Hcalm :
  forall p, statErr (wOpen w p) = None /\ fcloseErr (wOpen w p) = None.

Lemma processFile_quiet fullPath relPath st :
  logs (fst (processFile w (logger config) fullPath relPath st)) = logs st.
Proof.
  unfold processFile. destruct (openErr (wOpen w fullPath)); [reflexivity|].
  destruct (Hcalm fullPath) as [Hstat Hclose]. rewrite Hclose.
  destruct (processFileBody _ _ _ _ _) as [st1 ret] eqn:Hb. simpl.
  unfold processFileBody in Hb. rewrite Hstat in Hb.
  destruct (Fprint _ _) as [stB err] eqn:HB in Hb.
  apply Fprint_frame in HB as [HlB _]. rewrite logSt_disabled in HlB by assumption.
  destruct err; [injection Hb as <- _; assumption|].
  destruct (Fprint _ stB) as [stC err] eqn:HC in Hb.
  apply Fprint_frame in HC as [HlC _].
  destruct err; [injection Hb as <- _; congruence|].
  destruct (scanTokens _) as [tokens tooLong] in Hb.
  destruct (copyLines tokens 0 stC) as [[stD lineCount] err] eqn:HD in Hb.
  apply copyLines_logs in HD.
  destruct err; [injection Hb as <- _; congruence|].
  destruct (scannerErr _ _ _) in Hb; [injection Hb as <- _; congruence|].
  destruct (Fprint _ _) as [stE err] eqn:HE in Hb.
  apply Fprint_frame in HE as [HlE _]. rewrite logSt_disabled in HlE by assumption.
  destruct err; injection Hb as <- _; congruence.
Qed.

(** A call that does not end the walk adds nothing to the log. *)
Lemma walkFn_quiet step st st' ret :
  walkFn w config absPath (stepPath step) {| IsDir := stepIsDir step |}
         (errOf step) st = (st', ret) ->
  isFatal ret = false -> logs st' = logs st.
Proof.
  unfold walkFn, errOf.
  destruct (stepErr step) as [[op se]|]; cbn [option_map].
  { intros [= <- <-]. discriminate. }
  destruct (Rel absPath (stepPath step)); [now intros [= <- <-]|].
  cbn [IsDir]. destruct (stepIsDir step).
  - destruct (shouldExcludeDir _ _); intros [= <- <-] _; [|reflexivity].
    now apply logSt_disabled.
  - destruct (shouldIncludeFile _ _); cbn [negb].
    2:{ intros [= <- <-] _. now apply logSt_disabled. }
    pose proof (processFile_quiet (stepPath step) s
                  (logSt (logger config) LevelDebug "Processing file"
                     [("path", VString s)] st)) as Hq.
    destruct (processFile _ _ _ _ _) as [st2 perr] eqn:Hp. cbn [fst] in Hq.
    rewrite logSt_disabled in Hq by assumption.
    destruct perr as [e|].
    + intros [= <- <-] Hf. apply processFile_error in Hp as [Hs _].
      simpl in Hf. rewrite Hs in Hf. discriminate.
    + now intros [= <- <-] _.
Qed.

Lemma Run_quiet steps st cs st' r :
  Run (walkFn w config absPath) steps st cs st' r -> r = None ->
  logs st' = logs st.
Proof.
  induction 1 as [s|step rest s s1 s' ret r cs Hf Hfat HR IH
                 |step rest s s1 e Hf Hs]; intros Hr.
  - reflexivity.
  - rewrite (IH Hr). eapply walkFn_quiet; eauto.
  - discriminate.
Qed.

End Quiet.

(** A run without [-verbose] that returns nil, in which [Stat] and
    [Close] of the input files succeed and the output device and the close
    of the output file do not fail, logs three records: the start, the
    number of files processed and the success. *)
Theorem quiet_success_log (TrimSpace : string -> string) (w : World) (flags : Flags) :
  flagVerbose flags = false ->
  (forall p, statErr (wOpen w p) = None /\ fcloseErr (wOpen w p) = None) ->
  wCapacity w = None -> wCloseErr w = None ->
  let r := main TrimSpace w flags in
  let config := mkConfig TrimSpace flags in
  result (snd r) = None ->
  finalLogs (snd r)
  = [{| level := LevelInfo; msg := "Starting contextify";
        attrs := [("input", VString (flagInput flags));
                  ("output", VString (flagOutput flags));
                  ("excludeDirs", VStrings (excludeDirs config));
                  ("includeExts", VStrings (includeExts config))] |};
     {| level := LevelInfo; msg := "Processing completed";
        attrs := [("filesProcessed", VInt (processed (snd r)))] |};
     {| level := LevelInfo; msg := "Successfully created context file";
        attrs := [("output", VString (flagOutput flags))] |}].
Proof.
  intros Hverb Hcalm Hcap Hclose r config. subst r. unfold main. cbv zeta.
  fold config.
  assert (logger config = {| handlerLevel := LevelInfo |}) as Hlg
    by (unfold config, mkConfig; simpl; now rewrite Hverb).
  set (start := [("input", VString (inputPath config));
                 ("output", VString (outputPath config));
                 ("excludeDirs", VStrings (excludeDirs config));
                 ("includeExts", VStrings (includeExts config))]).
  set (log0 := logTo (logger config) LevelInfo "Starting contextify" start []).
  assert (log0 = [{| level := LevelInfo; msg := "Starting contextify";
                     attrs := start |}]) as Hlog0
    by (unfold log0; now rewrite Hlg).
  destruct (result (processDirectory w config log0)) as [e|] eqn:Hres;
    cbn [fst snd result calls processed output finalLogs]; [discriminate|].
  intros _.
  unfold processDirectory in Hres |- *.
  destruct (wAbs w) as [e|abs] eqn:Habs; [discriminate|].
  destruct (wCreateErr w) as [e|] eqn:Hcreate; [discriminate|].
  destruct (processDirectory_run w config log0 abs Habs Hcreate)
    as [(st1 & e & _ & He & _)|(st1 & st2 & Hh & HR & Hp & _ & Hlogs)].
  { unfold processDirectory in He. rewrite Habs, Hcreate in He. congruence. }
  unfold processDirectory in HR, Hp, Hlogs. rewrite Habs, Hcreate in HR, Hp, Hlogs.
  fold (initState w config log0 abs) in *.
  destruct (processDirectoryBody w config abs (initState w config log0 abs))
    as [[st cs] ret].
  destruct (Flush (writer st)) as [b flushErr] eqn:Hflush.
  cbn [fst snd result calls processed output finalLogs] in *. subst ret.
  rewrite Hlogs, Hp.
  assert (enabled (logger config) LevelDebug = false) as Hq by now rewrite Hlg.
  pose proof (Run_quiet w config abs Hq Hcalm _ _ _ _ _ HR eq_refl) as Hl2.
  pose proof (Outcomes.header_written w config log0 abs _ _ Hcap Hh)
    as (_ & Hu1 & _ & _).
  pose proof Hh as Hh1. unfold writeHeader in Hh1.
  apply writeAll_frame in Hh as [Hl1 _].
  pose proof (Run_keeps_unlimited _ _ _ _ _ _ _ _ HR Hu1) as [Hc2 He2].
  assert (deferredRecords (writer st2) = []) as ->.
  { unfold deferredRecords.
    destruct (WriterFacts.Flush_unlimited (writer st2) Hc2 He2) as (b' & Hf & _).
    rewrite Hf. simpl.
    apply WriterFacts.Flush_meta in Hf as (_ & _ & Hce). rewrite Hce.
    pose proof (writeAll_sameFile (headerLines abs config) (initState w config log0 abs))
      as H1. rewrite Hh1 in H1. cbn [fst] in H1.
    pose proof (Run_sameFile _ _ _ _ _ _ _ _ HR) as H2.
    destruct (sameFile_trans _ _ _ H1 H2) as (_ & _ & ->). simpl. now rewrite Hclose. }
  rewrite app_nil_r, Hl2, Hl1. unfold initState. cbn [logs].
  rewrite Hlg. unfold logTo at 2. cbn [enabled handlerLevel levelNum Nat.leb].
  rewrite <- Hlg. fold log0. rewrite Hlog0, Hlg. reflexivity.
Qed.

Lemma quiet_success_log_witness :
  finalLogs (snd (main TrimSpaceASCII Scenario.world Scenario.flags))
  = [{| level := LevelInfo; msg := "Starting contextify";
        attrs := [("input", VString ".");
                  ("output", VString "context.txt");
                  ("excludeDirs", VStrings ["node_modules"; ".git"]);
                  ("includeExts", VStrings [".go"])] |};
     {| level := LevelInfo; msg := "Processing completed";
        attrs := [("filesProcessed", VInt 2)] |};
     {| level := LevelInfo; msg := "Successfully created context file";
        attrs := [("output", VString "context.txt")] |}].
Proof.
  apply (quiet_success_log TrimSpaceASCII Scenario.world Scenario.flags).
  - reflexivity.
  - intros p. unfold Scenario.world, Scenario.files. cbn [wOpen].
    repeat destruct (String.eqb p _); split; reflexivity.
  - reflexivity.
  - reflexivity.
  - vm_compute. reflexivity.
Defined.

End Logging.

Module Buffering.
Import Str StrFacts WriterFacts Transcriber Callback RunFacts Directory Outcomes Logging.

(** A write that fits the buffer only appends to it. *)
Lemma Write_fits (b : Writer) (p : string) :
  werr b = None -> Buffered b + String.length p <= defaultBufSize ->
  Write b p = ({| wr := wr b; buf := buf b +:+ p; werr := None |}, None).
Proof.
  intros He Hfit. unfold Write, writeFuel. cbn [writeLoop]. rewrite He.
  assert ((Available b <? String.length p) = false) as ->.
  { apply Nat.ltb_ge. unfold Available, Buffered in *. lia. }
  now rewrite He.
Qed.

Lemma Fprint_fits (s : string) (st : State) :
  werr (writer st) = None ->
  Buffered (writer st) + String.length s <= defaultBufSize ->
  Fprint s st
  = (setWriter st {| wr := wr (writer st); buf := buf (writer st) +:+ s;
                     werr := None |}, None).
Proof. intros He Hfit. unfold Fprint. now rewrite Write_fits. Qed.

(** *** On a device that never fails the accepted bytes only grow *)

Lemma grows_refl st : unlimited st -> grows st st.
Proof. intros H. split; [assumption|lia]. Qed.

Lemma grows_trans a b c : grows a b -> grows b c -> grows a c.
Proof. intros [_ H1] [Hu H2]. split; [assumption|lia]. Qed.

Lemma grows_logSt lg lvl m a st st' :
  grows st st' -> grows st (logSt lg lvl m a st').
Proof. intros [Hu H]. split; [now apply logSt_unlimited|now rewrite logSt_accepted]. Qed.

Lemma Fprint_grows s st : unlimited st -> grows st (fst (Fprint s st)).
Proof.
  intros Hu. destruct (Fprint_unlimited s st Hu) as (st' & E & Hu'). rewrite E.
  apply Fprint_ok in E as (Ha & _). split; [assumption|].
  simpl. rewrite Ha, length_append. lia.
Qed.

Lemma writeAll_grows lines st : unlimited st -> grows st (fst (writeAll lines st)).
Proof.
  intros Hu. destruct (writeAll_unlimited lines st Hu) as (st' & E & Hu'). rewrite E.
  apply writeAll_ok in E as (Ha & _). split; [assumption|].
  simpl. rewrite Ha, length_append. lia.
Qed.

Lemma copyLines_grows tokens n st :
  unlimited st -> grows st (fst (fst (copyLines tokens n st))).
Proof.
  intros Hu. destruct (copyLines_unlimited tokens n st Hu) as (st' & n' & E & Hu').
  rewrite E. apply copyLines_ok in E as (Ha & _). split; [assumption|].
  simpl. rewrite Ha, length_append. lia.
Qed.

Lemma processFile_grows w lg fullPath relPath st :
  unlimited st -> grows st (fst (processFile w lg fullPath relPath st)).
Proof.
  intros Hu. unfold processFile.
  destruct (openErr (wOpen w fullPath)); [now apply grows_refl|].
  assert (grows st (fst (processFileBody lg (wOpen w fullPath) fullPath relPath st)))
    as Hb.
  { unfold processFileBody.
    set (stA := match statErr (wOpen w fullPath) with Some _ => _ | None => _ end).
    assert (grows st stA) as HA
      by (subst stA; destruct (statErr (wOpen w fullPath));
          apply grows_logSt, grows_refl, Hu).
    clearbody stA.
    pose proof (Fprint_grows ("## File: " +:+ relPath +:+ nl) stA (proj1 HA)) as HB.
    destruct (Fprint _ stA) as [stB err]. cbn [fst] in HB.
    pose proof (grows_trans _ _ _ HA HB) as HB'.
    destruct err; [exact HB'|].
    pose proof (Fprint_grows (fence +:+ nl) stB (proj1 HB)) as HC.
    destruct (Fprint _ stB) as [stC err]. cbn [fst] in HC.
    pose proof (grows_trans _ _ _ HB' HC) as HC'.
    destruct err; [exact HC'|].
    destruct (scanTokens _) as [tokens tooLong].
    pose proof (copyLines_grows tokens 0 stC (proj1 HC)) as HD.
    destruct (copyLines tokens 0 stC) as [[stD n] err]. cbn [fst] in HD.
    pose proof (grows_trans _ _ _ HC' HD) as HD'.
    destruct err; [exact HD'|].
    destruct (scannerErr _ _ _); [exact HD'|].
    pose proof (Fprint_grows (fence +:+ nl +:+ nl)
                  (logSt lg LevelDebug "File processed"
                     [("path", VString relPath); ("lines", VInt n)] stD)
                  (logSt_unlimited _ _ _ _ _ (proj1 HD))) as HE.
    destruct (Fprint _ _) as [stE err]. cbn [fst] in HE.
    destruct HE as [HuE HE]. rewrite logSt_accepted in HE.
    destruct HD' as [_ HD'].
    destruct err; (split; [exact HuE|cbn [fst]; lia]). }
  destruct (processFileBody _ _ _ _ _) as [st1 ret]. cbn [fst] in *.
  destruct (fcloseErr _); [now apply grows_logSt|exact Hb].
Qed.

Lemma walkFn_grows w config absPath path d err st :
  unlimited st -> grows st (fst (walkFn w config absPath path d err st)).
Proof.
  intros Hu. unfold walkFn.
  destruct err; [apply grows_logSt, grows_refl, Hu|].
  destruct (Rel absPath path); [now apply grows_refl|].
  destruct (IsDir d).
  - destruct (shouldExcludeDir _ _);
      [apply grows_logSt, grows_refl, Hu|now apply grows_refl].
  - destruct (shouldIncludeFile _ _); cbn [negb];
      [|apply grows_logSt, grows_refl, Hu].
    pose proof (processFile_grows w (logger config) path s
                  (logSt (logger config) LevelDebug "Processing file"
                     [("path", VString s)] st)
                  (logSt_unlimited _ _ _ _ _ Hu)) as H.
    unfold grows in H. rewrite logSt_accepted in H. fold (grows st) in H.
    destruct (processFile _ _ _ _ _) as [st2 perr]. cbn [fst] in H.
    destruct perr; [now apply grows_logSt|exact H].
Qed.

Lemma Run_grows w config absPath steps st cs st' r :
  Run (walkFn w config absPath) steps st cs st' r -> unlimited st -> grows st st'.
Proof.
  induction 1 as [s|step rest s s1 s' ret r cs Hf Hfat HR IH
                 |step rest s s1 e Hf Hs]; intros Hu.
  - now apply grows_refl.
  - pose proof (walkFn_grows w config absPath (stepPath step)
                  {| IsDir := stepIsDir step |} (errOf step) s Hu) as H.
    rewrite Hf in H. eapply grows_trans; [exact H|]. apply IH, H.
  - pose proof (walkFn_grows w config absPath (stepPath step)
                  {| IsDir := stepIsDir step |} (errOf step) s Hu) as H.
    now rewrite Hf in H.
Qed.

(** *** The run on another device while everything fits the buffer *)

Lemma allBuffered_unlimited st : allBuffered st -> unlimited st.
Proof. intros (Hc & He & _). now split. Qed.

Lemma allBuffered_accepted st :
  allBuffered st -> accepted st = buf (writer st).
Proof. intros (_ & _ & Hd). unfold accepted, stream. now rewrite Hd. Qed.

Lemma allBuffered_logSt lg lvl m a st :
  allBuffered st -> allBuffered (logSt lg lvl m a st).
Proof. auto. Qed.

Lemma onFile_logSt f lg lvl m a st0 st :
  onFile f st0 st -> onFile f (logSt lg lvl m a st0) (logSt lg lvl m a st).
Proof. intros (Hw & Hl & Hc). repeat split; simpl; congruence. Qed.

Section OnFile.
Variable f : OutFile.

Lemma fits_Fprint s st0 st :
  allBuffered st0 -> onFile f st0 st ->
  String.length (accepted (fst (Fprint s st0))) <= defaultBufSize ->
  snd (Fprint s st0) = None /\ snd (Fprint s st) = None
  /\ onFile f (fst (Fprint s st0)) (fst (Fprint s st))
  /\ allBuffered (fst (Fprint s st0)).
Proof.
  intros Hall (Hw & Hl & Hc) Hfit.
  pose proof (allBuffered_unlimited _ Hall) as Hu.
  pose proof (allBuffered_accepted _ Hall) as Ha.
  destruct Hall as (Hcap & Herr & Hdata).
  destruct (Fprint_unlimited s st0 Hu) as (st1 & E & _).
  rewrite E in Hfit. cbn [fst] in Hfit.
  apply Fprint_ok in E as (Ha1 & _).
  rewrite Ha1, Ha, length_append in Hfit.
  rewrite (Fprint_fits s st0 Herr) by exact Hfit.
  rewrite (Fprint_fits s st); [|rewrite Hw; reflexivity|rewrite Hw; exact Hfit].
  rewrite Hw. cbn. repeat split; auto.
Qed.

Lemma fits_writeAll lines st0 st :
  allBuffered st0 -> onFile f st0 st ->
  String.length (accepted (fst (writeAll lines st0))) <= defaultBufSize ->
  snd (writeAll lines st0) = None /\ snd (writeAll lines st) = None
  /\ onFile f (fst (writeAll lines st0)) (fst (writeAll lines st))
  /\ allBuffered (fst (writeAll lines st0)).
Proof.
  revert st0 st; induction lines as [|line lines IH]; intros st0 st Hall Hon Hfit;
    simpl in *.
  - auto.
  - destruct (fits_Fprint line st0 st Hall Hon) as (E0 & E & Hon1 & Hall1).
    { destruct (Fprint_unlimited line st0 (allBuffered_unlimited _ Hall))
        as (st1 & E & Hu1).
      rewrite E in Hfit |- *. cbn [fst].
      pose proof (writeAll_grows lines st1 Hu1) as [_ H].
      eapply Nat.le_trans; [exact H|exact Hfit]. }
    destruct (Fprint line st0) as [a ea]; destruct (Fprint line st) as [b eb].
    simpl in E0, E, Hon1, Hall1. subst ea eb. now apply IH.
Qed.

Lemma fits_copyLines tokens n st0 st :
  allBuffered st0 -> onFile f st0 st ->
  String.length (accepted (fst (fst (copyLines tokens n st0)))) <= defaultBufSize ->
  copyLines tokens n st
  = (fst (fst (copyLines tokens n st)), snd (fst (copyLines tokens n st0)), None)
  /\ snd (copyLines tokens n st0) = None
  /\ onFile f (fst (fst (copyLines tokens n st0))) (fst (fst (copyLines tokens n st)))
  /\ allBuffered (fst (fst (copyLines tokens n st0))).
Proof.
  revert n st0 st; induction tokens as [|line tokens IH]; intros n st0 st Hall Hon Hfit;
    simpl in *.
  - auto.
  - destruct (fits_Fprint (line +:+ nl) st0 st Hall Hon) as (E0 & E & Hon1 & Hall1).
    { destruct (Fprint_unlimited (line +:+ nl) st0 (allBuffered_unlimited _ Hall))
        as (st1 & E & Hu1).
      rewrite E in Hfit |- *. cbn [fst].
      pose proof (copyLines_grows tokens (S n) st1 Hu1) as [_ H].
      eapply Nat.le_trans; [exact H|exact Hfit]. }
    destruct (Fprint (line +:+ nl) st0) as [a ea];
      destruct (Fprint (line +:+ nl) st) as [b eb].
    simpl in E0, E, Hon1, Hall1. subst ea eb. now apply IH.
Qed.

Lemma fits_processFile w lg fullPath relPath st0 st :
  allBuffered st0 -> onFile f st0 st ->
  String.length (accepted (fst (processFile w lg fullPath relPath st0)))
  <= defaultBufSize ->
  snd (processFile w lg fullPath relPath st) = snd (processFile w lg fullPath relPath st0)
  /\ onFile f (fst (processFile w lg fullPath relPath st0))
            (fst (processFile w lg fullPath relPath st))
  /\ allBuffered (fst (processFile w lg fullPath relPath st0)).
Proof.
  intros Hall Hon Hfit. unfold processFile in *.
  destruct (openErr (wOpen w fullPath)); [cbn [fst snd]; auto|].
  assert (snd (processFileBody lg (wOpen w fullPath) fullPath relPath st)
          = snd (processFileBody lg (wOpen w fullPath) fullPath relPath st0)
          /\ onFile f (fst (processFileBody lg (wOpen w fullPath) fullPath relPath st0))
                    (fst (processFileBody lg (wOpen w fullPath) fullPath relPath st))
          /\ allBuffered (fst (processFileBody lg (wOpen w fullPath) fullPath relPath st0)))
    as (He & Hon' & Hall').
  { assert (String.length
              (accepted (fst (processFileBody lg (wOpen w fullPath) fullPath relPath st0)))
            <= defaultBufSize) as Hfit'.
    { destruct (processFileBody lg (wOpen w fullPath) fullPath relPath st0) as [s0 r0].
      cbn [fst] in *. destruct (fcloseErr _); [now rewrite logSt_accepted in Hfit|exact Hfit]. }
    clear Hfit. unfold processFileBody in *.
    set (stA0 := match statErr (wOpen w fullPath) with
                 | Some e => logSt lg LevelWarn _ _ st0
                 | None => logSt lg LevelDebug _ _ st0 end) in *.
    set (stA := match statErr (wOpen w fullPath) with
                | Some e => logSt lg LevelWarn _ _ st
                | None => logSt lg LevelDebug _ _ st end).
    assert (allBuffered stA0 /\ onFile f stA0 stA) as [HallA HonA].
    { subst stA0 stA. destruct (statErr (wOpen w fullPath));
        (split; [now apply allBuffered_logSt|now apply onFile_logSt]). }
    clearbody stA0 stA. clear Hall Hon.
    (* the run on the device that never fails *)
    pose proof (allBuffered_unlimited _ HallA) as HuA.
    destruct (Fprint_unlimited ("## File: " +:+ relPath +:+ nl) stA0 HuA)
      as (stB0 & EB & HuB).
    destruct (Fprint_unlimited (fence +:+ nl) stB0 HuB) as (stC0 & EC & HuC).
    destruct (scanTokens (rawLines (content (wOpen w fullPath)))) as [tokens tooLong].
    destruct (copyLines_unlimited tokens 0 stC0 HuC) as (stD0 & n & ED & HuD).
    pose proof (Fprint_grows (fence +:+ nl) stB0 HuB) as [_ GC]. rewrite EC in GC.
    pose proof (copyLines_grows tokens 0 stC0 HuC) as [_ GD]. rewrite ED in GD.
    cbn [fst] in GC, GD.
    rewrite EB, EC, ED in Hfit'.
    assert (String.length (accepted stD0) <= defaultBufSize) as HbD.
    { revert Hfit'. destruct (scannerErr fullPath (wOpen w fullPath) tooLong);
        [now intros H|].
      pose proof (Fprint_grows (fence +:+ nl +:+ nl)
                    (logSt lg LevelDebug "File processed"
                       [("path", VString relPath); ("lines", VInt n)] stD0)
                    (logSt_unlimited _ _ _ _ _ HuD)) as [_ GE].
      rewrite logSt_accepted in GE.
      destruct (Fprint (fence +:+ nl +:+ nl) _) as [stE0 eE]. cbn [fst] in GE.
      destruct eE; cbn [fst]; intros H; (eapply Nat.le_trans; [exact GE|exact H]). }
    assert (String.length (accepted stC0) <= defaultBufSize) as HbC
      by (eapply Nat.le_trans; [exact GD|exact HbD]).
    assert (String.length (accepted stB0) <= defaultBufSize) as HbB
      by (eapply Nat.le_trans; [exact GC|exact HbC]).
    (* the same run on the file [f] *)
    destruct (fits_Fprint ("## File: " +:+ relPath +:+ nl) stA0 stA HallA HonA)
      as (_ & EB' & HonB & HallB); [now rewrite EB|].
    rewrite EB in HonB, HallB |- *.
    destruct (Fprint ("## File: " +:+ relPath +:+ nl) stA) as [stB eB]. cbn [fst snd] in EB', HonB, HallB. subst eB.
    destruct (fits_Fprint (fence +:+ nl) stB0 stB HallB HonB)
      as (_ & EC' & HonC & HallC); [now rewrite EC|].
    rewrite EC in HonC, HallC |- *.
    destruct (Fprint (fence +:+ nl) stB) as [stC eC]. cbn [fst snd] in EC', HonC, HallC. subst eC.
    destruct (fits_copyLines tokens 0 stC0 stC HallC HonC)
      as (ED' & _ & HonD & HallD); [now rewrite ED|].
    rewrite ED in ED', HonD, HallD |- *. cbn [fst snd] in ED', HonD, HallD.
    rewrite ED'. clear ED'. set (stD := fst (fst (copyLines tokens 0 stC))) in *.
    clearbody stD.
    destruct (scannerErr fullPath (wOpen w fullPath) tooLong);
      [cbn [fst snd]; auto|].
    pose proof (allBuffered_logSt lg LevelDebug "File processed"
                  [("path", VString relPath); ("lines", VInt n)] stD0 HallD) as HallD'.
    pose proof (onFile_logSt f lg LevelDebug "File processed"
                  [("path", VString relPath); ("lines", VInt n)] stD0 stD HonD) as HonD'.
    destruct (fits_Fprint (fence +:+ nl +:+ nl) _ _ HallD' HonD')
      as (EE0 & EE' & HonE & HallE).
    { revert Hfit'. destruct (Fprint (fence +:+ nl +:+ nl) _) as [stE0 eE]. cbn [fst].
      now destruct eE. }
    destruct (Fprint (fence +:+ nl +:+ nl)
                (logSt lg LevelDebug "File processed" _ stD0)) as [stE0 eE0].
    destruct (Fprint (fence +:+ nl +:+ nl)
                (logSt lg LevelDebug "File processed" _ stD)) as [stE eE].
    cbn [fst snd] in EE0, EE', HonE, HallE. subst eE0 eE. cbn [fst snd]. auto. }
  destruct (processFileBody lg (wOpen w fullPath) fullPath relPath st0) as [s0 r0].
  destruct (processFileBody lg (wOpen w fullPath) fullPath relPath st) as [s1 r1].
  cbn [fst snd] in *. subst r1. split; [reflexivity|].
  destruct (fcloseErr _);
    [split; [now apply onFile_logSt|now apply allBuffered_logSt]|now split].
Qed.

Lemma fits_walkFn w config absPath path d err st0 st :
  allBuffered st0 -> onFile f st0 st ->
  String.length (accepted (fst (walkFn w config absPath path d err st0)))
  <= defaultBufSize ->
  snd (walkFn w config absPath path d err st)
  = snd (walkFn w config absPath path d err st0)
  /\ onFile f (fst (walkFn w config absPath path d err st0))
            (fst (walkFn w config absPath path d err st))
  /\ allBuffered (fst (walkFn w config absPath path d err st0)).
Proof.
  intros Hall Hon Hfit. unfold walkFn in *.
  destruct err as [e|];
    [cbn [fst snd]; split; [reflexivity|];
     split; [now apply onFile_logSt|now apply allBuffered_logSt]|].
  destruct (Rel absPath path) as [e|relPath]; [cbn [fst snd]; auto|].
  destruct (IsDir d).
  - destruct (shouldExcludeDir relPath (excludeMap config)); cbn [fst snd];
      [split; [reflexivity|];
       split; [now apply onFile_logSt|now apply allBuffered_logSt]|auto].
  - destruct (shouldIncludeFile path (includeMap config)); cbn [negb fst snd];
      [|split; [reflexivity|];
        split; [now apply onFile_logSt|now apply allBuffered_logSt]].
    pose proof (allBuffered_logSt (logger config) LevelDebug "Processing file"
                  [("path", VString relPath)] st0 Hall) as Hall1.
    pose proof (onFile_logSt f (logger config) LevelDebug "Processing file"
                  [("path", VString relPath)] st0 st Hon) as Hon1.
    destruct (fits_processFile w (logger config) path relPath _ _ Hall1 Hon1)
      as (He & Hon2 & Hall2).
    { revert Hfit. destruct (processFile _ _ _ _ _) as [s0 r0].
      destruct r0; intros H; exact H. }
    destruct (processFile w (logger config) path relPath
                (logSt (logger config) LevelDebug "Processing file" _ st0)) as [s0 r0].
    destruct (processFile w (logger config) path relPath
                (logSt (logger config) LevelDebug "Processing file" _ st)) as [s1 r1].
    cbn [fst snd] in He, Hon2, Hall2. subst r1.
    destruct r0; cbn [fst snd]; split; try reflexivity.
    + split; [now apply onFile_logSt|now apply allBuffered_logSt].
    + destruct Hon2 as (Hw & Hl & Hc). split; [|exact Hall2].
      repeat split; cbn; congruence.
Qed.

Lemma fits_Run w config absPath steps st0 cs st0' r :
  Run (walkFn w config absPath) steps st0 cs st0' r ->
  forall st,
    allBuffered st0 -> onFile f st0 st ->
    String.length (accepted st0') <= defaultBufSize ->
    exists st',
      Run (walkFn w config absPath) steps st cs st' r
      /\ onFile f st0' st' /\ allBuffered st0'.
Proof.
  induction 1 as [s|step rest s s1 s' ret r cs Hf Hfat HR IH
                 |step rest s s1 e Hf Hs]; intros st Hall Hon Hfit.
  - exists st. split; [constructor|auto].
  - pose proof (walkFn_grows w config absPath (stepPath step)
                  {| IsDir := stepIsDir step |} (errOf step) s
                  (allBuffered_unlimited _ Hall)) as [Hu1 _].
    rewrite Hf in Hu1. cbn [fst] in Hu1.
    pose proof (Run_grows _ _ _ _ _ _ _ _ HR Hu1) as [_ G].
    destruct (fits_walkFn w config absPath (stepPath step)
                {| IsDir := stepIsDir step |} (errOf step) s st Hall Hon)
      as (He & Hon1 & Hall1).
    { rewrite Hf. cbn [fst]. eapply Nat.le_trans; [exact G|exact Hfit]. }
    rewrite Hf in He, Hon1, Hall1. cbn [fst snd] in He, Hon1, Hall1.
    destruct (IH _ Hall1 Hon1 Hfit) as (st' & HR' & Hon' & Hall').
    exists st'. split; [|auto].
    econstructor; [|exact Hfat|exact HR'].
    rewrite <- He. apply surjective_pairing.
  - destruct (fits_walkFn w config absPath (stepPath step)
                {| IsDir := stepIsDir step |} (errOf step) s st Hall Hon)
      as (He & Hon1 & Hall1).
    { now rewrite Hf. }
    rewrite Hf in He, Hon1, Hall1. cbn [fst snd] in He, Hon1, Hall1.
    eexists. split; [|split; [exact Hon1|exact Hall1]].
    apply RunStop; [|exact Hs]. rewrite <- He. apply surjective_pairing.
Qed.

End OnFile.

Lemma Run_functional {S : Type} (fn : @WalkDirFunc S) steps s cs1 s1 r1 :
  Run fn steps s cs1 s1 r1 ->
  forall cs2 s2 r2, Run fn steps s cs2 s2 r2 -> cs1 = cs2 /\ s1 = s2 /\ r1 = r2.
Proof.
  induction 1 as [s|step rest s sa s' ret r cs Hf Hfat HR IH
                 |step rest s sa e Hf Hs]; intros cs2 s2 r2 H2.
  - inversion H2; subst. auto.
  - inversion H2 as [|? ? ? sb ? ret2 ? cs' Hf2 Hfat2 HR2|? ? ? sb e2 Hf2 Hs2]; subst;
      rewrite Hf in Hf2; injection Hf2 as E1 E2; subst.
    + destruct (IH _ _ _ HR2) as (-> & -> & ->). auto.
    + simpl in Hfat. rewrite Hs2 in Hfat. discriminate.
  - inversion H2 as [|? ? ? sb ? ret2 ? cs' Hf2 Hfat2 HR2|? ? ? sb e2 Hf2 Hs2]; subst;
      rewrite Hf in Hf2; injection Hf2 as E1 E2; subst.
    + simpl in Hfat2. rewrite Hs in Hfat2. discriminate.
    + auto.
Qed.

Lemma substring_ge (s : string) (c : nat) :
  String.length s <= c -> String.substring 0 c s = s.
Proof.
  revert c; induction s as [|x s IH]; intros c Hc.
  - now destruct c.
  - destruct c; simpl in *; [lia|]. rewrite IH by lia. reflexivity.
Qed.

(** The final flush of a buffer that holds all the output, on a file
    without bytes. *)
Lemma Flush_onFile (f : OutFile) (s : string) :
  data f = "" ->
  data (wr (fst (Flush {| wr := f; buf := s; werr := None |})))
  = truncated (capacity f) s
  /\ (forall c, capacity f = Some c -> c < String.length s ->
        snd (Flush {| wr := f; buf := s; werr := None |})
        = Some (PathError "write" (name f) ENOSPC)).
Proof.
  intros Hdata. unfold Flush. cbn [werr buf wr].
  change (Buffered {| wr := f; buf := s; werr := None |}) with (String.length s).
  destruct (Nat.eqb (String.length s) 0) eqn:E.
  - apply Nat.eqb_eq in E. apply length_0_empty in E. subst s. simpl.
    split; [|intros; lia].
    rewrite Hdata. destruct (capacity f) as [[|c]|]; reflexivity.
  - unfold fileWrite. rewrite Hdata.
    destruct (capacity f) as [c|]; cbn [truncated].
    + cbn [String.length]. rewrite Nat.sub_0_r.
      destruct (String.length s <=? c) eqn:Hle; cbn [fst snd wr data].
      * apply Nat.leb_le in Hle. split; [now rewrite substring_ge|].
        intros c' [= <-] Hlt. lia.
      * split; [reflexivity|]. now intros c' [= <-] _.
    + cbn [fst snd wr data]. split; [reflexivity|discriminate].
Qed.

(** A run whose whole output is at most the size of the buffer of the
    writer never writes to the device before the deferred flush: whatever
    the capacity of the device, it makes the calls, counts the files and
    returns the result of the run on a device that never fails.  The file
    gets what the device takes of the output, and when that is not all of
    it the failure of the flush is only logged. *)
Theorem small_output_ignores_device (w : World) (config : Config)
    (log0 : list LogRecord) (out0 : OutFile) :
  output (processDirectory (unlimitedDevice w) config log0) = Some out0 ->
  String.length (data out0) <= defaultBufSize ->
  let o0 := processDirectory (unlimitedDevice w) config log0 in
  let o := processDirectory w config log0 in
  result o = result o0 /\ calls o = calls o0 /\ processed o = processed o0
  /\ (exists out, output o = Some out
                  /\ data out = truncated (wCapacity w) (data out0))
  /\ (forall cap, wCapacity w = Some cap -> cap < String.length (data out0) ->
        In (flushRecord (PathError "write" (outputPath config) ENOSPC))
           (finalLogs o)).
Proof.
  intros Hout0 Hsmall o0 o. subst o0 o.
  destruct (wAbs w) as [e|abs] eqn:Habs.
  { unfold processDirectory in Hout0. cbn [unlimitedDevice wAbs] in Hout0.
    rewrite Habs in Hout0. discriminate. }
  destruct (wCreateErr w) as [e|] eqn:Hcreate.
  { unfold processDirectory in Hout0. cbn [unlimitedDevice wAbs wCreateErr] in Hout0.
    rewrite Habs, Hcreate in Hout0. discriminate. }
  set (w0 := unlimitedDevice w) in *.
  set (f := {| name := outputPath config; data := ""; capacity := wCapacity w;
               closeErr := wCloseErr w |}).
  (* the run on the device that never fails *)
  destruct (processDirectory_run w0 config log0 abs Habs Hcreate)
    as [(sa & e & Hh0 & _)|(sa0 & sb0 & Hh0 & HR0 & Hp0 & Ho0 & _)].
  { apply (header_written w0 config log0 abs _ _ eq_refl) in Hh0 as [Hh0 _].
    discriminate. }
  pose proof (header_written w0 config log0 abs _ _ eq_refl Hh0) as (_ & Hua & _).
  pose proof (Run_grows _ _ _ _ _ _ _ _ HR0 Hua) as [Hub Gab].
  rewrite Hout0 in Ho0. injection Ho0 as ->.
  rewrite (flushed_output sb0 Hub) in Hsmall.
  assert (allBuffered (initState w0 config log0 abs)) as Hall0
    by (repeat split).
  assert (onFile f (initState w0 config log0 abs) (initState w config log0 abs))
    as Hon0 by (repeat split).
  unfold writeHeader in Hh0.
  destruct (fits_writeAll f (headerLines abs config) _ _ Hall0 Hon0)
    as (_ & Hh & Hona & Halla).
  { rewrite Hh0. cbn [fst]. eapply Nat.le_trans; [exact Gab|exact Hsmall]. }
  rewrite Hh0 in Hona, Halla. cbn [fst] in Hona, Halla.
  destruct (fits_Run f w config abs _ _ _ _ _ HR0 _ Halla Hona Hsmall)
    as (sb & HR & Honb & Hallb).
  (* the run on the device of [w] *)
  destruct (processDirectory_run w config log0 abs Habs Hcreate)
    as [(sa & e & Hh' & _)|(sa' & sb' & Hh' & HR' & -> & -> & ->)].
  { unfold writeHeader in Hh'. rewrite Hh' in Hh. discriminate. }
  unfold writeHeader in Hh'.
  assert (sa' = fst (writeAll (headerLines abs config) (initState w config log0 abs)))
    as -> by now rewrite Hh'.
  change (walkPlan w0 config abs) with (walkPlan w config abs) in HR.
  destruct (Run_functional _ _ _ _ _ _ HR' _ _ _ HR) as (Hcs & -> & Hres).
  rewrite Hcs, Hres, Hp0.
  destruct Honb as (Hwb & _ & Hcb). rewrite Hwb, Hcb.
  rewrite (flushed_output sb0 Hub), (allBuffered_accepted sb0 Hallb).
  destruct (Flush_onFile f (buf (writer sb0)) eq_refl) as [Hdata Herr].
  repeat split; try reflexivity.
  - eexists. split; [reflexivity|exact Hdata].
  - intros cap Hcap Hlt. apply in_or_app. right.
    unfold deferredRecords. rewrite (Herr cap Hcap Hlt). now left.
Qed.

Lemma small_output_ignores_device_witness :
  result (processDirectory Scenario.fullDiskWorld Scenario.config []) = None
  /\ option_map data (output (processDirectory Scenario.fullDiskWorld Scenario.config []))
     = Some ""
  /\ In (flushRecord (PathError "write" "context.txt" ENOSPC))
        (finalLogs (processDirectory Scenario.fullDiskWorld Scenario.config [])).
Proof.
  destruct (small_output_ignores_device Scenario.fullDiskWorld Scenario.config []
              (wr (fst (Flush (writer
                 (fst (fst (processDirectoryBody (unlimitedDevice Scenario.fullDiskWorld)
                              Scenario.config "/root"
                              (initState (unlimitedDevice Scenario.fullDiskWorld)
                                         Scenario.config [] "/root")))))))))
    as (Hres & _ & _ & (out & Hout & Hdata) & Hlog).
  - vm_compute. reflexivity.
  - apply Nat.leb_le. vm_compute. reflexivity.
  - split; [rewrite Hres; vm_compute; reflexivity|]. split.
    + rewrite Hout. simpl. rewrite Hdata. reflexivity.
    + apply (Hlog 0); [reflexivity|]. apply Nat.ltb_lt. vm_compute. reflexivity.
Defined.

End Buffering.

Module Aborts.
Import Str StrFacts WriterFacts Transcriber Callback RunFacts Directory Positions
       TreeWalk Outcomes Logging Buffering.

(** A read that fails after the scanner has delivered the lines of what
    was read: [processFile] fails with the error of the read after it has
    written the header of the section, the fence and those lines; the
    closing fence is not written and the file is not counted. *)
Theorem read_error_aborts (w : World) (lg : Logger) (fullPath relPath : string)
    (st : State) (e : syserr) :
  openErr (wOpen w fullPath) = None ->
  readErr (wOpen w fullPath) = Some e ->
  Forall (fun line => String.length line < MaxScanTokenSize)
         (rawLines (content (wOpen w fullPath))) ->
  unlimited st ->
  exists st',
    processFile w lg fullPath relPath st
    = (st', Some (Errorf ("error reading file " +:+ fullPath +:+ ": ")
                         (PathError "read" fullPath e)))
    /\ accepted st'
       = accepted st +:+ "## File: " +:+ relPath +:+ nl +:+ fence +:+ nl
         +:+ joinLines (fileLines (content (wOpen w fullPath)))
    /\ fileCount st' = fileCount st.
Proof.
  intros Hopen Hread Hfit Hu.
  unfold processFile. rewrite Hopen. unfold processFileBody.
  set (stA := match statErr (wOpen w fullPath) with
              | Some e => _ | None => _ end).
  assert (unlimited stA /\ accepted stA = accepted st /\ fileCount stA = fileCount st)
    as (HuA & HaA & HcA).
  { subst stA. destruct (statErr (wOpen w fullPath));
      (split; [now apply logSt_unlimited|split; [apply logSt_accepted|reflexivity]]). }
  clearbody stA.
  destruct (Fprint_unlimited ("## File: " +:+ relPath +:+ nl) stA HuA)
    as (stB & HB & HuB). rewrite HB.
  destruct (Fprint_unlimited (fence +:+ nl) stB HuB) as (stC & HC & HuC). rewrite HC.
  rewrite (scanTokens_fits _ Hfit).
  destruct (copyLines_unlimited (map dropCR (rawLines (content (wOpen w fullPath))))
              0 stC HuC) as (stD & n & HD & HuD).
  rewrite HD. unfold scannerErr. rewrite Hread. cbn [option_map].
  apply Fprint_ok in HB as (HaB & _ & HcB & _).
  apply Fprint_ok in HC as (HaC & _ & HcC & _).
  apply copyLines_ok in HD as (HaD & _ & _ & HcD).
  eexists. split; [reflexivity|].
  destruct (fcloseErr (wOpen w fullPath)); rewrite ?logSt_accepted; cbn [fileCount logSt];
    (split; [rewrite HaD, HaC, HaB, HaA, !append_assoc; reflexivity|congruence]).
Qed.

Lemma read_error_aborts_witness :
  snd (processFile Failures.tornWorld {| handlerLevel := LevelInfo |}
         "/root/torn.txt" "torn.txt" (freshState "context.txt"))
  = Some (Errorf "error reading file /root/torn.txt: "
                 (PathError "read" "/root/torn.txt" EIO))
  /\ accepted (fst (processFile Failures.tornWorld {| handlerLevel := LevelInfo |}
                      "/root/torn.txt" "torn.txt" (freshState "context.txt")))
     = "## File: torn.txt" +:+ nl +:+ "```" +:+ nl
       +:+ "one" +:+ nl +:+ "two" +:+ nl +:+ "thr" +:+ nl.
Proof.
  destruct (read_error_aborts Failures.tornWorld {| handlerLevel := LevelInfo |}
              "/root/torn.txt" "torn.txt" (freshState "context.txt") EIO)
    as (st' & H & Ha & _).
  - reflexivity.
  - reflexivity.
  - repeat constructor; apply Nat.ltb_lt; vm_compute; reflexivity.
  - split; reflexivity.
  - rewrite H. cbn [fst snd]. split; [reflexivity|]. rewrite Ha. reflexivity.
Defined.

(** The header of the run: when it fits the buffer of the writer its
    writing cannot fail, whatever the device; when its writing fails the
    run returns that error, wrapped, and the walk is not started. *)
Theorem header_failure (w : World) (config : Config) (log0 : list LogRecord)
    (absPath : string) :
  wAbs w = inr absPath -> wCreateErr w = None ->
  let o := processDirectory w config log0 in
  let herr := snd (writeHeader absPath config (initState w config log0 absPath)) in
  (String.length (String.concat "" (headerLines absPath config)) <= defaultBufSize ->
   herr = None)
  /\ (forall e, herr = Some e ->
        result o = Some (Errorf "failed to write header: " e)
        /\ calls o = [] /\ processed o = 0).
Proof.
  intros Habs Hcreate o herr. subst o herr. split.
  - intros Hfit. unfold writeHeader.
    set (f := {| name := outputPath config; data := ""; capacity := wCapacity w;
                 closeErr := wCloseErr w |}).
    assert (allBuffered (initState (unlimitedDevice w) config log0 absPath)) as Hall0
      by (repeat split).
    assert (onFile f (initState (unlimitedDevice w) config log0 absPath)
                   (initState w config log0 absPath)) as Hon0 by (repeat split).
    destruct (fits_writeAll f (headerLines absPath config) _ _ Hall0 Hon0)
      as (_ & H & _); [|exact H].
    destruct (writeAll_unlimited (headerLines absPath config) _
                (allBuffered_unlimited _ Hall0)) as (st' & E & _).
    rewrite E. cbn [fst]. apply writeAll_ok in E as (Ha & _). rewrite Ha.
    exact Hfit.
  - intros e He.
    destruct (processDirectory_run w config log0 absPath Habs Hcreate)
      as [(st1 & e' & Hh & Hres & Hcs & Hp & _)|(st1 & st2 & Hh & _)];
      rewrite Hh in He; cbn [snd] in He; [|discriminate].
    injection He as ->. auto.
Qed.

Lemma header_failure_witness :
  snd (writeHeader "/root" Scenario.config
         (initState Scenario.fullDiskWorld Scenario.config [] "/root")) = None.
Proof.
  destruct (header_failure Scenario.fullDiskWorld Scenario.config [] "/root"
              eq_refl eq_refl) as [H _].
  apply H. apply Nat.leb_le. vm_compute. reflexivity.
Defined.

(** The paths of the walk lie below the input path: [filepath.Rel] gives
    the relative path of every node on which the callback is called, its
    error is never returned. *)
Theorem rel_never_fails (w : World) (config : Config) (log0 : list LogRecord)
    (absPath : string) (tree : Node) :
  wAbs w = inr absPath -> wCreateErr w = None -> wRoot w = inr tree ->
  nonEmptyNames tree = true ->
  Forall (fun c => exists pos,
            In pos (nodesOf tree)
            /\ callPath c = pathOf absPath pos
            /\ Rel absPath (callPath c) = inr (relOf pos))
         (calls (processDirectory w config log0)).
Proof.
  intros Habs Hcreate Hroot Hnames.
  pose proof (calls_not_under_excluded w config log0 absPath tree
                Habs Hcreate Hroot Hnames) as H.
  pose proof (nodesOf_names tree Hnames) as Hnn.
  rewrite List.Forall_forall in Hnn.
  eapply List.Forall_impl; [|exact H].
  intros c (pos & Hpath & Hin & _). exists pos.
  split; [exact Hin|]. split; [exact Hpath|].
  rewrite Hpath. apply Rel_pathOf. now apply Hnn.
Qed.

Lemma rel_never_fails_witness :
  Forall (fun c => exists pos,
            In pos (nodesOf Scenario.tree)
            /\ callPath c = pathOf "/root" pos
            /\ Rel "/root" (callPath c) = inr (relOf pos))
         (calls (processDirectory Scenario.world Scenario.config [])).
Proof.
  apply (rel_never_fails Scenario.world Scenario.config [] "/root" Scenario.tree);
    reflexivity.
Defined.

End Aborts.

Module Capacity.
Import Str StrFacts WriterFacts Transcriber Callback RunFacts Directory Positions
       TreeWalk Outcomes Logging Buffering.

(** *** What every write keeps is kept by the run *)

Section WriterInvariant.
Variable P : Writer -> Prop.
Hypothesis HWrite : forall b p, P b -> P (fst (Write b p)).

Lemma Fprint_keeps s st : P (writer st) -> P (writer (fst (Fprint s st))).
Proof.
  intros H. unfold Fprint. specialize (HWrite (writer st) s H).
  destruct (Write (writer st) s) as [b err]. exact HWrite.
Qed.

Lemma writeAll_keeps lines st :
  P (writer st) -> P (writer (fst (writeAll lines st))).
Proof.
  revert st; induction lines as [|line lines IH]; intros st H; simpl; [exact H|].
  pose proof (Fprint_keeps line st H) as H1.
  destruct (Fprint line st) as [st1 err]. cbn [fst] in H1.
  destruct err; [exact H1|now apply IH].
Qed.

Lemma copyLines_keeps tokens n st :
  P (writer st) -> P (writer (fst (fst (copyLines tokens n st)))).
Proof.
  revert n st; induction tokens as [|line tokens IH]; intros n st H; simpl; [exact H|].
  pose proof (Fprint_keeps (line +:+ nl) st H) as H1.
  destruct (Fprint (line +:+ nl) st) as [st1 err]. cbn [fst] in H1.
  destruct err; [exact H1|now apply IH].
Qed.

Lemma processFile_keeps w lg fullPath relPath st :
  P (writer st) -> P (writer (fst (processFile w lg fullPath relPath st))).
Proof.
  intros H. unfold processFile.
  destruct (openErr (wOpen w fullPath)); [exact H|].
  assert (P (writer (fst (processFileBody lg (wOpen w fullPath) fullPath relPath st))))
    as Hb.
  { unfold processFileBody.
    set (stA := match statErr (wOpen w fullPath) with Some _ => _ | None => _ end).
    assert (P (writer stA)) as HA
      by (subst stA; destruct (statErr (wOpen w fullPath)); exact H).
    clearbody stA.
    pose proof (Fprint_keeps ("## File: " +:+ relPath +:+ nl) stA HA) as HB.
    destruct (Fprint ("## File: " +:+ relPath +:+ nl) stA) as [stB err].
    cbn [fst] in HB. destruct err; [exact HB|].
    pose proof (Fprint_keeps (fence +:+ nl) stB HB) as HC.
    destruct (Fprint (fence +:+ nl) stB) as [stC err]. cbn [fst] in HC.
    destruct err; [exact HC|].
    destruct (scanTokens _) as [tokens tooLong].
    pose proof (copyLines_keeps tokens 0 stC HC) as HD.
    destruct (copyLines tokens 0 stC) as [[stD n] err]. cbn [fst] in HD.
    destruct err; [exact HD|].
    destruct (scannerErr _ _ _); [exact HD|].
    pose proof (Fprint_keeps (fence +:+ nl +:+ nl)
                  (logSt lg LevelDebug "File processed"
                     [("path", VString relPath); ("lines", VInt n)] stD) HD) as HE.
    destruct (Fprint (fence +:+ nl +:+ nl) _) as [stE err]. cbn [fst] in HE.
    destruct err; exact HE. }
  destruct (processFileBody _ _ _ _ _) as [st1 ret]. cbn [fst] in *.
  destruct (fcloseErr _); exact Hb.
Qed.

Lemma walkFn_keeps w config absPath path d err st :
  P (writer st) -> P (writer (fst (walkFn w config absPath path d err st))).
Proof.
  intros H. unfold walkFn. destruct err; [exact H|].
  destruct (Rel absPath path); [exact H|].
  destruct (IsDir d).
  - destruct (shouldExcludeDir _ _); exact H.
  - destruct (shouldIncludeFile _ _); cbn [negb]; [|exact H].
    pose proof (processFile_keeps w (logger config) path s
                  (logSt (logger config) LevelDebug "Processing file"
                     [("path", VString s)] st) H) as H1.
    destruct (processFile _ _ _ _ _) as [st2 perr]. cbn [fst] in H1.
    destruct perr; exact H1.
Qed.

Lemma Run_keeps w config absPath steps st cs st' r :
  Run (walkFn w config absPath) steps st cs st' r ->
  P (writer st) -> P (writer st').
Proof.
  induction 1 as [s|step rest s s1 s' ret r cs Hf Hfat HR IH
                 |step rest s s1 e Hf Hs]; intros H.
  - exact H.
  - apply IH.
    pose proof (walkFn_keeps w config absPath (stepPath step)
                  {| IsDir := stepIsDir step |} (errOf step) s H) as H1.
    now rewrite Hf in H1.
  - pose proof (walkFn_keeps w config absPath (stepPath step)
                  {| IsDir := stepIsDir step |} (errOf step) s H) as H1.
    now rewrite Hf in H1.
Qed.

End WriterInvariant.

(** *** The bytes in the file and in the buffer are bounded *)

Lemma length_substring_le (s : string) (n m : nat) :
  String.length (String.substring n m s) <= m.
Proof.
  revert n m; induction s as [|c s IH]; intros n m.
  - destruct n, m; simpl; lia.
  - destruct n as [|n]; destruct m as [|m]; simpl; try lia.
    + specialize (IH 0 m). lia.
    + apply IH.
    + apply IH.
Qed.

Lemma length_drop_le (n : nat) (s : string) :
  String.length (drop n s) <= String.length s.
Proof.
  unfold drop. pose proof (length_substring_le s n (String.length s - n)). lia.
Qed.

Section Bounded.
Variable cap : nat.

Lemma fileWrite_within (f : OutFile) (p : string) :
  capacity f = Some cap -> String.length (data f) <= cap ->
  capacity (fst (fst (fileWrite f p))) = Some cap
  /\ String.length (data (fst (fst (fileWrite f p)))) <= cap.
Proof.
  intros Hc Hd. unfold fileWrite. rewrite Hc.
  destruct (String.length p <=? cap - String.length (data f)) eqn:Hle;
    cbn [fst capacity data]; (split; [reflexivity|]); rewrite length_append.
  - apply Nat.leb_le in Hle. lia.
  - pose proof (length_substring_le p 0 (cap - String.length (data f))). lia.
Qed.

Lemma Flush_within (b : Writer) : withinDevice cap b -> withinDevice cap (fst (Flush b)).
Proof.
  intros (Hc & Hd & Hb). unfold Flush.
  destruct (werr b); [now repeat split|].
  destruct (Nat.eqb (Buffered b) 0); [now repeat split|].
  destruct (fileWrite_within (wr b) (buf b) Hc Hd) as [Hc' Hd'].
  destruct (fileWrite (wr b) (buf b)) as [[f' n] err]. cbn [fst] in Hc', Hd'.
  destruct err; cbn [fst]; repeat split; cbn [wr buf]; try assumption.
  - pose proof (length_drop_le n (buf b)).
    eapply Nat.le_trans; [eassumption|exact Hb].
  - apply Nat.le_0_l.
Qed.

Lemma writeLoop_within fuel (b : Writer) (p : string) :
  withinDevice cap b -> withinDevice cap (fst (writeLoop fuel b p)).
Proof.
  revert b p; induction fuel as [|fuel IH]; intros b p Hin; simpl; [exact Hin|].
  destruct (werr b) eqn:He; [exact Hin|].
  destruct (Available b <? String.length p); [|exact Hin].
  destruct Hin as (Hc & Hd & Hb).
  destruct (Nat.eqb (Buffered b) 0).
  - destruct (fileWrite_within (wr b) p Hc Hd) as [Hc' Hd'].
    destruct (fileWrite (wr b) p) as [[f' n] err]. cbn [fst] in Hc', Hd'.
    apply IH. repeat split; assumption.
  - apply IH. apply Flush_within. repeat split; cbn [wr buf]; try assumption.
    rewrite length_append.
    pose proof (length_substring_le p 0 (Available b)) as Hs.
    unfold Available in *. revert Hs Hb. generalize defaultBufSize.
    intros B Hs Hb. lia.
Qed.

Lemma Write_within (b : Writer) (p : string) :
  withinDevice cap b -> withinDevice cap (fst (Write b p)).
Proof.
  intros Hin. unfold Write.
  pose proof (writeLoop_within writeFuel b p Hin) as (Hc & Hd & Hb).
  destruct (writeLoop_exits 0 b p) as [_ Hstop].
  destruct (writeLoop writeFuel b p) as [b1 rest]. cbn [fst snd] in *.
  destruct (werr b1) eqn:He; cbn [fst]; [now repeat split|].
  repeat split; cbn [wr buf]; try assumption.
  destruct Hstop as [Hne|Hfit]; [congruence|].
  rewrite length_append. unfold Available in Hfit.
  revert Hfit Hb. generalize defaultBufSize. intros B Hfit Hb. lia.
Qed.

End Bounded.

Lemma substring_append (a b : string) (c : nat) :
  String.length a <= c ->
  String.substring 0 c (a +:+ b) = a +:+ String.substring 0 (c - String.length a) b.
Proof.
  revert c; induction a as [|x a IH]; intros c Hc; sapp.
  - now rewrite Nat.sub_0_r.
  - destruct c as [|c]; simpl in *; [lia|]. rewrite IH by lia. reflexivity.
Qed.

(** The final flush leaves in the file what the device takes of the
    accepted bytes. *)
Lemma Flush_data (cap : nat) (b : Writer) :
  werr b = None -> withinDevice cap b ->
  data (wr (fst (Flush b))) = String.substring 0 cap (stream b).
Proof.
  intros He (Hc & Hd & _). unfold Flush, stream. rewrite He.
  destruct (Nat.eqb (Buffered b) 0) eqn:E.
  - apply Nat.eqb_eq in E. apply length_0_empty in E. rewrite E.
    cbn [fst]. rewrite append_nil_r. symmetry. now apply substring_ge.
  - rewrite substring_append by assumption.
    unfold fileWrite. rewrite Hc.
    destruct (String.length (buf b) <=? cap - String.length (data (wr b))) eqn:Hle;
      cbn [fst wr data]; [|reflexivity].
    apply Nat.leb_le in Hle. now rewrite substring_ge.
Qed.

(** The state in which a run that returns nil ends: all the expected
    output was accepted and no write failed. *)
Lemma success_accepted (w : World) (config : Config) (log0 : list LogRecord)
    (absPath : string) (tree : Node) :
  wAbs w = inr absPath -> wCreateErr w = None -> wRoot w = inr tree ->
  nonEmptyNames tree = true ->
  result (processDirectory w config log0) = None ->
  exists st2,
    output (processDirectory w config log0) = Some (wr (fst (Flush (writer st2))))
    /\ accepted st2 = expectedOutput w config absPath tree
    /\ werr (writer st2) = None
    /\ (forall P : Writer -> Prop,
          (forall b p, P b -> P (fst (Write b p))) ->
          P (writer (initState w config log0 absPath)) -> P (writer st2)).
Proof.
  intros Habs Hcreate Hroot Hnames Hres.
  pose proof (success_transcribes_selected w config log0 absPath tree
                Habs Hcreate Hroot Hnames Hres) as Hsel.
  destruct (processDirectory_run w config log0 absPath Habs Hcreate)
    as [(st1 & e & _ & He & _)|(st1 & st2 & Hh & HR & _ & Hout & _)].
  { congruence. }
  rewrite Hres in HR. exists st2. split; [exact Hout|].
  unfold writeHeader in Hh. split; [|split].
  - rewrite (Run_accepted _ _ _ _ _ _ _ HR).
    pose proof Hh as Hh'. apply writeAll_ok in Hh' as (Ha1 & _). rewrite Ha1.
    unfold expectedOutput. f_equal. unfold sectionsOf.
    rewrite (sections_of_positions w absPath _ _ Hsel); [reflexivity|].
    unfold selectedFiles. apply List.Forall_forall. intros pos Hpos.
    apply filter_In in Hpos as [Hpos _].
    pose proof (filesOf_names tree Hnames) as HF.
    rewrite List.Forall_forall in HF. now apply HF.
  - apply (Run_werr _ _ _ _ _ _ _ HR).
    now apply writeAll_werr in Hh.
  - intros P HP H0. apply (Run_keeps P HP _ _ _ _ _ _ _ _ HR).
    pose proof (writeAll_keeps P HP (headerLines absPath config) _ H0) as H1.
    now rewrite Hh in H1.
Qed.

(** A run that returns nil on a device of capacity [cap] has left in the
    file the first [cap] bytes of the expected output, all of it when it
    fits; the expected output is longer than the capacity by at most the
    size of the buffer.  The bytes that did not fit were lost at the
    deferred flush, whose failure is not returned. *)
Theorem success_may_lose_the_buffer (w : World) (config : Config)
    (log0 : list LogRecord) (absPath : string) (tree : Node) (cap : nat) :
  wAbs w = inr absPath -> wCreateErr w = None -> wRoot w = inr tree ->
  nonEmptyNames tree = true -> wCapacity w = Some cap ->
  let o := processDirectory w config log0 in
  result o = None ->
  String.length (expectedOutput w config absPath tree) <= cap + defaultBufSize
  /\ exists out,
       output o = Some out
       /\ data out = String.substring 0 cap (expectedOutput w config absPath tree).
Proof.
  intros Habs Hcreate Hroot Hnames Hcap o Hres. subst o.
  destruct (success_accepted w config log0 absPath tree Habs Hcreate Hroot Hnames Hres)
    as (st2 & Hout & Hacc & Herr & Hkeeps).
  assert (withinDevice cap (writer st2)) as Hin.
  { apply Hkeeps; [intros b p; apply Write_within|].
    repeat split; cbn; [exact Hcap|apply Nat.le_0_l|apply Nat.le_0_l]. }
  split.
  - rewrite <- Hacc. unfold accepted, stream. rewrite length_append.
    destruct Hin as (_ & Hd & Hb). now apply Nat.add_le_mono.
  - eexists. split; [exact Hout|].
    rewrite (Flush_data cap (writer st2) Herr Hin). now rewrite <- Hacc.
Qed.

Lemma success_may_lose_the_buffer_witness :
  result (processDirectory Scenario.fullDiskWorld Scenario.config []) = None
  /\ option_map data (output (processDirectory Scenario.fullDiskWorld Scenario.config []))
     = Some "".
Proof.
  assert (result (processDirectory Scenario.fullDiskWorld Scenario.config []) = None)
    as Hres by (vm_compute; reflexivity).
  destruct (success_may_lose_the_buffer Scenario.fullDiskWorld Scenario.config []
              "/root" Scenario.tree 0 eq_refl eq_refl eq_refl eq_refl eq_refl Hres)
    as (_ & out & Hout & Hdata).
  split; [exact Hres|]. rewrite Hout. cbn [option_map]. now rewrite Hdata.
Defined.

End Capacity.

Module Partial.
Import Str StrFacts WriterFacts Transcriber Callback RunFacts Directory Positions
       TreeWalk Outcomes Logging Buffering.

Lemma scanTokens_prefix (raw : list string) :
  exists rest, map dropCR raw = fst (scanTokens raw) ++ rest.
Proof.
  induction raw as [|line raw [rest IH]]; simpl.
  - now exists [].
  - destruct (MaxScanTokenSize <=? String.length line).
    + now exists (dropCR line :: map dropCR raw).
    + destruct (scanTokens raw) as [tokens err]. simpl in *.
      exists rest. now rewrite IH.
Qed.

(** What a failing [processFile] has written on a device that does not
    fail: nothing when the file did not open, else the start of its
    section. *)
Lemma processFile_failure_output w lg fullPath relPath st st' e :
  unlimited st ->
  processFile w lg fullPath relPath st = (st', Some e) ->
  accepted st' = accepted st
  \/ exists lines rest,
       fileLines (content (wOpen w fullPath)) = lines ++ rest
       /\ accepted st' = accepted st +:+ partialSection relPath lines.
Proof.
  intros Hu. unfold processFile.
  destruct (openErr (wOpen w fullPath)); [intros [= <- _]; now left|].
  unfold processFileBody.
  set (stA := match statErr (wOpen w fullPath) with
              | Some e => _ | None => _ end).
  assert (unlimited stA /\ accepted stA = accepted st) as (HuA & HaA).
  { subst stA. destruct (statErr (wOpen w fullPath));
      (split; [now apply logSt_unlimited|apply logSt_accepted]). }
  clearbody stA.
  destruct (Fprint_unlimited ("## File: " +:+ relPath +:+ nl) stA HuA)
    as (stB & HB & HuB). rewrite HB.
  destruct (Fprint_unlimited (fence +:+ nl) stB HuB) as (stC & HC & HuC). rewrite HC.
  destruct (scanTokens_prefix (rawLines (content (wOpen w fullPath)))) as [rest Hpre].
  destruct (scanTokens (rawLines (content (wOpen w fullPath)))) as [tokens tooLong].
  cbn [fst] in Hpre.
  destruct (copyLines_unlimited tokens 0 stC HuC) as (stD & n & HD & HuD).
  rewrite HD.
  apply Fprint_ok in HB as (HaB & _).
  apply Fprint_ok in HC as (HaC & _).
  apply copyLines_ok in HD as (HaD & _).
  assert (accepted stD = accepted st +:+ partialSection relPath tokens) as Hpart.
  { unfold partialSection. rewrite HaD, HaC, HaB, HaA, !append_assoc. reflexivity. }
  destruct (scannerErr fullPath (wOpen w fullPath) tooLong).
  - intros [= <- _]. right. exists tokens, rest. split; [exact Hpre|].
    destruct (fcloseErr _); rewrite ?logSt_accepted; exact Hpart.
  - destruct (Fprint_unlimited (fence +:+ nl +:+ nl)
                (logSt lg LevelDebug "File processed"
                   [("path", VString relPath); ("lines", VInt n)] stD)
                (logSt_unlimited _ _ _ _ _ HuD)) as (stE & HE & _).
    rewrite HE. discriminate.
Qed.

Section OfWalkFn.
Variable w : World.
Variable config : Config.
Variable absPath : string.

Lemma walkFn_failure_output step st st' e :
  unlimited st ->
  walkFn w config absPath (stepPath step) {| IsDir := stepIsDir step |}
         (errOf step) st = (st', Some e) ->
  isSkipDir e = false ->
  exists tail,
    accepted st' = accepted st +:+ tail
    /\ unfinished w absPath (stepPath step) tail.
Proof.
  intros Hu. unfold walkFn, errOf.
  destruct (stepErr step) as [[op se]|]; cbn [option_map].
  { intros [= <- _] _. exists "". rewrite logSt_accepted, append_nil_r.
    split; [reflexivity|now left]. }
  destruct (Rel absPath (stepPath step)) as [e'|relPath] eqn:HRel.
  { intros [= <- _] _. exists "". rewrite append_nil_r. split; [reflexivity|now left]. }
  cbn [IsDir]. destruct (stepIsDir step).
  - destruct (shouldExcludeDir _ _); [|discriminate].
    intros [= _ <-]. discriminate.
  - destruct (shouldIncludeFile _ _); cbn [negb]; [|discriminate].
    destruct (processFile _ _ _ _ _) as [st2 perr] eqn:Hp.
    destruct perr as [e'|]; [|discriminate].
    intros [= <- _] _.
    apply processFile_failure_output in Hp; [|now apply logSt_unlimited].
    rewrite !logSt_accepted in *.
    destruct Hp as [Hp|(lines & rest & Hl & Hp)].
    + exists "". rewrite append_nil_r. split; [exact Hp|now left].
    + exists (partialSection relPath lines). split; [exact Hp|].
      right. exists relPath, lines, rest. auto.
Qed.

Lemma sectionsOf_cons c cs :
  sectionsOf w config absPath (c :: cs)
  = (if transcribes config c then sectionOf w absPath c else "")
    +:+ sectionsOf w config absPath cs.
Proof.
  unfold sectionsOf. cbn [List.filter].
  destruct (transcribes config c); [|reflexivity].
  cbn [map]. apply concat_cons_str.
Qed.

(** The bytes a walk has added on a device that does not fail: the
    sections of the files it transcribed, and after them what the call
    that ended it has left. *)
Lemma Run_output steps st cs st' r :
  Run (walkFn w config absPath) steps st cs st' r ->
  unlimited st ->
  exists tail,
    accepted st' = accepted st +:+ sectionsOf w config absPath cs +:+ tail
    /\ (r = None -> tail = "")
    /\ (tail <> "" ->
        exists before c, cs = before ++ [c] /\ unfinished w absPath (callPath c) tail).
Proof.
  induction 1 as [s|step rest s s1 s' ret r cs Hf Hfat HR IH
                 |step rest s s1 e Hf Hs]; intros Hu.
  - exists "". unfold sectionsOf. cbn. rewrite !append_nil_r.
    split; [reflexivity|]. split; [reflexivity|congruence].
  - pose proof (walkFn_keeps_unlimited w config absPath (stepPath step)
                  {| IsDir := stepIsDir step |} (errOf step) s Hu) as Hu1.
    rewrite Hf in Hu1. cbn [fst] in Hu1.
    destruct (IH Hu1) as (tail & Ha & Hnone & Hlast).
    exists tail. split; [|split; [exact Hnone|]].
    + rewrite Ha, (walkFn_accepted w config absPath step s s1 ret Hf Hfat).
      rewrite sectionsOf_cons, !append_assoc. reflexivity.
    + intros Hne. destruct (Hlast Hne) as (before & c & -> & Hun).
      exists (callOf step ret :: before), c. auto.
  - destruct (walkFn_failure_output step s s1 e Hu Hf Hs) as (tail & Ha & Hun).
    exists tail. split; [|split; [discriminate|]].
    + rewrite sectionsOf_cons. unfold transcribes, callOf. cbn.
      rewrite andb_false_r. cbn. unfold sectionsOf. cbn. exact Ha.
    + intros _. exists [], (callOf step (Some e)). auto.
Qed.

End OfWalkFn.

(** The output of every run on a device that does not fail, also of one
    that fails: the header, the complete sections of the files counted,
    in the order of the calls, and, when the last call failed in the
    middle of a file, the start of its section.  After a run that returns
    nil nothing follows the sections. *)
Theorem output_of_any_run (w : World) (config : Config) (log0 : list LogRecord)
    (absPath : string) :
  wAbs w = inr absPath -> wCreateErr w = None -> wCapacity w = None ->
  let o := processDirectory w config log0 in
  exists out tail,
    output o = Some out
    /\ data out = String.concat "" (headerLines absPath config)
                  +:+ sectionsOf w config absPath (calls o) +:+ tail
    /\ processed o = length (List.filter (transcribes config) (calls o))
    /\ (result o = None -> tail = "")
    /\ (tail <> "" ->
        exists before c,
          calls o = before ++ [c] /\ unfinished w absPath (callPath c) tail).
Proof.
  intros Habs Hcreate Hcap o. subst o.
  destruct (processDirectory_run w config log0 absPath Habs Hcreate)
    as [(st1 & e & Hh & _)|(st1 & st2 & Hh & HR & Hn & Hout & _)].
  { apply (header_written w config log0 absPath _ _ Hcap) in Hh as [Hh _].
    discriminate. }
  pose proof (writeAll_frame _ _ _ _ Hh) as [_ Hc1].
  apply (header_written w config log0 absPath _ _ Hcap) in Hh as (_ & Hu1 & Ha1 & _).
  destruct (Run_output w config absPath _ _ _ _ _ HR Hu1) as (tail & Ha & Hnone & Hlast).
  pose proof (Run_keeps_unlimited _ _ _ _ _ _ _ _ HR Hu1) as Hu2.
  eexists. exists tail. split; [exact Hout|].
  rewrite (flushed_output st2 Hu2), Ha, Ha1.
  split; [reflexivity|]. split; [|split; assumption].
  rewrite Hn, (Run_fileCount _ _ _ _ _ _ _ _ HR), Hc1. reflexivity.
Qed.

Lemma output_of_any_run_witness :
  exists out tail,
    output (processDirectory Failures.tornWorld (mkConfig TrimSpaceASCII defaultFlags) [])
    = Some out
    /\ data out
       = String.concat "" (headerLines "/root" (mkConfig TrimSpaceASCII defaultFlags))
         +:+ sectionsOf Failures.tornWorld (mkConfig TrimSpaceASCII defaultFlags) "/root"
               (calls (processDirectory Failures.tornWorld
                         (mkConfig TrimSpaceASCII defaultFlags) []))
         +:+ tail
    /\ (tail <> "" ->
        exists before c,
          calls (processDirectory Failures.tornWorld
                   (mkConfig TrimSpaceASCII defaultFlags) []) = before ++ [c]
          /\ unfinished Failures.tornWorld "/root" (callPath c) tail).
Proof.
  destruct (output_of_any_run Failures.tornWorld (mkConfig TrimSpaceASCII defaultFlags)
              [] "/root" eq_refl eq_refl eq_refl)
    as (out & tail & Hout & Hdata & _ & _ & Hlast).
  exists out, tail. repeat split; assumption.
Defined.

(** The output of the run that fails while it reads [torn.txt]. *)
Example torn_output :
  let o := processDirectory Failures.tornWorld (mkConfig TrimSpaceASCII defaultFlags) [] in
  result o = Some (Errorf "error reading file /root/torn.txt: "
                          (PathError "read" "/root/torn.txt" EIO))
  /\ processed o = 0
  /\ option_map data (output o)
     = Some ("# Contextify Output" +:+ nl
             +:+ "# Generated from: /root" +:+ nl
             +:+ "# Excluded directories: .git" +:+ nl
             +:+ nl
             +:+ "## File: torn.txt" +:+ nl
             +:+ "```" +:+ nl
             +:+ "one" +:+ nl
             +:+ "two" +:+ nl
             +:+ "thr" +:+ nl).
Proof. vm_compute. repeat split; reflexivity. Qed.

End Partial.

(** ** The version-control directory is always excluded *)

Module Exclusion.
Import Str StrFacts WriterFacts Transcriber RunFacts Directory Outcomes Buffering Partial.

Lemma hasGit_In (l : list string) : hasGit l = true <-> In ".git" l.
Proof.
  induction l as [|x l IH]; simpl; [split; [discriminate|contradiction]|].
  destruct (String.eqb x ".git") eqn:E.
  - apply String.eqb_eq in E. subst. tauto.
  - apply String.eqb_neq in E. rewrite IH. split; [tauto|].
    intros [H|H]; [congruence|assumption].
Qed.

Lemma count_occ_git_positive (l : list string) :
  In ".git" l -> 1 <= count_occ String.string_dec l ".git".
Proof.
  intros H. apply (count_occ_In String.string_dec) in H. lia.
Qed.

Lemma count_occ_git_zero (l : list string) :
  ~ In ".git" l -> count_occ String.string_dec l ".git" = 0.
Proof. intros H. now apply (count_occ_not_In String.string_dec). Qed.

Lemma Join_Contains (l : list string) (sep x : string) :
  In x l -> Contains (Str.Join l sep) x.
Proof.
  induction l as [|y l IH]; intros Hin; [contradiction|].
  destruct l as [|z l].
  - destruct Hin as [->|[]]. exists "", "". simpl. now rewrite append_nil_r.
  - change (Str.Join (y :: z :: l) sep) with (y +:+ sep +:+ Str.Join (z :: l) sep).
    destruct Hin as [->|Hin].
    + exists "", (sep +:+ Str.Join (z :: l) sep). reflexivity.
    + destruct (IH Hin) as (before & after & E). rewrite E.
      exists (y +:+ sep +:+ before), after. now rewrite !append_assoc.
Qed.

(** What [ensureGitExcluded] returns. *)
Lemma ensureGitExcluded_cases (userList : list string) :
  (In ".git" userList /\ ensureGitExcluded userList = userList)
  \/ (~ In ".git" userList /\ ensureGitExcluded userList = userList ++ [".git"]).
Proof.
  unfold ensureGitExcluded. destruct (hasGit userList) eqn:E.
  - left. split; [now apply hasGit_In|reflexivity].
  - right. split; [|reflexivity]. intros H. apply hasGit_In in H. congruence.
Qed.

(** The line of the excluded directories is part of the text of the
    header. *)
Lemma header_reports_excluded (absPath : string) (config : Config) :
  Contains (String.concat "" (headerLines absPath config))
           ("# Excluded directories: "
            +:+ Str.Join (excludeDirs config) ", " +:+ nl).
Proof.
  unfold headerLines. cbn [app]. rewrite !concat_cons_str.
  exists ("# Contextify Output" +:+ nl +:+ "# Generated from: " +:+ absPath +:+ nl).
  eexists. rewrite !append_assoc. reflexivity.
Qed.

(** [writeHeader] returns nil when the device does not fail, and on any
    device when the header fits the buffer of the writer. *)
Lemma writeHeader_succeeds (w : World) (config : Config) (log0 : list LogRecord)
    (absPath : string) :
  wCapacity w = None
  \/ String.length (String.concat "" (headerLines absPath config)) <= defaultBufSize ->
  exists st1,
    writeHeader absPath config (initState w config log0 absPath) = (st1, None)
    /\ accepted st1 = String.concat "" (headerLines absPath config).
Proof.
  intros Hcase.
  destruct (writeHeader absPath config (initState w config log0 absPath))
    as [st1 herr] eqn:Hh.
  assert (herr = None) as ->.
  { destruct Hcase as [Hcap|Hfit].
    - now destruct (header_written w config log0 absPath st1 herr Hcap Hh).
    - change herr with (snd (st1, herr)). rewrite <- Hh. unfold writeHeader.
      set (f := {| name := outputPath config; data := ""; capacity := wCapacity w;
                   closeErr := wCloseErr w |}).
      assert (allBuffered (initState (unlimitedDevice w) config log0 absPath)) as Hall0
        by (repeat split).
      assert (onFile f (initState (unlimitedDevice w) config log0 absPath)
                     (initState w config log0 absPath)) as Hon0 by (repeat split).
      destruct (fits_writeAll f (headerLines absPath config) _ _ Hall0 Hon0)
        as (_ & H & _); [|exact H].
      destruct (writeAll_unlimited (headerLines absPath config) _
                  (allBuffered_unlimited _ Hall0)) as (st' & E & _).
      rewrite E. cbn [fst]. apply writeAll_ok in E as (Ha & _). rewrite Ha.
      exact Hfit. }
  exists st1. split; [reflexivity|].
  unfold writeHeader in Hh. now apply writeAll_ok in Hh as (Ha & _).
Qed.

(** The output file of a run on a device that does not fail starts with
    the header, whatever the walk does afterwards. *)
Lemma output_starts_with_header (w : World) (config : Config)
    (log0 : list LogRecord) (absPath : string) :
  wAbs w = inr absPath -> wCreateErr w = None -> wCapacity w = None ->
  exists out rest,
    output (processDirectory w config log0) = Some out
    /\ data out = String.concat "" (headerLines absPath config) +:+ rest.
Proof.
  intros Habs Hcreate Hcap.
  destruct (processDirectory_run w config log0 absPath Habs Hcreate)
    as [(st1 & e & Hh & _)|(st1 & st2 & Hh & HR & _ & Hout & _)].
  { apply (header_written w config log0 absPath _ _ Hcap) in Hh as [Hh _].
    discriminate. }
  apply (header_written w config log0 absPath _ _ Hcap) in Hh as (_ & Hu1 & Ha1 & _).
  destruct (Run_output w config absPath _ _ _ _ _ HR Hu1) as (tail & Ha & _).
  pose proof (Run_keeps_unlimited _ _ _ _ _ _ _ _ HR Hu1) as Hu2.
  eexists. exists (sectionsOf w config absPath (calls (processDirectory w config log0))
                   +:+ tail).
  split; [exact Hout|].
  rewrite (flushed_output st2 Hu2), Ha, Ha1. reflexivity.
Qed.

(** C5: the exclusion list of a run is the list of the user with [".git"]
    appended when the user did not give it, and unchanged when the user
    did, so that [".git"] occurs in it as often as the user gave it and at
    least once.  The exclusion set contains [".git"], and the line of the
    run header that reports the excluded directories contains it.
    [writeHeader] writes that header: it returns nil when the device does
    not fail, and on any device when the header fits the buffer, and the
    bytes it has written are then the header; the output file of every
    run on a device that does not fail starts with the header and so holds
    the line with [".git"].  The configuration [main] builds is of this
    kind. *)
Theorem git_always_excluded (userList : list string) (config : Config)
    (absPath : string) :
  excludeDirs config = ensureGitExcluded userList ->
  excludeMap config = createLookupMap (excludeDirs config) ->
  count_occ String.string_dec (excludeDirs config) ".git"
  = Nat.max 1 (count_occ String.string_dec userList ".git")
  /\ (excludeDirs config = userList \/ excludeDirs config = userList ++ [".git"])
  /\ mapGet (excludeMap config) ".git" = true
  /\ (exists before after,
        headerLines absPath config
        = before ++ ("# Excluded directories: "
                     +:+ Str.Join (excludeDirs config) ", " +:+ nl) :: after)
  /\ Contains (Str.Join (excludeDirs config) ", ") ".git"
  /\ (forall w log0 st1,
        writeHeader absPath config (initState w config log0 absPath) = (st1, None) ->
        accepted st1 = String.concat "" (headerLines absPath config))
  /\ (forall w log0,
        wCapacity w = None
        \/ String.length (String.concat "" (headerLines absPath config))
           <= defaultBufSize ->
        exists st1,
          writeHeader absPath config (initState w config log0 absPath) = (st1, None)
          /\ accepted st1 = String.concat "" (headerLines absPath config))
  /\ (forall w log0,
        wAbs w = inr absPath -> wCreateErr w = None -> wCapacity w = None ->
        exists out rest,
          output (processDirectory w config log0) = Some out
          /\ data out = String.concat "" (headerLines absPath config) +:+ rest
          /\ Contains (data out)
                      ("# Excluded directories: "
                       +:+ Str.Join (excludeDirs config) ", " +:+ nl)
          /\ Contains (data out) ".git")
  /\ (forall TrimSpace flags,
        excludeDirs (mkConfig TrimSpace flags)
        = ensureGitExcluded (parseCommaSeparated TrimSpace (flagExclude flags))
        /\ excludeMap (mkConfig TrimSpace flags)
           = createLookupMap (excludeDirs (mkConfig TrimSpace flags))).
Proof.
  intros Hdirs Hmap.
  assert (In ".git" (excludeDirs config)) as Hin.
  { rewrite Hdirs. destruct (ensureGitExcluded_cases userList) as [[H ->]|[_ ->]];
      [assumption|]. apply in_or_app. right. now left. }
  split; [|split; [|split; [|split; [|split; [|split; [|split; [|split]]]]]]].
  - rewrite Hdirs. destruct (ensureGitExcluded_cases userList) as [[H ->]|[H ->]].
    + apply count_occ_git_positive in H. lia.
    + rewrite count_occ_app, (count_occ_git_zero _ H). reflexivity.
  - rewrite Hdirs. destruct (ensureGitExcluded_cases userList) as [[_ ->]|[_ ->]]; auto.
  - rewrite Hmap. now apply createLookupMap_member.
  - unfold headerLines. eexists [_; _], _. reflexivity.
  - now apply Join_Contains.
  - intros w log0 st1 H. apply writeAll_ok in H as (Ha & _). exact Ha.
  - intros w log0. apply writeHeader_succeeds.
  - intros w log0 Habs Hcreate Hcap.
    destruct (output_starts_with_header w config log0 absPath Habs Hcreate Hcap)
      as (out & rest & Hout & Hdata).
    destruct (header_reports_excluded absPath config) as (b1 & a1 & Hline).
    destruct (Join_Contains (excludeDirs config) ", " ".git" Hin) as (b2 & a2 & Hgit).
    exists out, rest. split; [exact Hout|]. split; [exact Hdata|].
    assert (Contains (data out)
              ("# Excluded directories: "
               +:+ Str.Join (excludeDirs config) ", " +:+ nl)) as Hc.
    { exists b1, (a1 +:+ rest). rewrite Hdata, Hline, !append_assoc. reflexivity. }
    split; [exact Hc|].
    destruct Hc as (b3 & a3 & Hc).
    exists (b3 +:+ "# Excluded directories: " +:+ b2), (a2 +:+ nl +:+ a3).
    rewrite Hc, Hgit, !append_assoc. reflexivity.
  - intros TrimSpace flags. split; reflexivity.
Qed.

Lemma git_always_excluded_witness :
  count_occ String.string_dec (excludeDirs Scenario.config) ".git" = 1
  /\ mapGet (excludeMap Scenario.config) ".git" = true
  /\ Contains (Str.Join (excludeDirs Scenario.config) ", ") ".git"
  /\ (exists st1,
        writeHeader "/root" Scenario.config
          (initState Scenario.fullDiskWorld Scenario.config [] "/root") = (st1, None)
        /\ accepted st1
           = "# Contextify Output" +:+ nl
             +:+ "# Generated from: /root" +:+ nl
             +:+ "# Excluded directories: node_modules, .git" +:+ nl
             +:+ "# Included extensions: .go" +:+ nl
             +:+ nl)
  /\ (exists out rest,
        output (processDirectory Scenario.world Scenario.config []) = Some out
        /\ data out
           = ("# Contextify Output" +:+ nl
              +:+ "# Generated from: /root" +:+ nl
              +:+ "# Excluded directories: node_modules, .git" +:+ nl
              +:+ "# Included extensions: .go" +:+ nl
              +:+ nl) +:+ rest).
Proof.
  destruct (git_always_excluded ["node_modules"] Scenario.config "/root"
              eq_refl eq_refl) as (Hcount & _ & Hmap & _ & Hline & _ & Hwrite & Hrun & _).
  split; [exact Hcount|]. split; [exact Hmap|]. split; [exact Hline|]. split.
  - destruct (Hwrite Scenario.fullDiskWorld []) as (st1 & Hh & Ha).
    { right. apply Nat.leb_le. vm_compute. reflexivity. }
    exists st1. split; [exact Hh|]. rewrite Ha. vm_compute. reflexivity.
  - destruct (Hrun Scenario.world [] eq_refl eq_refl eq_refl)
      as (out & rest & Hout & Hdata & _).
    exists out, rest. split; [exact Hout|]. rewrite Hdata. f_equal.
Defined.

End Exclusion.
